(** * Rotor message handler (services/rotor/src/index.ts)

    A shallow embedding of [rotorMessageHandler] and of the helpers it is
    built from: the three process-wide caches, [getCachedOrLoad], the
    resolution of user-defined functions (UDFs), the construction of the
    aggregated function list and of the function chain.

    JavaScript values are an inductive type with the language's notion of
    truthiness; objects used as records are Rocq records; objects used as
    property bags (the event contexts) are [gmap string _].  Mutable state
    (the caches, the captured [cached] variables of the [exec] closures, the
    clock, the UDF compiler's allocator, the external config store) lives in
    one [World] record that every operation threads through, together with a
    trace of the externally visible calls.  Exceptions are the [Thrown]
    completion of the monad [M].

    One activation of the handler is taken at one instant of the clock.
    The async callbacks that [Promise.all] runs side by side are tasks that
    are suspended at each [await]; the event loop resumes them in an order
    of its own, and [Promise.all] rejects with the rejection that comes
    first in time.  Numbers are integers. *)

From Stdlib Require Import ZArith String List Bool Lia.
From stdpp Require Import base option list gmap strings.

Local Open Scope Z_scope.
Set Warnings "-register-all".

(** ** JavaScript values *)

Inductive JsVal :=
| JsUndefined
| JsNull
| JsBool (b : bool)
| JsNum (n : Z)
| JsStr (s : string)
| JsArr (items : list JsVal)
| JsObj (fields : list (string * JsVal)).

(** [if (x)]: the truthiness of a value.  Types that only ever hold objects
    are always truthy; [T | undefined] is [option T]. *)
Class Truthy (V : Type) := truthy : V → bool.

Definition string_nonempty (s : string) : bool :=
  match s with EmptyString => false | String _ _ => true end.

#[global] Instance truthy_JsVal : Truthy JsVal := λ x,
  match x with
  | JsUndefined | JsNull => false
  | JsBool b => b
  | JsNum n => negb (n =? 0)
  | JsStr s => string_nonempty s
  | JsArr _ | JsObj _ => true
  end.

#[global] Instance truthy_string : Truthy string := string_nonempty.

#[global] Instance truthy_option {A} `{Truthy A} : Truthy (option A) := λ o,
  match o with Some a => truthy a | None => false end.

(** [x == null], the test behind [??] and [requireDefined]. *)
Definition nullish (x : JsVal) : bool :=
  match x with JsUndefined | JsNull => true | _ => false end.

(** [a ?? b] *)
Definition nullish_coalesce (a b : JsVal) : JsVal := if nullish a then b else a.

(** [o.k] on a value that is not nullish: the property of an object,
    [undefined] on anything else. *)
Fixpoint assoc (k : string) (fields : list (string * JsVal)) : JsVal :=
  match fields with
  | [] => JsUndefined
  | (k', x) :: rest => if String.eqb k k' then x else assoc k rest
  end.
Definition prop (o : JsVal) (k : string) : JsVal :=
  match o with JsObj fields => assoc k fields | _ => JsUndefined end.

(** [x !== s] for a string [s] *)
Definition strict_ne_string (x : JsVal) (s : string) : bool :=
  match x with JsStr s' => negb (String.eqb s' s) | _ => true end.

(** [s.startsWith(p)] and [s.substring(n)] *)
Definition startsWith (s p : string) : bool := String.prefix p s.
Definition substring_from (n : nat) (s : string) : string :=
  String.substring n (String.length s - n) s.

(** ** Thrown values *)

Record Exn := mkExn { exn_message : option string; exn_data : JsVal }.

(** juava's [newError(message)] *)
Definition newError (message : string) : Exn :=
  {| exn_message := Some message; exn_data := JsUndefined |}.

(** A TypeError of the engine, with its message *)
Definition TypeError (message : string) : Exn :=
  {| exn_message := Some message; exn_data := JsUndefined |}.

(** ** Configuration records *)

Record FunctionRef := mkFunctionRef {
  functionId : string;
  functionOptions : JsVal }.

Record ConnectionOptions := {
  functions : option (list FunctionRef);
  dataLayout : JsVal }.

(** The enriched connection. *)
Record Connection := {
  conn_id : string;
  conn_workspaceId : string;
  conn_streamId : string;
  conn_destinationId : string;
  conn_type : string;
  conn_updatedAt : JsVal;
  conn_credentialsHash : JsVal;
  conn_mode : JsVal;
  conn_options : ConnectionOptions;
  conn_usesBulker : bool;
  conn_credentials : JsVal }.

Record IngestMessage := {
  msg_connectionId : string;
  msg_messageId : string;
  msg_type : string;
  msg_httpPayload : JsVal;
  msg_httpHeaders : JsVal;
  msg_geo : JsVal;
  msg_origin_domain : JsVal }.

(** A compiled UDF as kept in [udfCache]: the wrapper (a handle given out by
    the UDF compiler) and the hash of the code it was compiled from. *)
Record CachedUdf := mkCached { wrapper : nat; hash_ : string }.

#[global] Instance truthy_Connection : Truthy Connection := λ _, true.
#[global] Instance truthy_CachedUdf : Truthy CachedUdf := λ _, true.

(** ** Contexts

    [EventContext], [SystemContext] and [FullContext] are property bags; a
    property holds one of the following. *)

Record SystemContext := { anonymousEventsStore : string }.

Inductive ContextField :=
| CfJson (v : JsVal)
| CfRetries (n : Z)
| CfSource (id : string) (domain : JsVal)
| CfDestination (id type : string) (updatedAt hash : JsVal)
| CfConnection (id : string) (mode : JsVal) (options : ConnectionOptions)
| CfSystem (s : SystemContext)
| CfHandle (name : string).

Abbreviation Context := (gmap string ContextField).

(** lodash's [pick(object, paths)]: walks [paths] and copies the properties
    that [object] has. *)
Definition pick (object : Context) (paths : list string) : Context :=
  foldr (λ path result,
           match object !! path with
           | Some value => <[path := value]> result
           | None => result
           end) ∅ paths.

(** ** The world *)

Inductive CacheId := ConnectionsCache | FunctionsCache | UdfCache.

(** What the handler does to its collaborators, in order. *)
Inductive Event :=
| EvJsonParse (raw : string)
| EvCacheGet (c : CacheId) (key : string)
| EvCacheSet (c : CacheId) (key : string)
| EvCacheDel (c : CacheId) (key : string)
| EvCacheTtl (c : CacheId) (key : string)
| EvGetEnrichedConnection (key : string)
| EvGetConfig (kind key : string)
| EvUDFWrapper (handle : nat) (id : string) (name code : JsVal)
| EvUserFunction (handle : nat) (event : JsVal) (ctx : Context)
| EvClose (handle : nat)
| EvRunChain (ids : list string)
| EvLogMetrics (workspaceId messageId : string).

(** A cache entry as node-cache wraps it: the expiry time in milliseconds
    ([0]: never) and the value. *)
Record Entry (V : Type) := mkEntry { entry_t : Z; entry_v : V }.
Arguments mkEntry {V} _ _.
Arguments entry_t {V} _.
Arguments entry_v {V} _.

Record World := mkWorld {
  now : Z;
  connectionsCache_data : gmap string (Entry (option Connection));
  functionsCache_data : gmap string (Entry JsVal);
  udfCache_data : gmap string (Entry CachedUdf);
  nextWrapper : nat;
  cells : gmap nat CachedUdf;
  nextCell : nat;
  store_connections : gmap string Connection;
  store_functions : gmap string JsVal;
  trace : list Event }.

Definition log_event (e : Event) (w : World) : World :=
  mkWorld (now w) (connectionsCache_data w) (functionsCache_data w)
          (udfCache_data w) (nextWrapper w) (cells w) (nextCell w)
          (store_connections w) (store_functions w) (trace w ++ [e]).

(** ** The monad of handler code: state and exceptions *)

Inductive Completion (A : Type) :=
| Normal (a : A)
| Thrown (e : Exn).
Arguments Normal {A} _.
Arguments Thrown {A} _.

Definition M (A : Type) : Type := World → Completion A * World.

Definition ret {A} (a : A) : M A := λ w, (Normal a, w).
Definition throw {A} (e : Exn) : M A := λ w, (Thrown e, w).
Definition bind {A B} (m : M A) (k : A → M B) : M B := λ w,
  match m w with
  | (Normal a, w') => k a w'
  | (Thrown e, w') => (Thrown e, w')
  end.
Definition modify (f : World → World) : M unit := λ w, (Normal tt, f w).
Definition gets {A} (f : World → A) : M A := λ w, (Normal (f w), w).

Notation "'let!' x ':=' m 'in' k" := (bind m (λ x, k))
  (at level 10, x name, m at level 100, k at level 200, only parsing).
Notation "'run!' m 'in' k" := (bind m (λ _, k))
  (at level 10, m at level 100, k at level 200, only parsing).

(** [try { body } catch (e) { handler(e) }] *)
Definition try_catch {A} (body : M A) (handler : Exn → M A) : M A := λ w,
  match body w with
  | (Normal a, w') => (Normal a, w')
  | (Thrown e, w') => handler e w'
  end.

(** juava's [requireDefined(x, message)] *)
Definition requireDefined {A} (x : option A) (message : string) : M A :=
  match x with
  | Some a => ret a
  | None => throw (newError message)
  end.

(** ** Async functions

    A call of an async function runs its body up to the first [await] and
    hands back a promise: here a task, which has settled or is suspended
    with the segment of code that runs when the event loop resumes it.  A
    segment runs in the world it is resumed in, which other tasks may have
    changed in the meantime. *)
Inductive Task (A : Type) : Type :=
| Settled (c : Completion A)
| Suspended (resume : World → Task A * World).
Arguments Settled {A} _.
Arguments Suspended {A} _.

Definition Async (A : Type) : Type := World → Task A * World.

(** Code without an [await] runs in one piece. *)
Definition lift {A} (m : M A) : Async A := λ w,
  let '(c, w') := m w in (Settled c, w').

(** What follows a task in the body of an async function. *)
Fixpoint then_ {A B} (t : Task A) (k : A → Async B) (w : World)
  : Task B * World :=
  match t with
  | Settled (Normal a) => k a w
  | Settled (Thrown e) => (Settled (Thrown e), w)
  | Suspended resume =>
      (Suspended (λ w1, let '(t', w2) := resume w1 in then_ t' k w2), w)
  end.

Definition abind {A B} (m : Async A) (k : A → Async B) : Async B := λ w,
  let '(t, w') := m w in then_ t k w'.

(** [await p]: the function is suspended until [p] has settled, and then
    once more, since its continuation is a job of its own. *)
Fixpoint awaited {A} (t : Task A) : Task A :=
  match t with
  | Settled c => Suspended (λ w, (Settled c, w))
  | Suspended resume =>
      Suspended (λ w, let '(t', w') := resume w in (awaited t', w'))
  end.

Definition await {A} (p : Async A) : Async A := λ w,
  let '(t, w') := p w in (awaited t, w').

Notation "'await!' x ':=' p 'in' k" := (abind (await p) (λ x, k))
  (at level 10, x name, p at level 100, k at level 200, only parsing).
Notation "'sync!' x ':=' m 'in' k" := (abind (lift m) (λ x, k))
  (at level 10, x name, m at level 100, k at level 200, only parsing).

(** A task that nothing interrupts: its segments one after the other. *)
Fixpoint finish {A} (t : Task A) (w : World) : Completion A * World :=
  match t with
  | Settled c => (c, w)
  | Suspended resume => let '(t', w') := resume w in finish t' w'
  end.

Definition uninterrupted {A} (p : Async A) : M A := λ w,
  let '(t, w') := p w in finish t w'.

(** The clock moves between two activations of the handler. *)
Definition advance (dt : Z) (w : World) : World :=
  mkWorld (now w + dt) (connectionsCache_data w) (functionsCache_data w)
          (udfCache_data w) (nextWrapper w) (cells w) (nextCell w)
          (store_connections w) (store_functions w) (trace w).

(** ** The TTL cache *)

(** Modelled from the spec: the TTL cache behind [new NodeCache(...)] (the
    node-cache package, not part of the repository).  A cache maps string
    keys to entries [{value, expiresAt}]; [get] returns the value of a live
    entry, [set] stores a value under the default TTL, [ttl] (the spec's
    [touch]) extends the expiry, [del] removes an entry; removing an entry,
    by [del] or because it has expired, invokes the release hook registered
    with [on("del", ...)].  Storing over an existing key replaces the entry
    and invokes no hook.  An expired entry met by [get] is removed on the
    spot, as the periodic sweep would.  Values are not cloned
    ([useClones: false]). *)
Record NodeCache (V : Type) := {
  cache_id : CacheId;
  stdTTL : Z;
  data : World → gmap string (Entry V);
  set_data : gmap string (Entry V) → World → World;
  del_listener : string → V → World → World }.
Arguments cache_id {V} _.
Arguments stdTTL {V} _.
Arguments data {V} _ _.
Arguments set_data {V} _ _ _.
Arguments del_listener {V} _ _ _ _.

Section NodeCacheOps.
Context {V : Type} (cache : NodeCache V).

Definition NodeCache_wrap (value : V) (ttl : Z) (w : World) : Entry V :=
  mkEntry (if ttl =? 0 then 0 else now w + ttl * 1000) value.

Definition NodeCache_del (key : string) (w : World) : World :=
  match data cache w !! key with
  | Some e =>
      let w1 := set_data cache (delete key (data cache w)) w in
      del_listener cache key (entry_v e)
        (log_event (EvCacheDel (cache_id cache) key) w1)
  | None => w
  end.

Definition expired (e : Entry V) (w : World) : bool :=
  negb (entry_t e =? 0) && (entry_t e <? now w).

Definition NodeCache_check (key : string) (e : Entry V) (w : World)
  : bool * World :=
  if expired e w then (false, NodeCache_del key w) else (true, w).

Definition NodeCache_get (key : string) : M (option V) := λ w,
  let w := log_event (EvCacheGet (cache_id cache) key) w in
  match data cache w !! key with
  | Some e =>
      let '(live, w') := NodeCache_check key e w in
      (Normal (if live then Some (entry_v e) else None), w')
  | None => (Normal None, w)
  end.

Definition NodeCache_set (key : string) (value : V) : M unit := λ w,
  let e := NodeCache_wrap value (stdTTL cache) w in
  (Normal tt,
   log_event (EvCacheSet (cache_id cache) key)
     (set_data cache (<[key := e]> (data cache w)) w)).

(** [ttl(key, ttl)]: a [ttl] of 0 stands for the default TTL, and the empty
    key is refused. *)
Definition NodeCache_ttl (key : string) (ttl : Z) : M bool := λ w,
  let w := log_event (EvCacheTtl (cache_id cache) key) w in
  let ttl := if ttl =? 0 then stdTTL cache else ttl in
  if negb (string_nonempty key) then (Normal false, w)
  else
    match data cache w !! key with
    | Some e =>
        let '(live, w') := NodeCache_check key e w in
        if live then
          if 0 <=? ttl then
            (Normal true,
             set_data cache
               (<[key := NodeCache_wrap (entry_v e) ttl w']> (data cache w'))
               w')
          else (Normal true, NodeCache_del key w')
        else (Normal false, w')
    | None => (Normal false, w)
    end.
End NodeCacheOps.

(** What the operations above rely on: a cache is a component of the world
    of its own, and its release hook leaves it and the clock alone. *)
Class CacheLaws {V} (cache : NodeCache V) : Prop := {
  data_set_data d w : data cache (set_data cache d w) = d;
  data_log_event e w : data cache (log_event e w) = data cache w;
  data_advance dt w : data cache (advance dt w) = data cache w;
  data_del_listener k x w : data cache (del_listener cache k x w) = data cache w;
  now_set_data d w : now (set_data cache d w) = now w;
  now_del_listener k x w : now (del_listener cache k x w) = now w }.

(** cache connections for 20sec *)
Definition connectionsCache : NodeCache (option Connection) := {|
  cache_id := ConnectionsCache;
  stdTTL := 20;
  data := connectionsCache_data;
  set_data := λ d w,
    mkWorld (now w) d (functionsCache_data w) (udfCache_data w)
            (nextWrapper w) (cells w) (nextCell w)
            (store_connections w) (store_functions w) (trace w);
  del_listener := λ _ _ w, w |}.

(** cache functions for 20sec *)
Definition functionsCache : NodeCache JsVal := {|
  cache_id := FunctionsCache;
  stdTTL := 20;
  data := functionsCache_data;
  set_data := λ d w,
    mkWorld (now w) (connectionsCache_data w) d (udfCache_data w)
            (nextWrapper w) (cells w) (nextCell w)
            (store_connections w) (store_functions w) (trace w);
  del_listener := λ _ _ w, w |}.

(** cache compiled udfs for 10min (ttl is extended on each access);
    [udfCache.on("del", (key, value) => value.wrapper?.close())] *)
Definition udfTTL : Z := 60 * 10.
Definition udfCache : NodeCache CachedUdf := {|
  cache_id := UdfCache;
  stdTTL := udfTTL;
  data := udfCache_data;
  set_data := λ d w,
    mkWorld (now w) (connectionsCache_data w) (functionsCache_data w) d
            (nextWrapper w) (cells w) (nextCell w)
            (store_connections w) (store_functions w) (trace w);
  del_listener := λ _ value w, log_event (EvClose (wrapper value)) w |}.

(** ** getCachedOrLoad

    [getCachedOrLoad] is an async function with one [await], on the promise
    of the loader.  The handler awaits it once, for the connection, and then
    nothing runs in between: [getCachedOrLoad] below.  The callbacks of the
    UDF references await it side by side: [getCachedOrLoad_async]. *)

Definition load_and_store_async {V} (cache : NodeCache V) (key : string)
    (loader : string → Async V) : Async V :=
  await! loaded := loader key in
  sync! _ := NodeCache_set cache key loaded in
  lift (ret loaded).

Definition getCachedOrLoad_async {V} `{Truthy V} (cache : NodeCache V)
    (key : string) (loader : string → Async V) : Async V :=
  sync! cached := NodeCache_get cache key in
  match cached with
  | Some value =>
      if truthy value then lift (ret value)
      else load_and_store_async cache key loader
  | None => load_and_store_async cache key loader
  end.

Definition load_and_store {V} (cache : NodeCache V) (key : string)
    (loader : string → M V) : M V :=
  let! loaded := loader key in
  run! NodeCache_set cache key loaded in
  ret loaded.

Definition getCachedOrLoad {V} `{Truthy V} (cache : NodeCache V)
    (key : string) (loader : string → M V) : M V :=
  let! cached := NodeCache_get cache key in
  match cached with
  | Some value =>
      if truthy value then ret value else load_and_store cache key loader
  | None => load_and_store cache key loader
  end.

(** Whether [cache.get(key)] yields a truthy value in this world. *)
Definition serves {V} `{Truthy V} (cache : NodeCache V) (key : string)
    (w : World) : bool :=
  match fst (NodeCache_get cache key w) with
  | Normal cached => truthy cached
  | Thrown _ => false
  end.

(** ** Function chains *)

(** [JitsuFunction]: [(event, ctx) => result], asynchronous. *)
Definition JitsuFunction : Type := JsVal → Context → M JsVal.

(** An element of a [FuncChain]: [{id, config, exec, context}]. *)
Record FuncStep := mkStep {
  step_id : string;
  step_config : JsVal;
  exec : JitsuFunction;
  step_context : Context }.

Record FuncChainResult := {
  events : list JsVal;
  execLog : list JsVal }.

(** The per-connection key-value store ([store:${connection.id}] in redis)
    and the redis logger, as the handles passed along. *)
Record Store := { store_hash : string }.
Inductive RedisLogger := redisLogger.

(** ** Collaborators

    What the handler imports and this file does not define: the environment,
    the JSON decoder, the registry of builtin functions, object-hash, the
    behaviour of compiled user code, and the chain executor of
    lib/functions-chain with its [checkError]. *)
Class Externals := {
  BULKER_URL : string;
  BULKER_AUTH_KEY : string;
  JSON_parse : string → Exn + IngestMessage;
  getBuiltinFunction : string → option JitsuFunction;
  (** the digest that object-hash computes of a value that is there *)
  hash : JsVal → string;
  (** what [wrapper.userFunction(event, ctx)] of the wrapper with this
      handle does in this world: throw or return *)
  userFunction : nat → JsVal → Context → World → Exn + JsVal;
  mongoAnonymousEventsStore : string;
  runChain :
    list FuncStep → JsVal → Connection → RedisLogger → Store → Context →
    M FuncChainResult;
  checkError : FuncChainResult → option Exn;
  (** the event loop: the order in which it resumes the suspended callbacks
      of a [Promise.all] that starts in this world, each named by its
      position in the list *)
  eventLoop : World → list nat }.

(** The error of line 170. *)
Definition workspace_mismatch (functionId : string) (connection : Connection)
  : Exn :=
  newError
    ("Function " +:+ functionId +:+
     " is not in the same workspace as connection " +:+ conn_id connection
     +:+ " (" +:+ conn_workspaceId connection +:+ ")").

Section Rotor.
Context `{Externals}.

Definition bulkerBase : string := BULKER_URL.
Definition bulkerAuthKey : string := BULKER_AUTH_KEY.

(** [JSON.parse(_message) as IngestMessage] *)
Definition parse_message (raw : string) : M IngestMessage := λ w,
  let w := log_event (EvJsonParse raw) w in
  match JSON_parse raw with
  | inl e => (Thrown e, w)
  | inr message => (Normal message, w)
  end.

(** [fastStore.getEnrichedConnection] *)
Definition getEnrichedConnection (key : string) : M (option Connection) :=
  run! modify (log_event (EvGetEnrichedConnection key)) in
  gets (λ w, store_connections w !! key).

(** [fastStore.getConfig(kind, key)] for the kind "function" *)
Definition getConfig (kind key : string) : M JsVal :=
  run! modify (log_event (EvGetConfig kind key)) in
  gets (λ w, default JsUndefined (store_functions w !! key)).

(** [UDFWrapper(id, name, code)]: the UDF compiler hands out a wrapper that
    did not exist before. *)
Definition UDFWrapper (id : string) (name code : JsVal) : M nat := λ w,
  let handle := nextWrapper w in
  (Normal handle,
   log_event (EvUDFWrapper handle id name code)
     (mkWorld (now w) (connectionsCache_data w) (functionsCache_data w)
              (udfCache_data w) (S handle) (cells w) (nextCell w)
              (store_connections w) (store_functions w) (trace w))).

(** [wrapper.userFunction(event, ctx)] *)
Definition wrapper_userFunction (handle : nat) : JitsuFunction :=
  λ event ctx w,
    let w := log_event (EvUserFunction handle event ctx) w in
    match userFunction handle event ctx w with
    | inl e => (Thrown e, w)
    | inr result => (Normal result, w)
    end.

(** [metrics().logMetrics(workspaceId, messageId, execLog)] *)
Definition logMetrics (workspaceId messageId : string) (_ : list JsVal)
  : M unit :=
  modify (log_event (EvLogMetrics workspaceId messageId)).

(** [runChain(chain, event, connection, rl, store, ctx)] *)
Definition run_chain (chain : list FuncStep) (event : JsVal)
    (connection : Connection) (rl : RedisLogger) (store : Store)
    (ctx : Context) : M FuncChainResult :=
  run! modify (log_event (EvRunChain (map step_id chain))) in
  runChain chain event connection rl store ctx.

(** [checkError(chainRes)] throws or returns. *)
Definition check_error (chainRes : FuncChainResult) : M unit :=
  match checkError chainRes with
  | Some e => throw e
  | None => ret tt
  end.

(** *** The captured variable [cached]

    Each [exec] closure captures the [let cached] of the callback that
    built it and may assign it.  A cell of the world holds the variable
    once it has been assigned; until then it has the value it had when
    the closure was built. *)
Definition new_cell : M nat := λ w,
  (Normal (nextCell w),
   mkWorld (now w) (connectionsCache_data w) (functionsCache_data w)
           (udfCache_data w) (nextWrapper w) (cells w) (S (nextCell w))
           (store_connections w) (store_functions w) (trace w)).
Definition read_cell (cell : nat) (initial : CachedUdf) : M CachedUdf :=
  gets (λ w, default initial (cells w !! cell)).
Definition write_cell (cell : nat) (cached : CachedUdf) : M unit :=
  modify (λ w,
    mkWorld (now w) (connectionsCache_data w) (functionsCache_data w)
            (udfCache_data w) (nextWrapper w) (<[cell := cached]> (cells w))
            (nextCell w) (store_connections w) (store_functions w)
            (trace w)).

Definition is_disposed (e : Exn) : bool :=
  match exn_message e with
  | Some m => String.eqb m "Isolate is disposed"
  | None => false
  end.

(** The [exec] of a UDF step (lines 188-201). *)
Definition udf_exec (cell : nat) (initial : CachedUdf) (functionId : string)
    (userFunctionObj code : JsVal) (codeHash : string) : JitsuFunction :=
  λ event ctx,
    try_catch
      (let! cached := read_cell cell initial in
       wrapper_userFunction (wrapper cached) event ctx)
      (λ e,
         if is_disposed e then
           let! rebuilt :=
             UDFWrapper functionId (prop userFunctionObj "name") code in
           let cached := mkCached rebuilt codeHash in
           run! write_cell cell cached in
           run! NodeCache_set udfCache functionId cached in
           wrapper_userFunction (wrapper cached) event ctx
         else throw e).

(** [hash(object)] of the package object-hash, which the handler imports
    and the repository does not hold: it refuses [undefined] with the error
    "Object argument required." and digests any other value. *)
Definition object_hash (object : JsVal) : M string :=
  match object with
  | JsUndefined => throw (newError "Object argument required.")
  | _ => ret (hash object)
  end.

(** Lines 174-184, when no other callback runs in between: the compiled UDF
    for [functionId], from the cache when its hash is the hash of [code],
    compiled otherwise. *)
Definition acquire (functionId : string) (userFunctionObj : JsVal)
  : M CachedUdf :=
  let code := prop userFunctionObj "code" in
  let! codeHash := object_hash code in
  let! cached := getCachedOrLoad udfCache functionId (λ key,
    let! compiled := UDFWrapper key (prop userFunctionObj "name") code in
    ret (mkCached compiled codeHash)) in
  let! cached :=
    if negb (String.eqb (hash_ cached) codeHash) then
      let! compiled :=
        UDFWrapper functionId (prop userFunctionObj "name") code in
      let cached := mkCached compiled codeHash in
      run! NodeCache_set udfCache functionId cached in
      ret cached
    else ret cached in
  run! NodeCache_ttl udfCache functionId udfTTL in
  ret cached.

(** [requireDefined] on a value of type [any]. *)
Definition requireDefined_js (x : JsVal) (message : string) : M JsVal :=
  if nullish x then throw (newError message) else ret x.

(** The callback mapped over the [udf.] references (lines 161-204): an
    async function that awaits the definition of the function and then the
    compiled UDF. *)
Definition resolveUdf_async (connection : Connection) (f : FunctionRef)
  : Async FuncStep :=
  let id := functionId f in
  let functionId := substring_from 4 id in
  await! loaded :=
    getCachedOrLoad_async functionsCache functionId (λ key,
      lift (getConfig "function" key)) in
  sync! userFunctionObj :=
    requireDefined_js loaded ("Unknown function: " +:+ functionId) in
  if strict_ne_string (prop userFunctionObj "workspaceId")
       (conn_workspaceId connection)
  then lift (throw (workspace_mismatch functionId connection))
  else
    let code := prop userFunctionObj "code" in
    sync! codeHash := object_hash code in
    await! cached :=
      getCachedOrLoad_async udfCache functionId (λ key,
        lift (let! compiled :=
                UDFWrapper key (prop userFunctionObj "name") code in
              ret (mkCached compiled codeHash))) in
    sync! cached :=
      (if negb (String.eqb (hash_ cached) codeHash) then
         let! compiled :=
           UDFWrapper functionId (prop userFunctionObj "name") code in
         let cached := mkCached compiled codeHash in
         run! NodeCache_set udfCache functionId cached in
         ret cached
       else ret cached) in
    sync! _ := NodeCache_ttl udfCache functionId udfTTL in
    sync! cell := new_cell in
    lift (ret {| step_id := id;
                 step_config := functionOptions f;
                 exec := udf_exec cell cached functionId userFunctionObj code
                           codeHash;
                 step_context := ∅ |}).

(** The same callback when no other callback runs between its segments. *)
Definition resolveUdf (connection : Connection) (f : FunctionRef)
  : M FuncStep :=
  let id := functionId f in
  let functionId := substring_from 4 id in
  let! loaded := getCachedOrLoad functionsCache functionId (λ key,
    getConfig "function" key) in
  let! userFunctionObj :=
    requireDefined_js loaded ("Unknown function: " +:+ functionId) in
  if strict_ne_string (prop userFunctionObj "workspaceId")
       (conn_workspaceId connection)
  then throw (workspace_mismatch functionId connection)
  else
    let code := prop userFunctionObj "code" in
    let codeHash := hash code in
    let! cached := acquire functionId userFunctionObj in
    let! cell := new_cell in
    ret {| step_id := id;
           step_config := functionOptions f;
           exec := udf_exec cell cached functionId userFunctionObj code
                     codeHash;
           step_context := ∅ |}.

(** *** Promise.all over [list.map(async f => ...)]

    [map] calls every callback in list order, and each call runs up to its
    first [await].  The event loop then resumes the suspended callbacks,
    one segment at a time, in the order of its schedule; a position that
    names no suspended callback is passed over, and the callbacks that are
    still suspended when the schedule ends are finished in list order.
    Every callback runs to its end whatever the others do.  [Promise.all]
    fulfils with the values in list order when every callback has
    fulfilled, and rejects with the rejection that came first in time
    otherwise; the world it is left with is the world in which every
    callback has settled. *)
Definition first_rejection {A} (first : option Exn) (t : Task A)
  : option Exn :=
  match first, t with
  | None, Settled (Thrown e) => Some e
  | _, _ => first
  end.

Fixpoint start_all {A} (calls : list (Async A)) (first : option Exn)
    (w : World) : list (Task A) * option Exn * World :=
  match calls with
  | [] => ([], first, w)
  | call :: rest =>
      let '(t, w1) := call w in
      let '(ts, first', w2) := start_all rest (first_rejection first t) w1 in
      (t :: ts, first', w2)
  end.

Fixpoint resume_all {A} (schedule : list nat) (tasks : list (Task A))
    (first : option Exn) (w : World) : list (Task A) * option Exn * World :=
  match schedule with
  | [] => (tasks, first, w)
  | i :: rest =>
      match tasks !! i with
      | Some (Suspended resume) =>
          let '(t, w1) := resume w in
          resume_all rest (<[i := t]> tasks) (first_rejection first t) w1
      | _ => resume_all rest tasks first w
      end
  end.

Fixpoint finish_all {A} (tasks : list (Task A)) (first : option Exn)
    (w : World) : list (Completion A) * option Exn * World :=
  match tasks with
  | [] => ([], first, w)
  | t :: rest =>
      let '(c, w1) := finish t w in
      let '(cs, first', w2) :=
        finish_all rest (first_rejection first (Settled c)) w1 in
      (c :: cs, first', w2)
  end.

(** How the callbacks settle: what each ends with, by position, the
    rejection that came first, and the world they leave. *)
Definition settle {A} (schedule : list nat) (calls : list (Async A))
    (w : World) : list (Completion A) * option Exn * World :=
  let '(tasks, first, w1) := start_all calls None w in
  let '(tasks, first, w2) := resume_all schedule tasks first w1 in
  finish_all tasks first w2.

Fixpoint all_fulfilled {A} (cs : list (Completion A))
  : Completion (list A) :=
  match cs with
  | [] => Normal []
  | Thrown e :: _ => Thrown e
  | Normal a :: rest =>
      match all_fulfilled rest with
      | Normal l => Normal (a :: l)
      | Thrown e => Thrown e
      end
  end.

Definition Promise_all {A} (schedule : list nat) (calls : list (Async A))
  : M (list A) := λ w,
  let '(outcomes, first, w') := settle schedule calls w in
  (match first with
   | Some e => Thrown e
   | None => all_fulfilled outcomes
   end, w').

(** Callbacks without an [await] have settled when [map] returns: they ran
    one after the other, in list order. *)
Fixpoint settle_all {A} (ps : list (M A)) (w : World)
  : list (Completion A) * World :=
  match ps with
  | [] => ([], w)
  | p :: rest =>
      let '(c, w1) := p w in
      let '(cs, w2) := settle_all rest w1 in
      (c :: cs, w2)
  end.

(** *** The message handler *)

(** [ctx: EventContext] (lines 88-107) *)
Definition eventContext (message : IngestMessage) (connection : Connection)
    (retries : Z) : Context :=
  <["headers" := CfJson (msg_httpHeaders message)]>
  (<["geo" := CfJson (msg_geo message)]>
  (<["retries" := CfRetries retries]>
  (<["source" :=
       CfSource (conn_streamId connection) (msg_origin_domain message)]>
  (<["destination" :=
       CfDestination (conn_destinationId connection) (conn_type connection)
         (conn_updatedAt connection) (conn_credentialsHash connection)]>
  (<["connection" :=
       CfConnection (conn_id connection) (conn_mode connection)
         (conn_options connection)]> ∅))))).

(** [systemContext] (lines 153-157) *)
Definition systemContext : Context :=
  {[ "$system" :=
       CfSystem {| anonymousEventsStore := mongoAnonymousEventsStore |} ]}.

(** [mainFunction] (lines 125-148) *)
Definition mainFunction (message : IngestMessage) (connection : Connection)
  : M FunctionRef :=
  let connectionData := conn_options connection in
  if conn_usesBulker connection then
    ret {| functionId := "builtin.destination.bulker";
           functionOptions := JsObj
             [("bulkerEndpoint", JsStr bulkerBase);
              ("destinationId", JsStr (msg_connectionId message));
              ("authToken", JsStr bulkerAuthKey);
              ("dataLayout",
               nullish_coalesce (dataLayout connectionData)
                 (JsStr "segment-single-table"))] |}
  else
    match getBuiltinFunction
            ("builtin.destination." +:+ conn_type connection) with
    | Some builtin =>
        ret {| functionId := "builtin.destination." +:+ conn_type connection;
               functionOptions := conn_credentials connection |}
    | None =>
        throw (newError
          ("Connection with id " +:+ conn_id connection +:+
           " has no functions assigned to it's destination type - " +:+
           conn_type connection))
    end.

(** [f => functionsFilter ? functionsFilter(f.functionId) : true] *)
Definition passes (functionsFilter : option (string → bool))
    (f : FunctionRef) : bool :=
  match functionsFilter with
  | Some p => p (functionId f)
  | None => true
  end.

(** [functions] (lines 149-151) *)
Definition functions_of (connection : Connection)
    (mainFunction : FunctionRef) (functionsFilter : option (string → bool))
  : list FunctionRef :=
  List.filter (passes functionsFilter)
    (default [] (functions (conn_options connection)) ++ [mainFunction]).

(** The three classes of function ids. *)
Definition is_transformation (f : FunctionRef) : bool :=
  startsWith (functionId f) "builtin.transformation.".
Definition is_udf (f : FunctionRef) : bool :=
  startsWith (functionId f) "udf.".
Definition is_destination (f : FunctionRef) : bool :=
  startsWith (functionId f) "builtin.destination.".

(** [udfFuncChain] (lines 158-205) *)
Definition udfFuncChain_of (connection : Connection)
    (functions : list FunctionRef) : M (list FuncStep) := λ w,
  Promise_all (eventLoop w)
    (map (resolveUdf_async connection) (List.filter is_udf functions)) w.

Definition udfPipeline : FunctionRef :=
  {| functionId := "udf.PIPELINE"; functionOptions := JsUndefined |}.

(** [aggregatedFunctions] (lines 206-210) *)
Definition aggregatedFunctions (functions : list FunctionRef)
    (udfFuncChain : list FuncStep) : list FunctionRef :=
  List.filter is_transformation functions
  ++ (if (0 <? length udfFuncChain)%nat then [udfPipeline] else [])
  ++ List.filter is_destination functions.

Definition reduced_context_fields : list string :=
  ["geo"; "headers"; "source"; "destination"; "connection"; "retries"].

(** [udfPipelineFunc] (lines 212-223) *)
Definition udfPipelineFunc (udfFuncChain : list FuncStep)
    (connection : Connection) (rl : RedisLogger) (store : Store)
  : JitsuFunction := λ event ctx,
    let! chainRes :=
      run_chain udfFuncChain event connection rl store
        (pick ctx reduced_context_fields) in
    run! check_error chainRes in
    ret (JsArr (events chainRes)).

(** The callback mapped over [aggregatedFunctions] (lines 228-246), an
    async function without an [await]. *)
Definition toStep (udfPipelineFunc : JitsuFunction) (f : FunctionRef)
  : M FuncStep :=
  if startsWith (functionId f) "builtin." then
    let! builtin :=
      requireDefined (getBuiltinFunction (functionId f))
        ("Unknown function " +:+ functionId f) in
    ret {| step_id := functionId f;
           step_config := functionOptions f;
           exec := builtin;
           step_context := systemContext |}
  else if String.eqb (functionId f) "udf.PIPELINE" then
    ret {| step_id := functionId f;
           step_config := JsObj [];
           exec := udfPipelineFunc;
           step_context := systemContext |}
  else throw (newError ("Function of unknown type: " +:+ functionId f)).

(** [funcChain] (lines 225-247) *)
Definition funcChain_of (functionsFilter : option (string → bool))
    (udfPipelineFunc : JitsuFunction)
    (aggregatedFunctions : list FunctionRef) : M (list FuncStep) := λ w,
  Promise_all (eventLoop w)
    (map (λ f, lift (toStep udfPipelineFunc f))
       (List.filter (passes functionsFilter) aggregatedFunctions)) w.

(** Lines 75-251: what the handler does with a message that is there. *)
Definition handle_message (_message : string)
    (functionsFilter : option (string → bool)) (retries : Z) : M unit :=
  let! message := parse_message _message in
  let! found :=
    getCachedOrLoad connectionsCache (msg_connectionId message)
      getEnrichedConnection in
  let! connection :=
    requireDefined found
      ("Unknown connection: " +:+ msg_connectionId message) in
  let event := msg_httpPayload message in
  let ctx := eventContext message connection retries in
  let store := {| store_hash := "store:" +:+ conn_id connection |} in
  let rl := redisLogger in
  let! mainFunction := mainFunction message connection in
  let functions := functions_of connection mainFunction functionsFilter in
  let! udfFuncChain := udfFuncChain_of connection functions in
  let aggregatedFunctions := aggregatedFunctions functions udfFuncChain in
  let udfPipelineFunc := udfPipelineFunc udfFuncChain connection rl store in
  let! funcChain :=
    funcChain_of functionsFilter udfPipelineFunc aggregatedFunctions in
  let! chainRes := run_chain funcChain event connection rl store ctx in
  run! logMetrics (conn_workspaceId connection) (msg_messageId message)
         (execLog chainRes) in
  check_error chainRes.

(** [rotorMessageHandler(_message, functionsFilter, retries = 0)] *)
Definition rotorMessageHandler (_message : option string)
    (functionsFilter : option (string → bool)) (retries : Z) : M unit :=
  if negb (truthy _message) then ret tt
  else
    match _message with
    | Some raw => handle_message raw functionsFilter retries
    | None => ret tt
    end.
End Rotor.

(** What the callback of lines 161-204 returns for the reference [f]: a
    step under the id and with the options of [f], with the empty context,
    and with the [exec] closure of lines 188-201 over a definition that
    has a code and over a compiled UDF that has the hash of this code. *)
Definition built_from `{Externals} (f : FunctionRef) (step : FuncStep)
  : Prop :=
  step_id step = functionId f
  ∧ step_config step = functionOptions f
  ∧ step_context step = ∅
  ∧ ∃ cell initial userFunctionObj,
      prop userFunctionObj "code" ≠ JsUndefined
      ∧ hash_ initial = hash (prop userFunctionObj "code")
      ∧ exec step
        = udf_exec cell initial (substring_from 4 (functionId f))
            userFunctionObj (prop userFunctionObj "code")
            (hash (prop userFunctionObj "code")).

(** The events of a lookup of a function definition: reads and writes of
    the functions cache and fetches from the config store. *)
Definition is_functions_lookup (ev : Event) : Prop :=
  match ev with
  | EvCacheGet FunctionsCache _ | EvCacheSet FunctionsCache _
  | EvCacheDel FunctionsCache _ | EvGetConfig _ _ => True
  | _ => False
  end.

(** What a lookup of a function definition does to the world: it leaves
    the UDF cache, the UDF compiler and the captured variables alone. *)
Definition lookup_only (w w' : World) : Prop :=
  udfCache_data w' = udfCache_data w
  ∧ nextWrapper w' = nextWrapper w
  ∧ cells w' = cells w
  ∧ ∃ evs, trace w' = trace w ++ evs ∧ Forall is_functions_lookup evs.


(** ** A reference executor and an environment to run examples in *)

(** Modelled from the spec: the chain executor [runChain] and [checkError]
    of lib/functions-chain, which the handler imports and the sources do not
    include (spec 4.6 and 7).  The current event set starts as the input
    event; each step is applied to each event of the set, a result being one
    event, an array of events (fan-out, in order) or the "drop" sentinel; an
    error of [exec] is recorded in the execution log, never raised, and does
    not cancel the other events; once the set is empty no further step runs.
    A step sees the event context, the store binding and its own context.
    [checkError] raises when the log holds a retryable error. *)
Definition fullContext (step : FuncStep) (store : Store)
    (eventContext : Context) : Context :=
  step_context step ∪ <["store" := CfHandle (store_hash store)]> eventContext.

Definition outputs (result : JsVal) : list JsVal :=
  match result with
  | JsStr "drop" => []
  | JsArr items => items
  | _ => [result]
  end.

Definition retryable (e : Exn) : bool := truthy (prop (exn_data e) "retryable").

Definition log_entry (id outcome : string) (e : option Exn) : JsVal :=
  JsObj [("id", JsStr id); ("outcome", JsStr outcome);
         ("error", match e with
                   | Some e => JsStr (default "" (exn_message e))
                   | None => JsUndefined
                   end);
         ("retryable", JsBool (match e with
                               | Some e => retryable e
                               | None => false
                               end))].

Fixpoint exec_each (step : FuncStep) (ctx : Context) (current : list JsVal)
  : M (list JsVal * list JsVal) :=
  match current with
  | [] => ret ([], [])
  | event :: rest => λ w,
      let '(completion, w1) := exec step event ctx w in
      let '(out, entry) :=
        match completion with
        | Normal result =>
            (outputs result,
             log_entry (step_id step)
               (match outputs result with [] => "drop" | _ => "ok" end) None)
        | Thrown e => ([], log_entry (step_id step) "error" (Some e))
        end in
      match exec_each step ctx rest w1 with
      | (Normal (outs, entries), w2) =>
          (Normal (out ++ outs, entry :: entries), w2)
      | (Thrown e, w2) => (Thrown e, w2)
      end
  end.

Fixpoint runChain_spec (chain : list FuncStep) (current : list JsVal)
    (store : Store) (eventContext : Context) : M FuncChainResult :=
  match chain, current with
  | [], _ => ret {| events := current; execLog := [] |}
  | _, [] => ret {| events := []; execLog := [] |}
  | step :: rest, _ =>
      let! done := exec_each step (fullContext step store eventContext)
                     current in
      let! res := runChain_spec rest (fst done) store eventContext in
      ret {| events := events res; execLog := snd done ++ execLog res |}
  end.

Definition checkError_spec (chainRes : FuncChainResult) : option Exn :=
  match List.find (λ entry, truthy (prop entry "retryable"))
          (execLog chainRes) with
  | Some entry =>
      Some {| exn_message := match prop entry "error" with
                             | JsStr m => Some m
                             | _ => None
                             end;
              exn_data := JsObj [("retryable", JsBool true)] |}
  | None => None
  end.

(** An environment for the examples.  The decoder knows three messages, one
    per connection; the registry has the bulker and webhook destinations and
    one transformation; user code is told apart by its source text, the
    isolate of the first wrapper ever compiled is torn down once the clock
    has passed 100 seconds, and the event loop resumes the callbacks in
    turn. *)
Definition demo_message (connectionId : string) : IngestMessage := {|
  msg_connectionId := connectionId;
  msg_messageId := "m1";
  msg_type := "track";
  msg_httpPayload := JsObj [("messageId", JsStr "m1"); ("type", JsStr "track")];
  msg_httpHeaders := JsObj [];
  msg_geo := JsUndefined;
  msg_origin_domain := JsUndefined |}.

Definition demo_parse (raw : string) : Exn + IngestMessage :=
  if String.eqb raw "{c1}" then inr (demo_message "c1")
  else if String.eqb raw "{c2}" then inr (demo_message "c2")
  else if String.eqb raw "{c3}" then inr (demo_message "c3")
  else inl {| exn_message := Some "Unexpected token"; exn_data := JsUndefined |}.

Definition demo_builtin (id : string) : option JitsuFunction :=
  if String.eqb id "builtin.destination.bulker" then Some (λ event _, ret event)
  else if String.eqb id "builtin.destination.webhook"
       then Some (λ event _, ret event)
  else if String.eqb id "builtin.transformation.addTimestamp"
       then Some (λ event _,
              ret (match event with
                   | JsObj fields => JsObj (fields ++ [("timestamp", JsNum 0)])
                   | _ => event
                   end))
  else None.

Definition demo_hash (code : JsVal) : string :=
  match code with JsStr s => "sha:" +:+ s | _ => "sha:?" end.

Definition compiled_from (handle : nat) (w : World) : JsVal :=
  match List.find (λ e, match e with
                        | EvUDFWrapper h _ _ _ => Nat.eqb h handle
                        | _ => false
                        end) (trace w) with
  | Some (EvUDFWrapper _ _ _ code) => code
  | _ => JsUndefined
  end.

Definition demo_userFunction (handle : nat) (event : JsVal) (ctx : Context)
    (w : World) : Exn + JsVal :=
  if Nat.eqb handle 0 && (100000 <? now w) then
    inl {| exn_message := Some "Isolate is disposed"; exn_data := JsUndefined |}
  else
    match compiled_from handle w with
    | JsStr "throw" => inl (newError "boom")
    | JsStr "fan-out" => inr (JsArr [event; event])
    | _ => inr event
    end.

(** The suspended callbacks are resumed in turn, as the jobs of promises
    that settle in the order in which they were made. *)
Definition demo_eventLoop : list nat := concat (replicate 4 (seq 0 8)).

Definition demo : Externals := {|
  BULKER_URL := "http://bulker:3042";
  BULKER_AUTH_KEY := "secret";
  JSON_parse := demo_parse;
  getBuiltinFunction := demo_builtin;
  hash := demo_hash;
  userFunction := demo_userFunction;
  mongoAnonymousEventsStore := "mongo:anonymous-events";
  runChain := λ chain event _ _ store ctx, runChain_spec chain [event] store ctx;
  checkError := checkError_spec;
  eventLoop := λ _, demo_eventLoop |}.

Definition demo_connection (id : string) (usesBulker : bool) (type : string)
    (declared : option (list FunctionRef)) : Connection := {|
  conn_id := id;
  conn_workspaceId := "W1";
  conn_streamId := "s1";
  conn_destinationId := "d1";
  conn_type := type;
  conn_updatedAt := JsStr "2023-06-01";
  conn_credentialsHash := JsStr "cafe";
  conn_mode := JsStr "stream";
  conn_options := {| functions := declared; dataLayout := JsUndefined |};
  conn_usesBulker := usesBulker;
  conn_credentials := JsObj [("url", JsStr "https://example.com/hook")] |}.

Definition demo_function (workspaceId code : string) : JsVal :=
  JsObj [("workspaceId", JsStr workspaceId); ("name", JsStr "fn");
         ("code", JsStr code)].

(** A world to run examples in: empty caches, the clock at 0, and the given
    contents of the config store. *)
Definition initial_world (connections : gmap string Connection)
    (functionDefs : gmap string JsVal) : World :=
  mkWorld 0 ∅ ∅ ∅ 0 ∅ 0 connections functionDefs [].

(** Someone saves a function definition in the config store. *)
Definition publish_function (key : string) (def : JsVal) (w : World) : World :=
  mkWorld (now w) (connectionsCache_data w) (functionsCache_data w)
          (udfCache_data w) (nextWrapper w) (cells w) (nextCell w)
          (store_connections w) (<[key := def]> (store_functions w)) (trace w).

(** The main function of a bulker connection in this environment. *)
Definition demo_bulker (connectionId : string) : FunctionRef := {|
  functionId := "builtin.destination.bulker";
  functionOptions := JsObj
    [("bulkerEndpoint", JsStr "http://bulker:3042");
     ("destinationId", JsStr connectionId);
     ("authToken", JsStr "secret");
     ("dataLayout", JsStr "segment-single-table")] |}.

(** A connection that interleaves a destination, a reference of unknown
    type, a UDF and a transformation, and a world that has it. *)
Definition demo_interleaved : Connection :=
  demo_connection "c1" true "postgres"
    (Some [mkFunctionRef "builtin.destination.webhook" JsUndefined;
           mkFunctionRef "foo.bar" JsUndefined;
           mkFunctionRef "udf.f1" JsUndefined;
           mkFunctionRef "builtin.transformation.addTimestamp" JsUndefined]).

Definition demo_world : World :=
  initial_world {[ "c1" := demo_interleaved ]}
    {[ "f1" := demo_function "W1" "return event" ]}.

(** What happens to wrappers in a trace. *)
Inductive WrapperEvent := Compiled (h : nat) | Invoked (h : nat) | Closed (h : nat).

Definition wrapper_events (evs : list Event) : list WrapperEvent :=
  omap (λ ev, match ev with
              | EvUDFWrapper h _ _ _ => Some (Compiled h)
              | EvUserFunction h _ _ => Some (Invoked h)
              | EvClose h => Some (Closed h)
              | _ => None
              end) evs.

(** The world after a first message of connection c1. *)
Definition demo_world_after : World :=
  snd (@rotorMessageHandler demo (Some "{c1}") None 0 demo_world).

(** A connection whose only function is of another workspace, and a
    connection whose destination type the registry does not know. *)
Definition demo_foreign : Connection :=
  demo_connection "c3" true "postgres"
    (Some [mkFunctionRef "udf.f9" JsUndefined]).
Definition demo_unknown_type : Connection :=
  demo_connection "c2" false "nosuch" None.

Definition demo_world_2 : World :=
  initial_world {[ "c2" := demo_unknown_type; "c3" := demo_foreign ]}
    {[ "f9" := demo_function "W2" "return event" ]}.

(** ** More of the handler's file *)

(** Every wrapper that the UDF cache or a captured variable holds was handed
    out by the UDF compiler. *)
Definition wrappers_allocated (w : World) : Prop :=
  (∀ key e, udfCache_data w !! key = Some e →
            (wrapper (entry_v e) < nextWrapper w)%nat)
  ∧ (∀ cell cached, cells w !! cell = Some cached →
                    (wrapper cached < nextWrapper w)%nat).

(** [Array.isArray(content) ? content : [content]] (lines 269 and 285) *)
Definition events_of (content : JsVal) : list JsVal :=
  match content with
  | JsArr items => items
  | _ => [content]
  end.

Section Replay.
Context `{Externals} (JSON_stringify : JsVal → string).

(** The loops of the local mode of [main] (lines 271-280 and 286-295): each
    event is handed to the handler, and what the handler throws is logged
    and dropped. *)
Fixpoint replay (events : list JsVal) : M unit :=
  match events with
  | [] => ret tt
  | event :: rest =>
      run! try_catch
             (rotorMessageHandler (Some (JSON_stringify event)) None 0)
             (λ _, ret tt) in
      replay rest
  end.
End Replay.

(** *** The store of a connection (lines 109-120) *)

(** Modelled from the spec: the shared key-value store behind [redis()], a
    map from hash names to hashes of string fields with [hget], [hset] and
    [hdel] (spec 4.3 and 6). *)
Abbreviation Redis := (gmap string (gmap string string)).

Definition hget (hash field : string) (r : Redis) : option string :=
  r !! hash ≫= (λ fields, fields !! field).
Definition hset (hash field value : string) (r : Redis) : Redis :=
  <[hash := <[field := value]> (default ∅ (r !! hash))]> r.
Definition hdel (hash field : string) (r : Redis) : Redis :=
  match r !! hash with
  | Some fields => <[hash := delete field fields]> r
  | None => r
  end.

Section Store.
Context (JSON_parse_value : string → Exn + JsVal)
        (JSON_stringify : JsVal → string).

(** [store.get]: [res ? JSON.parse(res) : undefined] *)
Definition store_get (connection : Connection) (key : string) (r : Redis)
  : Completion JsVal :=
  match hget ("store:" +:+ conn_id connection) key r with
  | Some res =>
      if truthy res then
        match JSON_parse_value res with
        | inl e => Thrown e
        | inr value => Normal value
        end
      else Normal JsUndefined
  | None => Normal JsUndefined
  end.

(** [store.set] *)
Definition store_set (connection : Connection) (key : string) (obj : JsVal)
    (r : Redis) : Redis :=
  hset ("store:" +:+ conn_id connection) key (JSON_stringify obj) r.

(** [store.del] *)
Definition store_del (connection : Connection) (key : string) (r : Redis)
  : Redis :=
  hdel ("store:" +:+ conn_id connection) key r.
End Store.

(** ** libs/jitsu-js/src/index.ts: [parse] *)

Section Parse.
(** The builtins take the value they are given, whatever its type, and read
    it as text themselves.  [decodeURIComponent] throws on malformed escapes;
    [JSON.parse] throws ([None]) on what is not JSON, as on [undefined];
    [parseFloat] yields a number or NaN ([None]). *)
Context (decodeURIComponent : JsVal → Exn + string)
        (JSON_parse : JsVal → option JsVal)
        (parseFloat : JsVal → option Z).

(** [input?.indexOf("%7B%22") === 0] (line 8).  [?.] stops at [undefined] and
    [null] only.  A string has its [indexOf], which is 0 when the string
    starts with the text; an array has its own, which is 0 when its first
    item is that very string.  A boolean, a number or an object of data has
    no [indexOf] to call: a TypeError. *)
Definition indexOf_is_0 (input : JsVal) : Completion bool :=
  match input with
  | JsUndefined | JsNull => Normal false
  | JsStr s => Normal (startsWith s "%7B%22")
  | JsArr (JsStr first :: _) => Normal (String.eqb first "%7B%22")
  | JsArr _ => Normal false
  | JsBool _ | JsNum _ | JsObj _ =>
      Thrown (TypeError "input.indexOf is not a function")
  end.

(** [typeof value === "object"] *)
Definition typeof_object (value : JsVal) : bool :=
  match value with
  | JsNull | JsArr _ | JsObj _ => true
  | _ => false
  end.

(** [parseFloat(value) === value] *)
Definition is_own_float (value : JsVal) : bool :=
  match parseFloat value, value with
  | Some n, JsNum m => n =? m
  | _, _ => false
  end.

(** The end of [parse] (lines 19-22): [null] and the empty string become
    [undefined]. *)
Definition parse_tail (value : JsVal) : JsVal :=
  match value with
  | JsNull | JsStr "" => JsUndefined
  | _ => value
  end.

Definition is_string (value : JsVal) (s : string) : bool :=
  match value with JsStr s' => String.eqb s' s | _ => false end.

(** What [parse] does once [value] is settled (lines 11-22): [value] is the
    input or its decoded form.  When [JSON.parse] throws, the [catch] leaves
    [value] as it was. *)
Definition parse_value (value : JsVal) : JsVal :=
  match JSON_parse value with
  | Some parsed =>
      if is_string parsed "true" then JsBool true
      else if is_string parsed "false" then JsBool false
      else if typeof_object parsed then parsed
      else
        let parsed :=
          if is_own_float parsed
          then match parseFloat parsed with
               | Some n => JsNum n
               | None => parsed
               end
          else parsed in
        parse_tail parsed
  | None => parse_tail value
  end.

(** [parse(input)] (lines 6-24); the test of line 8 and the decoding of line 9
    are outside the [try]. *)
Definition parse (input : JsVal) : Completion JsVal :=
  match indexOf_is_0 input with
  | Thrown e => Thrown e
  | Normal true =>
      match decodeURIComponent input with
      | inl e => Thrown e
      | inr decoded => Normal (parse_value (JsStr decoded))
      end
  | Normal false => Normal (parse_value input)
  end.
End Parse.

(** ** webapps/console/pages/admin/overage-billing.tsx *)

(** A row of the overage report, as the sort of line 58 reads it: the time of
    [new Date(month)] in milliseconds, for a month that is a valid date, and
    the overage events, a whole number. *)
Record OverageRow := { month : Z; overageEvents : Z }.

(** The comparator of the rows (lines 58-63) *)
Definition compareRows (a b : OverageRow) : Z :=
  let dateCompare := - month a + month b in
  if dateCompare =? 0 then - overageEvents a + overageEvents b
  else dateCompare.

Record Workspace := {
  ws_id : string;
  ws_name : option string;
  ws_slug : option string }.

(** [workspaces.reduce((acc, w) => ({...acc, [w.id]: w}), {})] (lines 41-47) *)
Definition workspacesMap (workspaces : list Workspace)
  : gmap string Workspace :=
  foldl (λ acc w, <[ws_id w := w]> acc) ∅ workspaces.

(** Someone saves a connection in the config store. *)
Definition publish_connection (key : string) (connection : Connection)
    (w : World) : World :=
  mkWorld (now w) (connectionsCache_data w) (functionsCache_data w)
          (udfCache_data w) (nextWrapper w) (cells w) (nextCell w)
          (<[key := connection]> (store_connections w)) (store_functions w)
          (trace w).

(** No condition on two worlds. *)
Definition anything (_ _ : World) : Prop := True.

(** What a task does however it is resumed: between two of its segments
    the world may change as [Rely] allows, starting from the world [w0] in
    which its last segment ended; each segment changes the world as [G]
    says; and the task ends as [Q] says. *)
Fixpoint task_spec {A} (Rely G : World → World → Prop)
    (Q : Completion A → World → Prop) (t : Task A) (w0 : World) : Prop :=
  match t with
  | Settled c => Q c w0
  | Suspended resume =>
      ∀ w, Rely w0 w →
           let '(t', w') := resume w in G w w' ∧ task_spec Rely G Q t' w'
  end.

(** The same of a call of an async function in the world [w]. *)
Definition async_spec {A} (Rely G : World → World → Prop)
    (Q : Completion A → World → Prop) (p : Async A) (w : World) : Prop :=
  let '(t, w') := p w in G w w' ∧ task_spec Rely G Q t w'.

(** The rejection that [Promise.all] has seen is that of a task of the
    list, and it has seen one if there is one. *)
Definition first_came {A} (first : option Exn) (tasks : list (Task A))
  : Prop :=
  match first with
  | Some e => Settled (Thrown e) ∈ tasks
  | None => ∀ e, Settled (Thrown e) ∉ tasks
  end.

Definition fulfilled {A} (c : Completion A) : Prop := ∃ a, c = Normal a.

(** Hoare triples over [M]: from a world in [P], [m] ends in [Q] when it
    returns and in [E] when it throws. *)
Definition triple {A} (P : World → Prop) (m : M A) (Q : A → World → Prop)
    (E : World → Prop) : Prop :=
  ∀ w, P w →
       match m w with
       | (Normal a, w') => Q a w'
       | (Thrown _, w') => E w'
       end.

(** The wrappers are allocated and the compiler has handed out exactly, or
    at least, [n] wrappers. *)
Definition allocated_at (n : nat) (w : World) : Prop :=
  wrappers_allocated w ∧ nextWrapper w = n.
Definition allocated_from (n : nat) (w : World) : Prop :=
  wrappers_allocated w ∧ (n ≤ nextWrapper w)%nat.

(** What a callback of the UDF references relies on between two of its
    segments, from the world [w0] in which the last one ended, and what
    each of its segments guarantees. *)
Definition allocated_since (w0 w : World) : Prop :=
  wrappers_allocated w ∧ (nextWrapper w0 ≤ nextWrapper w)%nat.
Definition keeps_allocated (w w' : World) : Prop :=
  (wrappers_allocated w → wrappers_allocated w')
  ∧ (nextWrapper w ≤ nextWrapper w')%nat.

(** The wrappers that a callback holds across an [await]. *)
Definition held (c : Completion CachedUdf) (w : World) : Prop :=
  wrappers_allocated w
  ∧ ∀ cached, c = Normal cached → (wrapper cached < nextWrapper w)%nat.

(** * Properties *)

#[global] Instance connectionsCache_laws : CacheLaws connectionsCache.
Proof. by split. Qed.
#[global] Instance functionsCache_laws : CacheLaws functionsCache.
Proof. by split. Qed.
#[global] Instance udfCache_laws : CacheLaws udfCache.
Proof. by split. Qed.

Lemma nullish_falsy (x : JsVal) : nullish x = true → truthy x = false.
Proof. by destruct x. Qed.

(** ** getCachedOrLoad *)

Section GetCachedOrLoad.
Context {V : Type} `{Truthy V} (cache : NodeCache V) `{!CacheLaws cache}.

Lemma NodeCache_get_returns key w :
  ∃ cached, fst (NodeCache_get cache key w) = Normal cached.
Proof.
  unfold NodeCache_get.
  destruct (data cache _ !! key) as [e|]; [|by eexists].
  destruct (NodeCache_check cache key e _) as [live w']. by eexists.
Qed.

Lemma getCachedOrLoad_not_served key loader w :
  serves cache key w = false →
  getCachedOrLoad cache key loader w
  = load_and_store cache key loader (snd (NodeCache_get cache key w)).
Proof.
  unfold serves, getCachedOrLoad, bind.
  destruct (NodeCache_get_returns key w) as [cached Hget].
  destruct (NodeCache_get cache key w) as [c w1]; simpl in *. subst c.
  destruct cached as [value|]; simpl; [|done].
  intros Hfalsy. change (truthy value = false) in Hfalsy. by rewrite Hfalsy.
Qed.

Lemma NodeCache_get_live key w e :
  data cache w !! key = Some e →
  expired e w = false →
  NodeCache_get cache key w
  = (Normal (Some (entry_v e)), log_event (EvCacheGet (cache_id cache) key) w).
Proof.
  intros Hkey Hlive. unfold NodeCache_get, NodeCache_check.
  rewrite data_log_event, Hkey.
  by replace (expired e (log_event _ w)) with false.
Qed.

Lemma getCachedOrLoad_served key loader w e :
  data cache w !! key = Some e →
  expired e w = false →
  truthy (entry_v e) = true →
  getCachedOrLoad cache key loader w
  = (Normal (entry_v e), log_event (EvCacheGet (cache_id cache) key) w).
Proof.
  intros Hkey Hlive Htruthy. unfold getCachedOrLoad, bind.
  rewrite (NodeCache_get_live _ _ _ Hkey Hlive). by rewrite Htruthy.
Qed.

Lemma load_and_store_entry key loader w loaded w' :
  loader key w = (Normal loaded, w') →
  load_and_store cache key loader w
  = (Normal loaded, snd (NodeCache_set cache key loaded w'))
  ∧ data cache (snd (NodeCache_set cache key loaded w')) !! key
    = Some (NodeCache_wrap loaded (stdTTL cache) w')
  ∧ now (snd (NodeCache_set cache key loaded w')) = now w'.
Proof.
  intros Hload. unfold load_and_store, bind. rewrite Hload. simpl.
  split; [done|]. split.
  - by rewrite data_log_event, data_set_data, lookup_insert_eq.
  - by rewrite now_set_data.
Qed.

Lemma wrap_live (value : V) w' w dt :
  now w = now w' + dt →
  stdTTL cache = 0 ∨ dt ≤ stdTTL cache * 1000 →
  expired (NodeCache_wrap value (stdTTL cache) w') w = false.
Proof.
  intros Hnow Hdt. unfold expired, NodeCache_wrap. simpl.
  destruct (stdTTL cache =? 0) eqn:Hz; [done|].
  apply Z.eqb_neq in Hz. destruct Hdt as [?|Hdt]; [done|].
  apply andb_false_iff. right. apply Z.ltb_ge. lia.
Qed.
End GetCachedOrLoad.

Section GetCachedOrLoadClaims.
Context {V : Type} `{Truthy V} (cache : NodeCache V) `{!CacheLaws cache}.

Lemma not_served_after_falsy key (value : V) w' w :
  data cache w !! key = Some (NodeCache_wrap value (stdTTL cache) w') →
  truthy value = false →
  serves cache key w = false.
Proof.
  intros Hkey Hfalsy. unfold serves, NodeCache_get.
  rewrite data_log_event, Hkey.
  destruct (NodeCache_check cache key _ _) as [[] w'']; simpl; [|done].
  exact Hfalsy.
Qed.

(** C8 (amended): when a lookup had to call the loader and the loader
    returned [loaded], a later lookup of the same key calls its loader
    again if [loaded] is falsy (nil, but also false, 0 or the empty
    string), whatever the time; if [loaded] is truthy, a lookup within the
    cache's TTL returns [loaded] after a mere cache read, without calling
    the loader. *)
Theorem getCachedOrLoad_serves_truthy_only
    key (loader loader' : string → M V) w loaded w' dt :
  serves cache key w = false →
  loader key (snd (NodeCache_get cache key w)) = (Normal loaded, w') →
  let w1 := snd (getCachedOrLoad cache key loader w) in
  let w2 := advance dt w1 in
  fst (getCachedOrLoad cache key loader w) = Normal loaded
  ∧ (truthy loaded = false →
     getCachedOrLoad cache key loader' w2
     = load_and_store cache key loader' (snd (NodeCache_get cache key w2)))
  ∧ (truthy loaded = true →
     stdTTL cache = 0 ∨ dt ≤ stdTTL cache * 1000 →
     getCachedOrLoad cache key loader' w2
     = (Normal loaded, log_event (EvCacheGet (cache_id cache) key) w2)).
Proof.
  intros Hmiss Hload w1 w2. subst w2 w1.
  rewrite (getCachedOrLoad_not_served cache _ _ _ Hmiss).
  destruct (load_and_store_entry cache _ _ _ _ _ Hload) as (-> & Hentry & Hnow).
  simpl fst. simpl snd. split; [done|].
  set (w1 := snd (NodeCache_set cache key loaded w')) in *.
  assert (Hkey : data cache (advance dt w1) !! key
                 = Some (NodeCache_wrap loaded (stdTTL cache) w'))
    by by rewrite data_advance.
  split.
  - intros Hfalsy. apply getCachedOrLoad_not_served.
    by eapply not_served_after_falsy.
  - intros Htruthy Hdt.
    rewrite (getCachedOrLoad_served cache _ _ _ _ Hkey); [done| |done].
    apply wrap_live with (dt := dt); [|done].
    change (now w1 + dt = now w' + dt). by rewrite Hnow.
Qed.
End GetCachedOrLoadClaims.

(** For the connections cache and the cache of compiled UDFs the loaded
    values are objects or [undefined]: there falsy and nil are the same. *)
Lemma falsy_connection_is_nil (loaded : option Connection) :
  truthy loaded = false ↔ loaded = None.
Proof. by destruct loaded. Qed.

Lemma compiled_udf_is_truthy (loaded : CachedUdf) : truthy loaded = true.
Proof. done. Qed.

(** C8, as stated, fails: the config store holds 0 under "f", a value that
    is not nil.  The first lookup loads and stores it; the second lookup, at
    the same instant, fetches it from the config store again. *)
Lemma getCachedOrLoad_reloads_zero :
  let w0 := initial_world ∅ {[ "f" := JsNum 0 ]} in
  let first := getCachedOrLoad functionsCache "f" (getConfig "function") w0 in
  let second :=
    getCachedOrLoad functionsCache "f" (getConfig "function") (snd first) in
  nullish (JsNum 0) = false
  ∧ fst first = Normal (JsNum 0)
  ∧ (entry_v <$> functionsCache_data (snd first) !! "f") = Some (JsNum 0)
  ∧ now (snd first) = now w0
  ∧ trace (snd second)
    = [EvCacheGet FunctionsCache "f"; EvGetConfig "function" "f";
       EvCacheSet FunctionsCache "f";
       EvCacheGet FunctionsCache "f"; EvGetConfig "function" "f";
       EvCacheSet FunctionsCache "f"].
Proof. vm_compute. by repeat split. Qed.

Lemma getCachedOrLoad_serves_truthy_only_witness :
  let w0 := initial_world ∅ {[ "f" := JsObj [("code", JsStr "return event")] ]} in
  let first := getCachedOrLoad functionsCache "f" (getConfig "function") w0 in
  let w2 := advance 20000 (snd first) in
  getCachedOrLoad functionsCache "f" (getConfig "function") w2
  = (Normal (JsObj [("code", JsStr "return event")]),
     log_event (EvCacheGet FunctionsCache "f") w2).
Proof.
  intros w0 first w2.
  refine (proj2 (proj2 (getCachedOrLoad_serves_truthy_only functionsCache
    "f" (getConfig "function") (getConfig "function") w0
    (JsObj [("code", JsStr "return event")])
    (log_event (EvGetConfig "function" "f")
       (log_event (EvCacheGet FunctionsCache "f") w0))
    20000 _ _)) _ _).
  - reflexivity.
  - reflexivity.
  - reflexivity.
  - right. simpl. lia.
Defined.

(** ** Strings *)

Lemma prefix_empty s : String.prefix "" s = true.
Proof. by destruct s. Qed.

Lemma prefix_app p1 p2 s :
  String.prefix (p1 +:+ p2) s = true → String.prefix p1 s = true.
Proof.
  revert s. induction p1 as [|a p1 IH]; intros s; [by rewrite prefix_empty|].
  destruct s as [|b s]; simpl; [done|].
  destruct (Ascii.ascii_dec a b); [apply IH|done].
Qed.

Lemma builtin_of_transformation s :
  startsWith s "builtin.transformation." = true → startsWith s "builtin." = true.
Proof. apply (prefix_app "builtin." "transformation."). Qed.

Lemma builtin_of_destination s :
  startsWith s "builtin.destination." = true → startsWith s "builtin." = true.
Proof. apply (prefix_app "builtin." "destination."). Qed.

(** ** Promise.all *)

Lemma all_fulfilled_length {A} (cs : list (Completion A)) l :
  all_fulfilled cs = Normal l → length l = length cs.
Proof.
  revert l. induction cs as [|[a|e] cs IH]; intros l; simpl.
  - by intros [= <-].
  - destruct (all_fulfilled cs) as [l'|]; [|done].
    intros [= <-]. simpl. by rewrite (IH l').
  - done.
Qed.

Lemma settle_all_length {A} (ps : list (M A)) w :
  length (fst (settle_all ps w)) = length ps.
Proof.
  revert w. induction ps as [|p ps IH]; intros w; simpl; [done|].
  destruct (p w) as [c w1]. specialize (IH w1).
  destruct (settle_all ps w1) as [cs w2]. simpl in *. by rewrite IH.
Qed.

(** ** Async functions and Promise.all *)

Lemma Task_induction {A} (P : Task A → Prop) :
  (∀ c, P (Settled c)) →
  (∀ resume, (∀ w, P (fst (resume w))) → P (Suspended resume)) →
  ∀ t, P t.
Proof.
  intros HS HP. fix IH 1. intros [c|resume]; [apply HS|].
  apply HP. intros w. destruct (resume w) as [t' w']. apply IH.
Qed.

(** *** A task that nothing interrupts *)

Lemma finish_awaited {A} (t : Task A) w : finish (awaited t) w = finish t w.
Proof.
  revert w. induction t as [c|resume IH] using Task_induction; intros w.
  - done.
  - simpl. specialize (IH w). destruct (resume w) as [t' w']. apply IH.
Qed.

Lemma uninterrupted_await {A} (p : Async A) w :
  uninterrupted (await p) w = uninterrupted p w.
Proof.
  unfold uninterrupted, await. destruct (p w) as [t w'].
  apply finish_awaited.
Qed.

Lemma uninterrupted_lift {A} (m : M A) w : uninterrupted (lift m) w = m w.
Proof. unfold uninterrupted, lift. by destruct (m w). Qed.

Lemma finish_then {A B} (t : Task A) (k : A → Async B) w :
  uninterrupted (then_ t k) w
  = bind (finish t) (λ a, uninterrupted (k a)) w.
Proof.
  revert w. induction t as [[a|e]|resume IH] using Task_induction; intros w.
  - done.
  - done.
  - unfold uninterrupted, bind in *. simpl. specialize (IH w).
    destruct (resume w) as [t' w']. apply IH.
Qed.

Lemma uninterrupted_abind {A B} (m : Async A) (k : A → Async B) w :
  uninterrupted (abind m k) w
  = bind (uninterrupted m) (λ a, uninterrupted (k a)) w.
Proof.
  pose proof (finish_then (fst (m w)) k (snd (m w))) as Hthen.
  unfold abind, uninterrupted, bind in *. by destruct (m w) as [t w'].
Qed.

Lemma bind_ext {A B} (m m' : M A) (k k' : A → M B) w :
  (∀ w', m w' = m' w') → (∀ a w', k a w' = k' a w') →
  bind m k w = bind m' k' w.
Proof.
  intros Hm Hk. unfold bind. rewrite Hm.
  destruct (m' w) as [[a|e] w']; [apply Hk|done].
Qed.

Ltac uninterrupted_step :=
  first
    [ rewrite uninterrupted_abind; apply bind_ext; intros
    | rewrite uninterrupted_await
    | rewrite uninterrupted_lift ].

Lemma load_and_store_uninterrupted {V} (cache : NodeCache V) key
    (loader : string → M V) w :
  uninterrupted (load_and_store_async cache key (λ k, lift (loader k))) w
  = load_and_store cache key loader w.
Proof.
  unfold load_and_store_async, load_and_store.
  repeat uninterrupted_step; reflexivity.
Qed.

Lemma getCachedOrLoad_uninterrupted {V} `{Truthy V} (cache : NodeCache V) key
    (loader : string → M V) w :
  uninterrupted (getCachedOrLoad_async cache key (λ k, lift (loader k))) w
  = getCachedOrLoad cache key loader w.
Proof.
  unfold getCachedOrLoad_async, getCachedOrLoad.
  uninterrupted_step; [by uninterrupted_step|].
  destruct a as [value|]; [destruct (truthy value)|];
    first [by uninterrupted_step|apply load_and_store_uninterrupted].
Qed.

Lemma bind_assoc {A B C} (m : M A) (k : A → M B) (k' : B → M C) w :
  bind (bind m k) k' w = bind m (λ a, bind (k a) k') w.
Proof. unfold bind. by destruct (m w) as [[a|e] w']. Qed.

Lemma bind_normal {A B} (m : M A) (k : A → M B) w a w' :
  m w = (Normal a, w') → bind m k w = k a w'.
Proof. intros Hm. unfold bind. by rewrite Hm. Qed.

Lemma object_hash_defined `{Externals} code w :
  code ≠ JsUndefined → object_hash code w = (Normal (hash code), w).
Proof. by destruct code. Qed.

Lemma resolveUdf_uninterrupted `{Externals} connection f w :
  uninterrupted (resolveUdf_async connection f) w = resolveUdf connection f w.
Proof.
  unfold resolveUdf_async, resolveUdf.
  uninterrupted_step.
  { uninterrupted_step. apply getCachedOrLoad_uninterrupted. }
  uninterrupted_step; [by uninterrupted_step|].
  rename a0 into userFunctionObj, w'0 into w1.
  destruct (strict_ne_string _ _); [by uninterrupted_step|].
  unfold acquire. rewrite bind_assoc, uninterrupted_abind.
  assert (Hcode : prop userFunctionObj "code" = JsUndefined
                  ∨ prop userFunctionObj "code" ≠ JsUndefined)
    by (destruct (prop userFunctionObj "code"); auto).
  destruct Hcode as [Hcode|Hcode].
  { unfold bind. rewrite uninterrupted_lift. by rewrite Hcode. }
  erewrite bind_normal
    by (rewrite uninterrupted_lift; by apply object_hash_defined).
  erewrite (bind_normal (object_hash _)) by by apply object_hash_defined.
  rewrite bind_assoc.
  uninterrupted_step.
  { uninterrupted_step.
    apply (getCachedOrLoad_uninterrupted udfCache _
             (λ key, let! compiled :=
                       UDFWrapper key (prop userFunctionObj "name")
                         (prop userFunctionObj "code") in
                     ret (mkCached compiled
                            (hash (prop userFunctionObj "code"))))). }
  rewrite bind_assoc.
  uninterrupted_step; [by uninterrupted_step|].
  rewrite bind_assoc.
  uninterrupted_step; [by uninterrupted_step|].
  rewrite uninterrupted_abind. unfold bind, ret. rewrite uninterrupted_lift.
  destruct (new_cell _) as [[cell|e] w5]; [|done].
  by rewrite uninterrupted_lift.
Qed.

(** *** What a task does however it is resumed *)

Section TaskSpec.
Context (Rely G : World → World → Prop).
Hypothesis G_refl : ∀ w, G w w.
Hypothesis G_trans : ∀ w1 w2 w3, G w1 w2 → G w2 w3 → G w1 w3.

Lemma task_spec_mono {A} (Rely' G' : World → World → Prop)
    (Q Q' : Completion A → World → Prop) t w0 :
  (∀ w w', Rely' w w' → Rely w w') →
  (∀ w w', G w w' → G' w w') →
  (∀ c w, Q c w → Q' c w) →
  task_spec Rely G Q t w0 → task_spec Rely' G' Q' t w0.
Proof.
  intros HR HG HQ. revert w0.
  induction t as [c|resume IH] using Task_induction; intros w0; simpl.
  - apply HQ.
  - intros Ht w Hw. specialize (Ht w (HR _ _ Hw)). specialize (IH w).
    destruct (resume w) as [t' w']. destruct Ht as [HG' Ht'].
    split; [by apply HG|]. by apply IH.
Qed.

Lemma async_spec_mono {A} (Rely' G' : World → World → Prop)
    (Q Q' : Completion A → World → Prop) p w :
  (∀ w w', Rely' w w' → Rely w w') →
  (∀ w w', G w w' → G' w w') →
  (∀ c w, Q c w → Q' c w) →
  async_spec Rely G Q p w → async_spec Rely' G' Q' p w.
Proof.
  unfold async_spec. intros HR HG HQ. destruct (p w) as [t w'].
  intros [HG' Ht]. split; [by apply HG|]. by eapply task_spec_mono.
Qed.

Lemma task_spec_invariant {A} (Inv : World → Prop)
    (Q : Completion A → World → Prop) t w0 :
  (∀ w0 w, Rely w0 w → Inv w) →
  (∀ w w', Inv w → G w w' → Inv w') →
  Inv w0 →
  task_spec Rely G Q t w0 → task_spec Rely G (λ c w, Inv w ∧ Q c w) t w0.
Proof.
  intros HR HG. revert w0.
  induction t as [c|resume IH] using Task_induction; intros w0 Hw0; simpl.
  - done.
  - intros Ht w Hw. specialize (Ht w Hw). specialize (IH w).
    destruct (resume w) as [t' w']. destruct Ht as [HG' Ht'].
    split; [done|]. apply IH; [|done]. eapply HG; [|done]. by eapply HR.
Qed.

Lemma async_spec_invariant {A} (Inv : World → Prop)
    (Q : Completion A → World → Prop) p w :
  (∀ w0 w, Rely w0 w → Inv w) →
  (∀ w w', Inv w → G w w' → Inv w') →
  Inv w →
  async_spec Rely G Q p w → async_spec Rely G (λ c w, Inv w ∧ Q c w) p w.
Proof.
  unfold async_spec. intros HR HG Hw. destruct (p w) as [t w'].
  intros [HG' Ht]. split; [done|].
  apply task_spec_invariant; [done..| |done]. by eapply HG.
Qed.

Lemma task_spec_then {A B} (QA : Completion A → World → Prop)
    (QB : Completion B → World → Prop) (t : Task A) (k : A → Async B)
    w_start w0 :
  G w_start w0 →
  task_spec Rely G QA t w0 →
  (∀ a w1, QA (Normal a) w1 → async_spec Rely G QB (k a) w1) →
  (∀ e w1, QA (Thrown e) w1 → QB (Thrown e) w1) →
  let '(t2, w2) := then_ t k w0 in
  G w_start w2 ∧ task_spec Rely G QB t2 w2.
Proof.
  intros Hstart Ht Hk He. revert w_start w0 Hstart Ht.
  induction t as [[a|e]|resume IH] using Task_induction;
    intros w_start w0 Hstart Ht; simpl in *.
  - specialize (Hk a w0 Ht). unfold async_spec in Hk.
    destruct (k a w0) as [t2 w2]. destruct Hk as [HG Ht2].
    split; [by eapply G_trans|done].
  - split; [done|]. simpl. by apply He.
  - split; [done|]. simpl. intros w Hw. specialize (Ht w Hw).
    specialize (IH w). destruct (resume w) as [t' w'].
    destruct Ht as [HG Ht']. by apply IH.
Qed.

Lemma async_spec_abind {A B} (QA : Completion A → World → Prop)
    (QB : Completion B → World → Prop) (p : Async A) (k : A → Async B) w :
  async_spec Rely G QA p w →
  (∀ a w1, QA (Normal a) w1 → async_spec Rely G QB (k a) w1) →
  (∀ e w1, QA (Thrown e) w1 → QB (Thrown e) w1) →
  async_spec Rely G QB (abind p k) w.
Proof.
  unfold async_spec at 1 3, abind. intros Hp Hk He.
  destruct (p w) as [t w']. destruct Hp as [HG Ht].
  by apply (task_spec_then QA QB).
Qed.

Lemma async_spec_lift {A} (Q : Completion A → World → Prop) (m : M A) w :
  G w (snd (m w)) → Q (fst (m w)) (snd (m w)) →
  async_spec Rely G Q (lift m) w.
Proof. unfold async_spec, lift. by destruct (m w) as [c w']. Qed.

Lemma async_spec_sync {A B} (Q : Completion B → World → Prop) (m : M A)
    (k : A → Async B) w :
  G w (snd (m w)) →
  match fst (m w) with
  | Normal a => async_spec Rely G Q (k a) (snd (m w))
  | Thrown e => Q (Thrown e) (snd (m w))
  end →
  async_spec Rely G Q (abind (lift m) k) w.
Proof.
  unfold async_spec, abind, lift.
  destruct (m w) as [[a|e] w']; simpl; [|done].
  intros HG Hk. destruct (k a w') as [t w2]. destruct Hk as [HG' Ht].
  split; [by eapply G_trans|done].
Qed.

Lemma async_spec_throw {A} (Q : Completion A → World → Prop) e w :
  Q (Thrown e) w → async_spec Rely G Q (lift (throw e)) w.
Proof. intros HQ. by apply async_spec_lift. Qed.

Lemma async_spec_ret {A} (Q : Completion A → World → Prop) a w :
  Q (Normal a) w → async_spec Rely G Q (lift (ret a)) w.
Proof. intros HQ. by apply async_spec_lift. Qed.

Lemma task_spec_awaited {A} (Q : Completion A → World → Prop) t w0 :
  (∀ c w w', Q c w → Rely w w' → Q c w') →
  task_spec Rely G Q t w0 → task_spec Rely G Q (awaited t) w0.
Proof.
  intros Hstable. revert w0.
  induction t as [c|resume IH] using Task_induction; intros w0; simpl.
  - intros HQ w Hw. split; [apply G_refl|]. simpl. by eapply Hstable.
  - intros Ht w Hw. specialize (Ht w Hw). specialize (IH w).
    destruct (resume w) as [t' w']. destruct Ht as [HG Ht'].
    split; [done|]. by apply IH.
Qed.

Lemma async_spec_await {A} (Q : Completion A → World → Prop) (p : Async A) w :
  (∀ c w w', Q c w → Rely w w' → Q c w') →
  async_spec Rely G Q p w → async_spec Rely G Q (await p) w.
Proof.
  unfold async_spec, await. intros Hstable Hp.
  destruct (p w) as [t w']. destruct Hp as [HG Ht].
  split; [done|]. by apply task_spec_awaited.
Qed.
End TaskSpec.

Lemma task_spec_anything {A} (t : Task A) w0 :
  task_spec anything anything (λ _ _, True) t w0.
Proof.
  revert w0. induction t as [c|resume IH] using Task_induction; intros w0.
  - done.
  - simpl. intros w _. specialize (IH w). destruct (resume w) as [t' w'].
    split; [done|]. apply IH.
Qed.

Lemma async_spec_anything {A} (p : Async A) w :
  async_spec anything anything (λ _ _, True) p w.
Proof.
  unfold async_spec. destruct (p w) as [t w']. split; [done|].
  apply task_spec_anything.
Qed.

(** *** The rejection that comes first *)

Lemma first_rejection_came {A} first (done : list (Task A)) t :
  first_came first done →
  first_came (first_rejection first t) (done ++ [t]).
Proof.
  unfold first_came, first_rejection.
  destruct first as [e|].
  - intros Hin. apply elem_of_app. by left.
  - intros Hnone. destruct t as [[a|e]|resume].
    + intros e [Hin|Hin%list_elem_of_singleton]%elem_of_app; [|done].
      by apply (Hnone e).
    + apply elem_of_app. right. by apply list_elem_of_singleton.
    + intros e [Hin|Hin%list_elem_of_singleton]%elem_of_app; [|done].
      by apply (Hnone e).
Qed.

Lemma start_all_first {A} (calls : list (Async A)) first done w :
  first_came first done →
  let '(ts, first', _) := start_all calls first w in
  first_came first' (done ++ ts).
Proof.
  revert first done w.
  induction calls as [|call calls IH]; intros first done w Hfirst; simpl.
  - by rewrite app_nil_r.
  - destruct (call w) as [t w1].
    specialize (IH (first_rejection first t) (done ++ [t]) w1
                  (first_rejection_came _ _ _ Hfirst)).
    destruct (start_all calls _ w1) as [[ts first'] w2].
    by rewrite <- app_assoc in IH.
Qed.

Lemma first_came_insert {A} first (tasks : list (Task A)) i resume t :
  tasks !! i = Some (Suspended resume) →
  first_came first tasks →
  first_came (first_rejection first t) (<[i := t]> tasks).
Proof.
  intros Hi. unfold first_came, first_rejection.
  assert (Hlt : (i < length tasks)%nat) by by eapply lookup_lt_Some.
  destruct first as [e|].
  - intros [j Hj]%list_elem_of_lookup. apply list_elem_of_lookup.
    exists j. rewrite list_lookup_insert_ne; [done|].
    intros ->. by rewrite Hi in Hj.
  - intros Hnone.
    assert (Hold : ∀ e j, j ≠ i →
              <[i := t]> tasks !! j ≠ Some (Settled (Thrown e))).
    { intros e j Hne. rewrite list_lookup_insert_ne by done.
      intros Hj. apply (Hnone e). apply list_elem_of_lookup. by exists j. }
    destruct t as [[a|e]|resume'].
    + intros e [j Hj]%list_elem_of_lookup.
      destruct (decide (j = i)) as [->|Hne]; [|by eapply Hold].
      by rewrite list_lookup_insert_eq in Hj.
    + apply list_elem_of_lookup. exists i.
      by rewrite list_lookup_insert_eq.
    + intros e [j Hj]%list_elem_of_lookup.
      destruct (decide (j = i)) as [->|Hne]; [|by eapply Hold].
      by rewrite list_lookup_insert_eq in Hj.
Qed.

Lemma resume_all_first {A} schedule (tasks : list (Task A)) first w :
  first_came first tasks →
  let '(tasks', first', _) := resume_all schedule tasks first w in
  first_came first' tasks' ∧ length tasks' = length tasks.
Proof.
  revert tasks first w.
  induction schedule as [|i schedule IH]; intros tasks first w Hfirst; simpl.
  - done.
  - destruct (tasks !! i) as [[c|resume]|] eqn:Hi; try by apply IH.
    destruct (resume w) as [t w1].
    specialize (IH (<[i := t]> tasks) (first_rejection first t) w1
                  (first_came_insert _ _ _ _ _ Hi Hfirst)).
    destruct (resume_all schedule _ _ w1) as [[tasks' first'] w2].
    by rewrite length_insert in IH.
Qed.

Lemma finish_all_first {A} (tasks : list (Task A)) first
    (done : list (Completion A)) w :
  match first with
  | Some e => Thrown e ∈ done ∨ Settled (Thrown e) ∈ tasks
  | None => Forall fulfilled done ∧ ∀ e, Settled (Thrown e) ∉ tasks
  end →
  let '(cs, first', _) := finish_all tasks first w in
  length cs = length tasks
  ∧ match first' with
    | Some e => Thrown e ∈ done ++ cs
    | None => Forall fulfilled (done ++ cs)
    end.
Proof.
  revert first done w.
  induction tasks as [|t tasks IH]; intros first done w Hfirst; simpl.
  - rewrite app_nil_r. split; [done|]. destruct first as [e|].
    + destruct Hfirst as [?|Hin]; [done|]. by apply elem_of_nil in Hin.
    + by destruct Hfirst.
  - destruct (finish t w) as [c w1] eqn:Hfinish.
    specialize (IH (first_rejection first (Settled c)) (done ++ [c]) w1).
    destruct (finish_all tasks _ w1) as [[cs first'] w2].
    rewrite <- app_assoc in IH. simpl in *.
    destruct IH as [Hlen Hcame]; [|by rewrite Hlen].
    destruct first as [e|]; simpl.
    + destruct Hfirst as [Hin|[Heq|Hin]%elem_of_cons].
      * left. apply elem_of_app. by left.
      * subst t. simpl in Hfinish. injection Hfinish as <- <-.
        left. apply elem_of_app. right. by apply list_elem_of_singleton.
      * by right.
    + destruct Hfirst as [Hdone Hnone]. destruct c as [a|e].
      * split.
        -- apply Forall_app. split; [done|]. repeat constructor. by exists a.
        -- intros e Hin. apply (Hnone e). by apply elem_of_cons; right.
      * left. apply elem_of_app. right. by apply list_elem_of_singleton.
Qed.

(** *** What the callbacks of a Promise.all do together *)

Section Scheduler.
Context (Rely G : World → World → Prop).
Hypothesis G_refl : ∀ w, G w w.
Hypothesis G_trans : ∀ w1 w2 w3, G w1 w2 → G w2 w3 → G w1 w3.
(** A segment of one task leaves the others what they rely on. *)
Hypothesis Rely_step : ∀ w0 w w', Rely w0 w → G w w' → Rely w0 w'.
Hypothesis Rely_after : ∀ w0 w w', Rely w0 w → G w w' → Rely w' w'.

Lemma tasks_step {A} (Qs : list (Completion A → World → Prop))
    (tasks : list (Task A)) w w' :
  G w w' →
  Forall2 (λ Q t, ∃ wi, task_spec Rely G Q t wi ∧ Rely wi w) Qs tasks →
  Forall2 (λ Q t, ∃ wi, task_spec Rely G Q t wi ∧ Rely wi w') Qs tasks.
Proof.
  intros HG Htasks. eapply Forall2_impl; [exact Htasks|].
  intros Q t (wi & Ht & Hwi). exists wi. split; [done|]. by eapply Rely_step.
Qed.

Lemma start_all_spec {A} (Qs : list (Completion A → World → Prop))
    (calls : list (Async A)) first w0 w :
  Rely w0 w →
  Forall2 (λ Q call, ∀ w1, Rely w0 w1 → async_spec Rely G Q call w1)
    Qs calls →
  let '(ts, _, w') := start_all calls first w in
  G w w' ∧ Rely w0 w'
  ∧ Forall2 (λ Q t, ∃ wi, task_spec Rely G Q t wi ∧ Rely wi w') Qs ts.
Proof.
  intros Hw Hcalls. revert first w Hw.
  induction Hcalls as [|Q call Qs calls Hcall _ IH]; intros first w Hw; simpl.
  - by repeat split.
  - specialize (Hcall w Hw). unfold async_spec in Hcall.
    destruct (call w) as [t w1]. destruct Hcall as [HG Ht].
    specialize (IH (first_rejection first t) w1 (Rely_step _ _ _ Hw HG)).
    destruct (start_all calls _ w1) as [[ts first'] w2].
    destruct IH as (HG' & Hw2 & Hts).
    split; [by eapply G_trans|]. split; [done|].
    constructor; [|done]. exists w1. split; [done|].
    eapply Rely_step; [|exact HG']. by eapply Rely_after.
Qed.

Lemma resume_all_spec {A} (Qs : list (Completion A → World → Prop)) schedule
    (tasks : list (Task A)) first w :
  Forall2 (λ Q t, ∃ wi, task_spec Rely G Q t wi ∧ Rely wi w) Qs tasks →
  let '(tasks', _, w') := resume_all schedule tasks first w in
  G w w'
  ∧ Forall2 (λ Q t, ∃ wi, task_spec Rely G Q t wi ∧ Rely wi w') Qs tasks'.
Proof.
  revert tasks first w.
  induction schedule as [|i schedule IH]; intros tasks first w Htasks; simpl.
  - done.
  - destruct (tasks !! i) as [[c|resume]|] eqn:Hi; try by apply IH.
    destruct (Forall2_lookup_r _ _ _ _ _ Htasks Hi)
      as (Q & HQ & wi & Ht & Hwi).
    simpl in Ht. specialize (Ht w Hwi).
    destruct (resume w) as [t w1]. destruct Ht as [HG Ht].
    specialize (IH (<[i := t]> tasks) (first_rejection first t) w1).
    destruct (resume_all schedule _ _ w1) as [[tasks' first'] w2].
    destruct IH as [HG' Htasks'].
    + rewrite <- (list_insert_id Qs i Q HQ).
      apply Forall2_insert; [by eapply tasks_step|].
      exists w1. split; [done|]. by eapply Rely_after.
    + split; [by eapply G_trans|done].
Qed.

Lemma finish_spec {A} (Q : Completion A → World → Prop) (t : Task A) wi w :
  task_spec Rely G Q t wi → Rely wi w →
  G w (snd (finish t w))
  ∧ ∃ wf, Q (fst (finish t w)) wf ∧ Rely wf (snd (finish t w)).
Proof.
  revert wi w. induction t as [c|resume IH] using Task_induction;
    intros wi w Ht Hw; simpl in *.
  - split; [done|]. by exists wi.
  - specialize (Ht w Hw). specialize (IH w).
    destruct (resume w) as [t' w1]. destruct Ht as [HG Ht]. simpl in IH.
    destruct (IH w1 w1 Ht (Rely_after _ _ _ Hw HG)) as (HG' & wf & HQ & Hwf).
    split; [by eapply G_trans|]. by exists wf.
Qed.

Lemma finish_all_spec {A} (Qs : list (Completion A → World → Prop))
    (tasks : list (Task A)) first w :
  Forall2 (λ Q t, ∃ wi, task_spec Rely G Q t wi ∧ Rely wi w) Qs tasks →
  let '(cs, _, w') := finish_all tasks first w in
  G w w' ∧ Forall2 (λ Q c, ∃ wf, Q c wf ∧ Rely wf w') Qs cs.
Proof.
  intros Htasks. revert first w Htasks.
  induction tasks as [|t tasks IH] in Qs |- *; intros first w Htasks;
    inversion Htasks as [|Q ? Qs' ? (wi & Ht & Hwi) Hrest]; subst; simpl.
  - by split.
  - destruct (finish_spec Q t wi w Ht Hwi) as (HG & wf & HQ & Hwf).
    destruct (finish t w) as [c w1]. simpl in *.
    specialize (IH Qs' (first_rejection first (Settled c)) w1
                  (tasks_step _ _ _ _ HG Hrest)).
    destruct (finish_all tasks _ w1) as [[cs first'] w2].
    destruct IH as [HG' Hcs]. split; [by eapply G_trans|].
    constructor; [|done]. exists wf. split; [done|]. by eapply Rely_step.
Qed.

(** From the tasks that [map] has started on. *)
Lemma started_spec {A} (Qs : list (Completion A → World → Prop)) schedule
    (tasks : list (Task A)) first w :
  Forall2 (λ Q t, ∃ wi, task_spec Rely G Q t wi ∧ Rely wi w) Qs tasks →
  let '(tasks', first', w1) := resume_all schedule tasks first w in
  let '(cs, _, w') := finish_all tasks' first' w1 in
  G w w' ∧ Forall2 (λ Q c, ∃ wf, Q c wf ∧ Rely wf w') Qs cs.
Proof.
  intros Htasks.
  pose proof (resume_all_spec Qs schedule tasks first w Htasks) as Hresume.
  destruct (resume_all schedule tasks first w) as [[tasks' first'] w1].
  destruct Hresume as [HG Htasks'].
  pose proof (finish_all_spec Qs tasks' first' w1 Htasks') as Hfinish.
  destruct (finish_all tasks' first' w1) as [[cs first''] w'].
  destruct Hfinish as [HG' Hcs]. split; [by eapply G_trans|done].
Qed.

Lemma settle_spec {A} (Qs : list (Completion A → World → Prop)) schedule
    (calls : list (Async A)) w :
  Rely w w →
  Forall2 (λ Q call, ∀ w1, Rely w w1 → async_spec Rely G Q call w1)
    Qs calls →
  let '(cs, _, w') := settle schedule calls w in
  G w w' ∧ Forall2 (λ Q c, ∃ wf, Q c wf ∧ Rely wf w') Qs cs.
Proof.
  intros Hw Hcalls. unfold settle.
  pose proof (start_all_spec Qs calls None w w Hw Hcalls) as Hstart.
  destruct (start_all calls None w) as [[tasks first] w1].
  destruct Hstart as (HG & _ & Htasks).
  pose proof (started_spec Qs schedule tasks first w1 Htasks) as Hrest.
  destruct (resume_all schedule tasks first w1) as [[tasks' first'] w2].
  destruct (finish_all tasks' first' w2) as [[cs first''] w'].
  destruct Hrest as [HG' Hcs]. split; [by eapply G_trans|done].
Qed.
End Scheduler.

Lemma start_all_length {A} (calls : list (Async A)) first w :
  length (fst (fst (start_all calls first w))) = length calls.
Proof.
  revert first w.
  induction calls as [|call calls IH]; intros first w; simpl; [done|].
  destruct (call w) as [t w1]. specialize (IH (first_rejection first t) w1).
  destruct (start_all calls _ w1) as [[ts first'] w2]. simpl in *.
  by rewrite IH.
Qed.

Lemma start_all_app {A} (ps qs : list (Async A)) first w :
  start_all (ps ++ qs) first w
  = (let '(ts1, first1, w1) := start_all ps first w in
     let '(ts2, first2, w2) := start_all qs first1 w1 in
     (ts1 ++ ts2, first2, w2)).
Proof.
  revert first w. induction ps as [|p ps IH]; intros first w; simpl.
  - by destruct (start_all qs first w) as [[ts2 first2] w2].
  - destruct (p w) as [t w1]. rewrite IH.
    destruct (start_all ps _ w1) as [[ts1 first1] w2].
    by destruct (start_all qs first1 w2) as [[ts2 first2] w3].
Qed.

(** What a callback ends with, however it is resumed once [map] has called
    it, is what [Promise.all] finds at its position. *)
Lemma settle_outcome_at {A} (Q : Completion A → Prop) schedule
    (before after : list (Async A)) call w cs first w' :
  async_spec anything anything (λ c _, Q c) call
    (snd (start_all before None w)) →
  settle schedule (before ++ call :: after) w = (cs, first, w') →
  ∃ c, cs !! length before = Some c ∧ Q c.
Proof.
  unfold settle. rewrite start_all_app.
  pose proof (start_all_length before None w) as Hlen.
  destruct (start_all before None w) as [[ts1 first1] w1]. simpl in *.
  unfold async_spec. destruct (call w1) as [t w2]. intros [_ Ht].
  destruct (start_all after _ w2) as [[ts2 first2] w3].
  set (Qs := map (λ _ : Task A, λ (_ : Completion A) (_ : World), True) ts1
             ++ (λ c (_ : World), Q c)
                :: map (λ _ : Task A, λ (_ : Completion A) (_ : World), True)
                     ts2).
  pose proof (started_spec anything anything
                ltac:(done) ltac:(done) ltac:(done) ltac:(done)
                Qs schedule (ts1 ++ t :: ts2) first2 w3) as Hspec.
  destruct (resume_all schedule _ first2 w3) as [[tasks' first'] w4].
  destruct (finish_all tasks' first' w4) as [[cs' first''] w5].
  intros [= -> -> ->]. destruct Hspec as [_ Hcs].
  - apply Forall2_app; [|constructor].
    + apply Forall2_fmap_l, Forall_Forall2_diag, Forall_forall.
      intros t' _. exists w3. split; [apply task_spec_anything|done].
    + exists w2. by split.
    + apply Forall2_fmap_l, Forall_Forall2_diag, Forall_forall.
      intros t' _. exists w3. split; [apply task_spec_anything|done].
  - assert (HQ : Qs !! length before = Some (λ c (_ : World), Q c)).
    { unfold Qs. rewrite lookup_app_r; rewrite length_map, Hlen; [|done].
      by rewrite Nat.sub_diag. }
    destruct (Forall2_lookup_l _ _ _ _ _ Hcs HQ) as (c & Hc & wf & HQc & _).
    by exists c.
Qed.

(** The rejection that [Promise.all] reports is the rejection of one of
    its callbacks, and there is one if a callback has rejected. *)
Lemma settle_first {A} schedule (calls : list (Async A)) w :
  let '(cs, first, _) := settle schedule calls w in
  length cs = length calls
  ∧ match first with
    | Some e => Thrown e ∈ cs
    | None => Forall fulfilled cs
    end.
Proof.
  unfold settle.
  pose proof (start_all_first calls None [] w) as Hstart.
  pose proof (start_all_length calls None w) as Hlen.
  destruct (start_all calls None w) as [[tasks first] w1]. simpl in *.
  specialize (Hstart ltac:(by intros e Hin%elem_of_nil)).
  pose proof (resume_all_first schedule tasks first w1 Hstart) as Hresume.
  destruct (resume_all schedule tasks first w1) as [[tasks' first'] w2].
  destruct Hresume as [Hfirst' Hlen'].
  pose proof (finish_all_first tasks' first' [] w2) as Hfinish.
  destruct (finish_all tasks' first' w2) as [[cs first''] w'].
  simpl in Hfinish. destruct Hfinish as [Hlen'' Hcame].
  - unfold first_came in Hfirst'. destruct first' as [e|]; [by right|].
    by split.
  - split; [congruence|done].
Qed.

Lemma all_fulfilled_Normal {A} (cs : list (Completion A)) l :
  all_fulfilled cs = Normal l ↔ cs = map Normal l.
Proof.
  revert l. induction cs as [|[a|e] cs IH]; intros l; simpl.
  - split; [by intros [= <-]|]. by destruct l.
  - split.
    + destruct (all_fulfilled cs) as [l'|]; [|done].
      intros [= <-]. simpl. f_equal. by apply IH.
    + destruct l as [|a' l]; [done|]. simpl. intros [= <- Hcs].
      apply IH in Hcs. by rewrite Hcs.
  - split; [done|]. by destruct l.
Qed.

Lemma all_fulfilled_fulfilled {A} (cs : list (Completion A)) :
  Forall fulfilled cs → ∃ l, all_fulfilled cs = Normal l.
Proof.
  induction 1 as [|c cs [a ->] _ [l IH]]; simpl; [by eexists|].
  rewrite IH. by eexists.
Qed.

(** What [Promise.all] returns, from how the callbacks have settled. *)
Lemma Promise_all_Normal {A} schedule (calls : list (Async A)) w l w' :
  Promise_all schedule calls w = (Normal l, w') →
  settle schedule calls w = (map Normal l, None, w')
  ∧ length l = length calls.
Proof.
  unfold Promise_all. pose proof (settle_first schedule calls w) as Hfirst.
  destruct (settle schedule calls w) as [[cs first] w1].
  destruct Hfirst as [Hlen Hfirst]. destruct first as [e|]; [done|].
  intros [= Hall <-]. apply all_fulfilled_Normal in Hall. subst cs.
  split; [done|]. by rewrite length_map in Hlen.
Qed.

Lemma Promise_all_Thrown {A} schedule (calls : list (Async A)) w e w' :
  Promise_all schedule calls w = (Thrown e, w') →
  ∃ cs first, settle schedule calls w = (cs, first, w') ∧ Thrown e ∈ cs.
Proof.
  unfold Promise_all. pose proof (settle_first schedule calls w) as Hfirst.
  destruct (settle schedule calls w) as [[cs first] w1].
  destruct Hfirst as [Hlen Hfirst]. destruct first as [e'|].
  - intros [= <- <-]. by exists cs, (Some e').
  - destruct (all_fulfilled_fulfilled cs Hfirst) as [l ->]. done.
Qed.

Lemma Promise_all_rejects {A} schedule (calls : list (Async A)) w cs first w' e :
  settle schedule calls w = (cs, first, w') →
  Thrown e ∈ cs →
  ∃ e', Promise_all schedule calls w = (Thrown e', w') ∧ Thrown e' ∈ cs.
Proof.
  unfold Promise_all. pose proof (settle_first schedule calls w) as Hfirst.
  intros Hsettle Hin. rewrite Hsettle in Hfirst |- *.
  destruct Hfirst as [Hlen Hfirst]. destruct first as [e'|].
  - by exists e'.
  - apply Forall_forall with (x := Thrown e) in Hfirst; [|done].
    by destruct Hfirst.
Qed.

Lemma Promise_all_length {A} schedule (calls : list (Async A)) w l w' :
  Promise_all schedule calls w = (Normal l, w') → length l = length calls.
Proof. by intros [_ ?]%Promise_all_Normal. Qed.

Lemma Promise_all_nil {A} schedule w :
  @Promise_all A schedule [] w = (Normal [], w).
Proof.
  unfold Promise_all, settle. simpl.
  assert (Hnil : ∀ first w0,
            @resume_all A schedule [] first w0 = ([], first, w0)).
  { induction schedule as [|i schedule IH]; intros first w0; simpl; [done|].
    apply IH. }
  by rewrite Hnil.
Qed.

(** What every callback ends with, however the callbacks are resumed,
    holds of the values that [Promise.all] returns. *)
Lemma Promise_all_always {X A} (P : X → A → Prop) (g : X → Async A) xs
    schedule w l w' :
  (∀ x w0, async_spec anything anything
             (λ c _, ∀ a, c = Normal a → P x a) (g x) w0) →
  Promise_all schedule (map g xs) w = (Normal l, w') →
  Forall2 P xs l.
Proof.
  intros Hg [Hsettle _]%Promise_all_Normal.
  pose proof (settle_spec anything anything
                ltac:(done) ltac:(done) ltac:(done) ltac:(done)
                (map (λ x c (_ : World), ∀ a, c = Normal a → P x a) xs)
                schedule (map g xs) w I) as Hspec.
  rewrite Hsettle in Hspec. destruct Hspec as [_ Hcs].
  - apply Forall2_fmap. apply Forall2_same_length_lookup_2; [done|].
    intros i x y Hx Hy. assert (x = y) as <- by congruence.
    intros w1 _. apply Hg.
  - apply Forall2_fmap in Hcs. eapply Forall2_impl; [exact Hcs|].
    intros x a (wf & HP & _). by apply HP.
Qed.

(** *** Callbacks without an await *)

Lemma start_all_lift {A} (ms : list (M A)) first w :
  start_all (map lift ms) first w
  = (map Settled (fst (settle_all ms w)),
     foldl (λ first c, first_rejection first (Settled c)) first
       (fst (settle_all ms w)),
     snd (settle_all ms w)).
Proof.
  revert first w. induction ms as [|m ms IH]; intros first w; simpl; [done|].
  unfold lift at 1. destruct (m w) as [c w1]. rewrite IH.
  by destruct (settle_all ms w1) as [cs w2].
Qed.

Lemma resume_all_settled {A} schedule (cs : list (Completion A)) first w :
  resume_all schedule (map Settled cs) first w = (map Settled cs, first, w).
Proof.
  induction schedule as [|i schedule IH]; simpl; [done|].
  rewrite list_lookup_fmap. by destruct (cs !! i).
Qed.

Lemma finish_all_settled {A} (cs : list (Completion A)) first w :
  finish_all (map Settled cs) first w
  = (cs, foldl (λ first c, first_rejection first (Settled c)) first cs, w).
Proof.
  revert first. induction cs as [|c cs IH]; intros first; simpl; [done|].
  by rewrite IH.
Qed.

Lemma first_rejection_list_order {A} (cs : list (Completion A)) first :
  match foldl (λ first c, first_rejection first (Settled c)) first cs with
  | Some e => first = Some e ∨ (first = None ∧ all_fulfilled cs = Thrown e)
  | None => first = None
  end.
Proof.
  revert first. induction cs as [|c cs IH]; intros first; simpl.
  - destruct first; auto.
  - specialize (IH (first_rejection first (Settled c))).
    destruct (foldl _ _ cs) as [e|].
    + destruct first as [e0|]; simpl in *.
      * destruct IH as [?|[? _]]; [by left|done].
      * right. split; [done|]. destruct c as [a|e1]; simpl in *.
        -- destruct IH as [?|[_ ->]]; done.
        -- destruct IH as [[= ->]|[? _]]; done.
    + destruct first as [e0|]; [done|]. done.
Qed.

Lemma Promise_all_lift {A} schedule (ms : list (M A)) w :
  Promise_all schedule (map lift ms) w
  = (all_fulfilled (fst (settle_all ms w)), snd (settle_all ms w)).
Proof.
  unfold Promise_all, settle.
  rewrite start_all_lift, resume_all_settled, finish_all_settled.
  f_equal. set (cs := fst (settle_all ms w)).
  pose proof (first_rejection_list_order cs None) as Hinner.
  destruct (foldl _ None cs) as [e|] eqn:Hfold.
  - destruct Hinner as [?|[_ Hall]]; [done|].
    pose proof (first_rejection_list_order cs (Some e)) as Houter.
    destruct (foldl _ (Some e) cs) as [e'|]; [|done].
    destruct Houter as [[= ->]|[? _]]; done.
  - by rewrite Hfold.
Qed.

(** ** The handler *)

Section Handler.
Context `{Externals}.

(** C10: called with [undefined] or with the empty string, the handler
    returns normally and leaves the world as it was: nothing is decoded,
    no connection is looked up, no cache is read or written (every such
    step would add to the trace), and nothing is thrown. *)
Theorem rotorMessageHandler_no_message functionsFilter retries w :
  rotorMessageHandler None functionsFilter retries w = (Normal tt, w)
  ∧ rotorMessageHandler (Some "") functionsFilter retries w = (Normal tt, w).
Proof. by split. Qed.

Lemma mainFunction_pure message connection w :
  snd (mainFunction message connection w) = w.
Proof.
  unfold mainFunction. destruct (conn_usesBulker connection); [done|].
  by destruct (getBuiltinFunction _).
Qed.

Lemma mainFunction_is_destination message connection w main w' :
  mainFunction message connection w = (Normal main, w') →
  is_destination main = true
  ∧ is_transformation main = false
  ∧ is_udf main = false.
Proof.
  unfold mainFunction.
  destruct (conn_usesBulker connection); [by intros [= <- _]|].
  destruct (getBuiltinFunction _); [|done]. intros [= <- _].
  unfold is_destination, is_transformation, is_udf, startsWith. simpl.
  by rewrite prefix_empty.
Qed.

Lemma filter_passes_None (l : list FunctionRef) :
  List.filter (passes None) l = l.
Proof. induction l as [|f l IH]; simpl; [done|]. by rewrite IH. Qed.

(** C6: for a connection that uses bulker the main function is
    [builtin.destination.bulker] with the options [bulkerEndpoint]
    (BULKER_URL), [destinationId] (the connection id of the message),
    [authToken] (BULKER_AUTH_KEY) and [dataLayout] (the connection's
    [options.dataLayout] unless that is nullish, "segment-single-table"
    then), and it is the last element of the function list. *)
Theorem mainFunction_bulker message connection w :
  conn_usesBulker connection = true →
  let bulker := {|
    functionId := "builtin.destination.bulker";
    functionOptions := JsObj
      [("bulkerEndpoint", JsStr BULKER_URL);
       ("destinationId", JsStr (msg_connectionId message));
       ("authToken", JsStr BULKER_AUTH_KEY);
       ("dataLayout",
        if nullish (dataLayout (conn_options connection))
        then JsStr "segment-single-table"
        else dataLayout (conn_options connection))] |} in
  mainFunction message connection w = (Normal bulker, w)
  ∧ functions_of connection bulker None
    = default [] (functions (conn_options connection)) ++ [bulker].
Proof.
  intros Hbulker bulker. unfold mainFunction. rewrite Hbulker.
  split; [done|]. unfold functions_of. apply filter_passes_None.
Qed.

Lemma handle_message_after_lookup raw message connection functionsFilter
    retries w w1 :
  JSON_parse raw = inr message →
  getCachedOrLoad connectionsCache (msg_connectionId message)
    getEnrichedConnection (log_event (EvJsonParse raw) w)
  = (Normal (Some connection), w1) →
  handle_message raw functionsFilter retries w
  = (let! mainFunction := mainFunction message connection in
     let functions := functions_of connection mainFunction functionsFilter in
     let! udfFuncChain := udfFuncChain_of connection functions in
     let aggregated := aggregatedFunctions functions udfFuncChain in
     let store := {| store_hash := "store:" +:+ conn_id connection |} in
     let pipeline :=
       udfPipelineFunc udfFuncChain connection redisLogger store in
     let! funcChain := funcChain_of functionsFilter pipeline aggregated in
     let! chainRes :=
       run_chain funcChain (msg_httpPayload message) connection redisLogger
         store (eventContext message connection retries) in
     run! logMetrics (conn_workspaceId connection) (msg_messageId message)
            (execLog chainRes) in
     check_error chainRes) w1.
Proof.
  intros Hparse Hlookup. unfold handle_message at 1, bind at 1.
  unfold parse_message. rewrite Hparse.
  unfold bind at 1. rewrite Hlookup.
  by unfold bind at 1, requireDefined, ret.
Qed.

Lemma rotorMessageHandler_nonempty raw functionsFilter retries :
  raw ≠ "" →
  rotorMessageHandler (Some raw) functionsFilter retries
  = handle_message raw functionsFilter retries.
Proof. by destruct raw. Qed.

(** C9: for a connection that does not use bulker, when the registry has
    no [builtin.destination.<type>] the handler throws the error "Connection
    with id ... has no functions assigned to it's destination type" for
    the message, right after the connection lookup; when the registry has
    it, the main function is that builtin with the connection's
    credentials as options, it is the last element of the function list,
    and its step runs the registry's function with the credentials as
    [config]. *)
Theorem mainFunction_destination raw message connection functionsFilter
    retries w w1 :
  raw ≠ "" →
  JSON_parse raw = inr message →
  getCachedOrLoad connectionsCache (msg_connectionId message)
    getEnrichedConnection (log_event (EvJsonParse raw) w)
  = (Normal (Some connection), w1) →
  conn_usesBulker connection = false →
  let id := "builtin.destination." +:+ conn_type connection in
  let main :=
    {| functionId := id; functionOptions := conn_credentials connection |} in
  match getBuiltinFunction id with
  | None =>
      rotorMessageHandler (Some raw) functionsFilter retries w
      = (Thrown (newError
           ("Connection with id " +:+ conn_id connection +:+
            " has no functions assigned to it's destination type - " +:+
            conn_type connection)), w1)
  | Some builtin =>
      mainFunction message connection w1 = (Normal main, w1)
      ∧ functions_of connection main None
        = default [] (functions (conn_options connection)) ++ [main]
      ∧ ∀ pipeline w',
          toStep pipeline main w'
          = (Normal {| step_id := id;
                       step_config := conn_credentials connection;
                       exec := builtin;
                       step_context := systemContext |}, w')
  end.
Proof.
  intros Hraw Hparse Hlookup Hbulker id main.
  destruct (getBuiltinFunction id) as [builtin|] eqn:Hbuiltin.
  - split; [|split].
    + unfold mainFunction. rewrite Hbulker. fold id. by rewrite Hbuiltin.
    + unfold functions_of. apply filter_passes_None.
    + intros pipeline w'. unfold toStep.
      replace (startsWith (functionId main) "builtin.") with true by done.
      unfold bind. simpl. fold id. by rewrite Hbuiltin.
  - rewrite rotorMessageHandler_nonempty by done.
    rewrite (handle_message_after_lookup _ _ _ _ _ _ _ Hparse Hlookup).
    unfold bind at 1, mainFunction. rewrite Hbulker. fold id.
    by rewrite Hbuiltin.
Qed.

(** *** The aggregated list *)

Lemma existsb_filter_nil (P : FunctionRef → bool) l :
  existsb P l = negb (Nat.eqb (length (List.filter P l)) 0).
Proof.
  induction l as [|x l IH]; simpl; [done|]. by destruct (P x).
Qed.

Lemma functions_of_split connection main functionsFilter :
  functions_of connection main functionsFilter
  = List.filter (passes functionsFilter)
      (default [] (functions (conn_options connection)))
    ++ (if passes functionsFilter main then [main] else []).
Proof. unfold functions_of. by rewrite List.filter_app. Qed.

(** C1: the aggregated list the handler builds is, whatever the order of
    the declared list: the declared references (those that pass the
    functions filter, when there is one) whose id starts with
    "builtin.transformation.", in declared order; then the one synthetic
    [udf.PIPELINE] reference exactly when the resolved UDF chain is not
    empty, which is exactly when a [udf.] reference was declared; then the
    declared references whose id starts with "builtin.destination.", in
    declared order, followed by the main function.  Without a functions
    filter nothing is left out. *)
Theorem aggregatedFunctions_partition message connection functionsFilter
    main chain w0 w0' w w' :
  mainFunction message connection w0 = (Normal main, w0') →
  udfFuncChain_of connection
    (functions_of connection main functionsFilter) w = (Normal chain, w') →
  let declared :=
    List.filter (passes functionsFilter)
      (default [] (functions (conn_options connection))) in
  aggregatedFunctions (functions_of connection main functionsFilter) chain
  = List.filter is_transformation declared
    ++ (if existsb is_udf declared then [udfPipeline] else [])
    ++ List.filter is_destination declared
    ++ (if passes functionsFilter main then [main] else [])
  ∧ (chain ≠ [] ↔ existsb is_udf declared = true)
  ∧ (functionsFilter = None →
     declared = default [] (functions (conn_options connection))
     ∧ passes functionsFilter main = true).
Proof.
  intros Hmain Hchain declared.
  destruct (mainFunction_is_destination _ _ _ _ _ Hmain) as (HD & HT & HU).
  apply Promise_all_length in Hchain. rewrite length_map in Hchain.
  rewrite functions_of_split in Hchain |- *. fold declared in Hchain |- *.
  assert (Hlen : length chain = length (List.filter is_udf declared)).
  { rewrite Hchain, List.filter_app, length_app.
    destruct (passes functionsFilter main); simpl; rewrite ?HU; simpl; lia. }
  assert (Hpipe : (0 <? length chain)%nat = existsb is_udf declared).
  { rewrite existsb_filter_nil, Hlen.
    generalize (length (List.filter is_udf declared)). by intros []. }
  split; [|split].
  - unfold aggregatedFunctions. rewrite Hpipe, !List.filter_app.
    destruct (passes functionsFilter main); simpl;
      rewrite ?HT, ?HD, ?app_nil_r; done.
  - rewrite <- Hpipe. destruct chain; simpl; split; done.
  - intros ->. split; [apply filter_passes_None|done].
Qed.

(** *** Function ids of unknown type *)

Lemma aggregatedFunctions_known fs chain f :
  In f (aggregatedFunctions fs chain) →
  startsWith (functionId f) "builtin." = true
  ∨ functionId f = "udf.PIPELINE".
Proof.
  unfold aggregatedFunctions. rewrite !in_app_iff, !filter_In.
  intros [[_ HT]|[Hpipe|[_ HD]]].
  - left. by apply builtin_of_transformation.
  - right. destruct (0 <? length chain)%nat; [|done].
    by destruct Hpipe as [<-|[]].
  - left. by apply builtin_of_destination.
Qed.

Lemma toStep_of_known pipeline f w :
  startsWith (functionId f) "builtin." = true
  ∨ functionId f = "udf.PIPELINE" →
  fst (toStep pipeline f w)
  ≠ Thrown (newError ("Function of unknown type: " +:+ functionId f)).
Proof.
  unfold toStep. intros [Hbuiltin|Hpipe].
  - rewrite Hbuiltin. unfold bind.
    by destruct (getBuiltinFunction (functionId f)).
  - rewrite Hpipe. done.
Qed.

(** C4 fails on the code: a declared reference whose id starts with none
    of "builtin.transformation.", "builtin.destination." and "udf." changes
    neither the UDF references that are resolved nor the aggregated list,
    and no element of the aggregated list makes [toStep] throw "Function of
    unknown type": the reference is dropped without an error. *)
Theorem unknown_function_type_is_ignored before r after chain :
  is_transformation r = false →
  is_destination r = false →
  is_udf r = false →
  List.filter is_udf (before ++ r :: after)
  = List.filter is_udf (before ++ after)
  ∧ aggregatedFunctions (before ++ r :: after) chain
    = aggregatedFunctions (before ++ after) chain
  ∧ ∀ functionsFilter pipeline f w,
      In f (List.filter (passes functionsFilter)
              (aggregatedFunctions (before ++ r :: after) chain)) →
      fst (toStep pipeline f w)
      ≠ Thrown (newError ("Function of unknown type: " +:+ functionId f)).
Proof.
  intros HT HD HU.
  assert (Hdrop : ∀ P : FunctionRef → bool, P r = false →
            List.filter P (before ++ r :: after)
            = List.filter P (before ++ after)).
  { intros P HP. rewrite !List.filter_app. simpl. by rewrite HP. }
  split; [by apply Hdrop|]. split.
  - unfold aggregatedFunctions. by rewrite !Hdrop.
  - intros functionsFilter pipeline f w [Hin _]%filter_In.
    apply toStep_of_known. by eapply aggregatedFunctions_known.
Qed.

(** *** The reduced context of the UDF pipeline *)

Lemma lookup_pick (object : Context) paths k :
  pick object paths !! k
  = if decide (k ∈ paths) then object !! k else None.
Proof.
  induction paths as [|path paths IH]; simpl.
  - by rewrite lookup_empty.
  - destruct (decide (path = k)) as [->|Hne].
    + rewrite decide_True by apply list_elem_of_here.
      destruct (object !! k) as [value|] eqn:Hk.
      * by rewrite lookup_insert_eq.
      * rewrite IH. by destruct (decide (k ∈ paths)).
    + assert (Hrest : pick object paths !! k
                      = if decide (k ∈ path :: paths) then object !! k
                        else None).
      { rewrite IH. destruct (decide (k ∈ paths)) as [Hin|Hout].
        - rewrite decide_True; [done|]. by apply list_elem_of_further.
        - rewrite decide_False; [done|].
          intros [Heq|Hin]%elem_of_cons; [by subst|done]. }
      destruct (object !! path); [|done].
      by rewrite lookup_insert_ne.
Qed.

Lemma pick_ext (ctx1 ctx2 : Context) paths :
  (∀ k, k ∈ paths → ctx1 !! k = ctx2 !! k) →
  pick ctx1 paths = pick ctx2 paths.
Proof.
  intros Hagree. apply map_eq. intros k. rewrite !lookup_pick.
  destruct (decide (k ∈ paths)); [by apply Hagree|done].
Qed.

Lemma NodeCache_ttl_returns {V} (cache : NodeCache V) key ttl w :
  ∃ b, fst (NodeCache_ttl cache key ttl w) = Normal b.
Proof.
  unfold NodeCache_ttl. destruct (negb _); [by eexists|].
  destruct (data cache _ !! key) as [e|]; [|by eexists].
  destruct (NodeCache_check cache key e _) as [[] w1]; [|by eexists].
  destruct (0 <=? _); by eexists.
Qed.

(** *** The callbacks of the UDF references *)

(** However the callback of a reference is resumed, and whatever the other
    callbacks do in between, the step that it returns is built from the
    reference. *)
Lemma resolveUdf_async_built connection f w :
  async_spec anything anything
    (λ c _, ∀ step, c = Normal step → built_from f step)
    (resolveUdf_async connection f) w.
Proof.
  unfold resolveUdf_async.
  eapply (async_spec_abind anything anything ltac:(done) (λ _ _, True));
    [apply async_spec_anything| |done].
  intros loaded w1 _.
  apply async_spec_sync; [done..|]. unfold requireDefined_js.
  destruct (nullish loaded); [done|]. simpl.
  destruct (strict_ne_string _ _); [by apply async_spec_throw|].
  apply async_spec_sync; [done..|].
  assert (Hcode : prop loaded "code" = JsUndefined
                  ∨ prop loaded "code" ≠ JsUndefined)
    by (destruct (prop loaded "code"); auto).
  destruct Hcode as [Hcode|Hcode]; [by rewrite Hcode|].
  rewrite (object_hash_defined _ _ Hcode). simpl.
  set (codeHash := hash (prop loaded "code")).
  eapply (async_spec_abind anything anything ltac:(done) (λ _ _, True));
    [apply async_spec_anything| |done].
  intros cached w2 _.
  apply async_spec_sync; [done..|].
  assert (Hfinal : ∀ cached' w3, hash_ cached' = codeHash →
            async_spec anything anything
              (λ c _, ∀ step, c = Normal step → built_from f step)
              (sync! _ := NodeCache_ttl udfCache
                            (substring_from 4 (functionId f)) udfTTL in
               sync! cell := new_cell in
               lift (ret {| step_id := functionId f;
                            step_config := functionOptions f;
                            exec := udf_exec cell cached'
                                      (substring_from 4 (functionId f))
                                      loaded (prop loaded "code") codeHash;
                            step_context := ∅ |})) w3).
  { intros cached' w3 Hhash. apply async_spec_sync; [done..|].
    destruct (NodeCache_ttl_returns udfCache
                (substring_from 4 (functionId f)) udfTTL w3) as [b ->].
    apply async_spec_sync; [done..|]. simpl.
    apply async_spec_ret; [done|]. intros step [= <-].
    repeat split. by eexists _, cached', loaded. }
  destruct (hash_ cached =? codeHash)%string eqn:Hsame; simpl.
  - apply Hfinal. by apply String.eqb_eq.
  - by apply Hfinal.
Qed.

(** The steps of the UDF chain, when the references resolve. *)
Lemma udfFuncChain_of_built connection fs w chain w' :
  udfFuncChain_of connection fs w = (Normal chain, w') →
  Forall2 built_from (List.filter is_udf fs) chain.
Proof.
  unfold udfFuncChain_of. apply Promise_all_always.
  intros f w0. apply resolveUdf_async_built.
Qed.

Lemma Forall2_right {X Y} (P : X → Y → Prop) (Q : Y → Prop) xs ys :
  (∀ x y, P x y → Q y) → Forall2 P xs ys → Forall Q ys.
Proof. intros HPQ. induction 1; constructor; eauto. Qed.

(** C7: whatever the full context holds besides, the [exec] of the
    [udf.PIPELINE] step hands to the executor of the UDF chain a context
    whose properties are the properties geo, headers, source, destination,
    connection and retries of the full context, and no other: [$system] is
    not among them.  So two full contexts that agree on these six make the
    pipeline do the same thing in every world.  The steps of the UDF chain
    carry the empty context, not the system context. *)
Theorem udfPipelineFunc_reduced_context udfFuncChain connection rl store
    event (ctx1 ctx2 : Context) w :
  let six :=
    ["geo"; "headers"; "source"; "destination"; "connection"; "retries"] in
  (∀ k, k ∈ six → ctx1 !! k = ctx2 !! k) →
  udfPipelineFunc udfFuncChain connection rl store event ctx1 w
  = udfPipelineFunc udfFuncChain connection rl store event ctx2 w
  ∧ (∃ reduced : Context,
       (∀ k, reduced !! k = if decide (k ∈ six) then ctx1 !! k else None)
       ∧ reduced !! "$system" = None
       ∧ udfPipelineFunc udfFuncChain connection rl store event ctx1 w
         = (let! chainRes :=
              run_chain udfFuncChain event connection rl store reduced in
            run! check_error chainRes in
            ret (JsArr (events chainRes))) w)
  ∧ (∀ fs w0 chain w0',
       udfFuncChain_of connection fs w0 = (Normal chain, w0') →
       Forall (λ step, step_context step = ∅) chain).
Proof.
  intros six Hagree. split; [|split].
  - unfold udfPipelineFunc. by rewrite (pick_ext ctx1 ctx2).
  - exists (pick ctx1 reduced_context_fields). split; [|split; [|done]].
    + intros k. apply lookup_pick.
    + by rewrite lookup_pick.
  - intros fs w0 chain w0' Hchain.
    eapply Forall2_right; [|by eapply udfFuncChain_of_built].
    by intros f step (_ & _ & Hcontext & _).
Qed.

(** *** The exec closure of a UDF step *)

Lemma wrapper_userFunction_world handle event ctx w :
  snd (wrapper_userFunction handle event ctx w)
  = log_event (EvUserFunction handle event ctx) w.
Proof. unfold wrapper_userFunction. by destruct (userFunction _ _ _ _). Qed.

(** What one call of the [exec] of a UDF step does. *)
Lemma udf_exec_run cell initial functionId userFunctionObj
    code codeHash event ctx w :
  let cached := default initial (cells w !! cell) in
  let first := wrapper_userFunction (wrapper cached) event ctx w in
  let run :=
    udf_exec cell initial functionId userFunctionObj code codeHash
      event ctx w in
  match fst first with
  | Normal result => run = first
  | Thrown e =>
      if is_disposed e then
        let rebuilt := mkCached (nextWrapper w) codeHash in
        ∃ w2,
          run = wrapper_userFunction (wrapper rebuilt) event ctx w2
          ∧ trace w2
            = trace w
              ++ [EvUserFunction (wrapper cached) event ctx;
                  EvUDFWrapper (nextWrapper w) functionId
                    (prop userFunctionObj "name") code;
                  EvCacheSet UdfCache functionId]
          ∧ trace (snd run)
            = trace w2 ++ [EvUserFunction (nextWrapper w) event ctx]
          ∧ udfCache_data w2 !! functionId
            = Some (mkEntry (now w + udfTTL * 1000) rebuilt)
          ∧ cells w2 !! cell = Some rebuilt
          ∧ nextWrapper w2 = S (nextWrapper w)
      else run = first
  end.
Proof.
  intros cached first run.
  assert (Hrun : run = match first with
                       | (Normal result, w1) => (Normal result, w1)
                       | (Thrown e, w1) =>
                           (if is_disposed e then
                              let! rebuilt :=
                                UDFWrapper functionId
                                  (prop userFunctionObj "name") code in
                              let cached := mkCached rebuilt codeHash in
                              run! write_cell cell cached in
                              run! NodeCache_set udfCache functionId cached in
                              wrapper_userFunction (wrapper cached) event ctx
                            else throw e) w1
                       end) by reflexivity.
  clearbody run. subst first.
  pose proof (wrapper_userFunction_world (wrapper cached) event ctx w)
    as Hworld.
  destruct (wrapper_userFunction (wrapper cached) event ctx w)
    as [[result|e] w1]; simpl in Hworld; subst w1; simpl fst; cbv iota;
    [done|].
  destruct (is_disposed e) eqn:Hdisposed; [|done].
  unfold bind, UDFWrapper, write_cell, modify, NodeCache_set in Hrun.
  simpl in Hrun.
  eexists. split; [exact Hrun|].
  split; [by simpl; rewrite <- !app_assoc|].
  split; [by rewrite Hrun, wrapper_userFunction_world|].
  split; [|split; [|done]].
  - simpl. by rewrite lookup_insert_eq.
  - simpl. by rewrite lookup_insert_eq.
Qed.

(** The compiled UDF that lines 174-184 end up with has the hash of the
    current code. *)
(** Lines 174-184 throw at once, and do nothing else, for a definition
    without code. *)
Lemma acquire_without_code functionId userFunctionObj w :
  prop userFunctionObj "code" = JsUndefined →
  acquire functionId userFunctionObj w
  = (Thrown (newError "Object argument required."), w).
Proof. intros Hcode. unfold acquire. by rewrite Hcode. Qed.

Lemma acquire_with_code functionId userFunctionObj w :
  prop userFunctionObj "code" ≠ JsUndefined →
  acquire functionId userFunctionObj w
  = (let code := prop userFunctionObj "code" in
     let codeHash := hash code in
     let! cached := getCachedOrLoad udfCache functionId (λ key,
       let! compiled := UDFWrapper key (prop userFunctionObj "name") code in
       ret (mkCached compiled codeHash)) in
     let! cached :=
       if negb (String.eqb (hash_ cached) codeHash) then
         let! compiled :=
           UDFWrapper functionId (prop userFunctionObj "name") code in
         let cached := mkCached compiled codeHash in
         run! NodeCache_set udfCache functionId cached in
         ret cached
       else ret cached in
     run! NodeCache_ttl udfCache functionId udfTTL in
     ret cached) w.
Proof.
  intros Hcode. unfold acquire.
  by erewrite bind_normal by by apply object_hash_defined.
Qed.

Lemma acquire_defined functionId userFunctionObj w cached w' :
  acquire functionId userFunctionObj w = (Normal cached, w') →
  prop userFunctionObj "code" ≠ JsUndefined.
Proof. intros Hacquire Hcode. by rewrite acquire_without_code in Hacquire. Qed.

Lemma acquire_hash functionId userFunctionObj w cached w' :
  acquire functionId userFunctionObj w = (Normal cached, w') →
  hash_ cached = hash (prop userFunctionObj "code").
Proof.
  intros Hacquire. pose proof (acquire_defined _ _ _ _ _ Hacquire) as Hcode.
  revert Hacquire. rewrite acquire_with_code by done.
  cbv zeta. unfold bind at 1.
  destruct (getCachedOrLoad udfCache functionId _ w) as [[found|e] w1];
    [|done].
  destruct (hash_ found =? hash (prop userFunctionObj "code"))%string
    eqn:Hsame; simpl negb; cbv iota.
  - apply String.eqb_eq in Hsame. unfold ret at 1, bind at 1, bind at 1.
    destruct (NodeCache_ttl_returns udfCache functionId udfTTL w1) as [b Hb].
    destruct (NodeCache_ttl udfCache functionId udfTTL w1) as [c w2].
    simpl in Hb. subst c. unfold ret. by intros [= <- _].
  - unfold bind at 1, bind at 1, UDFWrapper, bind at 1, NodeCache_set,
      ret at 1, bind at 1.
    match goal with
    | |- context [NodeCache_ttl udfCache functionId udfTTL ?w2] =>
        destruct (NodeCache_ttl_returns udfCache functionId udfTTL w2)
          as [b Hb];
        destruct (NodeCache_ttl udfCache functionId udfTTL w2) as [c w3]
    end.
    simpl in Hb. subst c. unfold ret. by intros [= <- _].
Qed.

Lemma is_disposed_message e :
  is_disposed e = true ↔ exn_message e = Some "Isolate is disposed".
Proof.
  unfold is_disposed. destruct (exn_message e) as [m|]; [|done].
  rewrite String.eqb_eq. split; [by intros ->|by intros [= ->]].
Qed.

(** C2: every step of the UDF chain that the handler builds comes from a
    [udf.] reference of the function list, and its [exec] calls the user
    function of the wrapper its [cached] variable holds.  If that returns,
    or throws an error whose message is not "Isolate is disposed", [exec]
    returns or throws the same and nothing else happens.  If it throws an
    error with the message "Isolate is disposed", [exec] compiles one new
    wrapper from the function id, the name and the code of the definition
    the step was built from, keeps it in [cached] and in the UDF cache with
    the hash of that code, which is the hash the step started with, calls
    the user function of the new wrapper once and returns or throws
    whatever that call does, also a second "Isolate is disposed". *)
Theorem udf_exec_disposed_recovery connection fs w0 chain w0' step :
  udfFuncChain_of connection fs w0 = (Normal chain, w0') →
  step ∈ chain →
  ∃ f cell initial userFunctionObj,
    let fid := substring_from 4 (functionId f) in
    let code := prop userFunctionObj "code" in
    f ∈ List.filter is_udf fs
    ∧ step_id step = functionId f
    ∧ hash_ initial = hash code
    ∧ ∀ event ctx w,
        let cached := default initial (cells w !! cell) in
        let first := wrapper_userFunction (wrapper cached) event ctx w in
        let run := exec step event ctx w in
        (∀ result, fst first = Normal result → run = first)
        ∧ (∀ e, fst first = Thrown e →
                exn_message e ≠ Some "Isolate is disposed" →
                run = first)
        ∧ (∀ e, fst first = Thrown e →
                exn_message e = Some "Isolate is disposed" →
                let rebuilt := mkCached (nextWrapper w) (hash code) in
                ∃ w2,
                  run = wrapper_userFunction (wrapper rebuilt) event ctx w2
                  ∧ trace w2
                    = trace w
                      ++ [EvUserFunction (wrapper cached) event ctx;
                          EvUDFWrapper (nextWrapper w) fid
                            (prop userFunctionObj "name") code;
                          EvCacheSet UdfCache fid]
                  ∧ trace (snd run)
                    = trace w2 ++ [EvUserFunction (nextWrapper w) event ctx]
                  ∧ udfCache_data w2 !! fid
                    = Some (mkEntry (now w + udfTTL * 1000) rebuilt)
                  ∧ cells w2 !! cell = Some rebuilt
                  ∧ nextWrapper w2 = S (nextWrapper w)).
Proof.
  intros Hchain [i Hi]%list_elem_of_lookup.
  pose proof (udfFuncChain_of_built _ _ _ _ _ Hchain) as Hbuilt.
  destruct (Forall2_lookup_r _ _ _ _ _ Hbuilt Hi)
    as (f & Hf & Hid & _ & _ & cell & initial & userFunctionObj & _ & Hhash
        & Hexec).
  exists f, cell, initial, userFunctionObj. cbv zeta.
  split; [by eapply list_elem_of_lookup_2|]. split; [done|]. split; [done|].
  intros event ctx w. rewrite Hexec.
  pose proof (udf_exec_run cell initial (substring_from 4 (functionId f))
                userFunctionObj (prop userFunctionObj "code")
                (hash (prop userFunctionObj "code")) event ctx w) as Hrun.
  cbv zeta in Hrun.
  destruct (fst (wrapper_userFunction _ event ctx w)) as [result|e];
    (split; [|split]); try done.
  - intros e' [= <-] Hmessage.
    destruct (is_disposed e) eqn:Hdisposed; [|done].
    by apply is_disposed_message in Hdisposed.
  - intros e' [= <-] Hmessage%is_disposed_message.
    by rewrite Hmessage in Hrun.
Qed.

(** *** The compiled UDF of a function whose code has changed *)

(** C3 fails on the code in its last part: when the UDF cache holds a live
    entry for the function whose hash is not the hash of the current
    code, the handler compiles a new wrapper, distinct from the cached
    one, returns it and puts it in the cache with the new hash; what
    happens is the cache read, the compilation, the cache write and the
    TTL refresh, and [close] is not called on the wrapper that was
    replaced. *)
Theorem acquire_changed_code functionId userFunctionObj w e :
  udfCache_data w !! functionId = Some e →
  expired e w = false →
  prop userFunctionObj "code" ≠ JsUndefined →
  hash_ (entry_v e) ≠ hash (prop userFunctionObj "code") →
  (wrapper (entry_v e) < nextWrapper w)%nat →
  let code := prop userFunctionObj "code" in
  let compiled := mkCached (nextWrapper w) (hash code) in
  ∃ w',
    acquire functionId userFunctionObj w = (Normal compiled, w')
    ∧ wrapper compiled ≠ wrapper (entry_v e)
    ∧ udfCache_data w' !! functionId
      = Some (mkEntry (now w + udfTTL * 1000) compiled)
    ∧ trace w'
      = trace w
        ++ [EvCacheGet UdfCache functionId;
            EvUDFWrapper (nextWrapper w) functionId
              (prop userFunctionObj "name") code;
            EvCacheSet UdfCache functionId;
            EvCacheTtl UdfCache functionId]
    ∧ ¬ In (EvClose (wrapper (entry_v e)))
          (drop (length (trace w)) (trace w')).
Proof.
  intros Hkey Hlive Hcode Hhash Hfresh code compiled.
  rewrite acquire_with_code by done. cbv zeta. unfold bind at 1.
  rewrite (getCachedOrLoad_served udfCache _ _ _ _ Hkey Hlive eq_refl).
  fold code. replace (hash_ (entry_v e) =? hash code)%string with false
    by (symmetry; by apply String.eqb_neq).
  simpl negb. cbv iota.
  unfold bind, UDFWrapper, NodeCache_set, ret, NodeCache_ttl.
  simpl. destruct (string_nonempty functionId); simpl.
  - rewrite lookup_insert_eq.
    unfold NodeCache_check, expired. simpl.
    replace (now w + udfTTL * 1000 <? now w) with false
      by (symmetry; apply Z.ltb_ge; unfold udfTTL; lia).
    rewrite andb_false_r. simpl. eexists. split; [reflexivity|]. simpl.
    split; [lia|]. split; [by rewrite lookup_insert_eq|].
    split; [by rewrite <- !app_assoc|].
    rewrite <- !app_assoc. rewrite drop_app_length. simpl.
    intros [?|[?|[?|[?|[]]]]]; done.
  - eexists. split; [reflexivity|]. simpl.
    split; [lia|]. split; [by rewrite lookup_insert_eq|].
    split; [by rewrite <- !app_assoc|].
    rewrite <- !app_assoc. rewrite drop_app_length. simpl.
    intros [?|[?|[?|[?|[]]]]]; done.
Qed.

(** The sibling path: when the entry for the function has expired, reading
    it removes it, which closes its wrapper through the cache's release
    hook, before the new wrapper is compiled. *)
Lemma acquire_expired_entry functionId userFunctionObj w e :
  udfCache_data w !! functionId = Some e →
  expired e w = true →
  prop userFunctionObj "code" ≠ JsUndefined →
  let code := prop userFunctionObj "code" in
  ∃ w',
    acquire functionId userFunctionObj w
    = (Normal (mkCached (nextWrapper w) (hash code)), w')
    ∧ trace w'
      = trace w
        ++ [EvCacheGet UdfCache functionId; EvCacheDel UdfCache functionId;
            EvClose (wrapper (entry_v e));
            EvUDFWrapper (nextWrapper w) functionId
              (prop userFunctionObj "name") code;
            EvCacheSet UdfCache functionId;
            EvCacheTtl UdfCache functionId].
Proof.
  intros Hkey Hexpired Hcode code.
  rewrite acquire_with_code by done. cbv zeta.
  unfold bind at 1, getCachedOrLoad, bind at 1, NodeCache_get.
  simpl. rewrite Hkey. unfold NodeCache_check.
  replace (expired e (log_event _ w)) with true by done.
  unfold NodeCache_del. simpl. rewrite Hkey. simpl.
  unfold load_and_store, bind, UDFWrapper, NodeCache_set, ret, NodeCache_ttl.
  simpl. fold code. rewrite String.eqb_refl. simpl.
  destruct (string_nonempty functionId); simpl.
  - rewrite lookup_insert_eq. unfold NodeCache_check, expired. simpl.
    replace (now w + udfTTL * 1000 <? now w) with false
      by (symmetry; apply Z.ltb_ge; unfold udfTTL; lia).
    rewrite andb_false_r. simpl. eexists. split; [reflexivity|]. simpl.
    by rewrite <- !app_assoc.
  - eexists. split; [reflexivity|]. simpl. by rewrite <- !app_assoc.
Qed.

(** *** Functions of another workspace *)

Lemma functions_lookup_frame fid w c w' :
  getCachedOrLoad functionsCache fid (λ key, getConfig "function" key) w = (c, w') →
  udfCache_data w' = udfCache_data w
  ∧ nextWrapper w' = nextWrapper w
  ∧ cells w' = cells w
  ∧ ∃ evs, trace w' = trace w ++ evs ∧ Forall is_functions_lookup evs.
Proof.
  unfold getCachedOrLoad, bind, NodeCache_get, NodeCache_check,
    load_and_store, bind, getConfig, bind, modify, gets, NodeCache_set,
    NodeCache_del, ret.
  simpl. destruct (functionsCache_data w !! fid) as [e|]; simpl.
  - destruct (expired e _); simpl.
    + intros [= _ <-]. simpl. repeat split; try done.
      eexists. rewrite <- !app_assoc. split; [done|].
      repeat constructor.
    + destruct (truthy (entry_v e)); intros [= _ <-]; simpl;
        repeat split; try done; eexists; rewrite <- ?app_assoc;
        (split; [done|]); repeat constructor.
  - intros [= _ <-]. simpl. repeat split; try done.
    eexists. rewrite <- !app_assoc. split; [done|]. repeat constructor.
Qed.

Lemma lookup_only_refl w : lookup_only w w.
Proof.
  repeat split. exists []. split; [by rewrite app_nil_r|constructor].
Qed.

Lemma lookup_only_trans w1 w2 w3 :
  lookup_only w1 w2 → lookup_only w2 w3 → lookup_only w1 w3.
Proof.
  intros (Hc1 & Hn1 & Hv1 & evs1 & Ht1 & He1)
         (Hc2 & Hn2 & Hv2 & evs2 & Ht2 & He2).
  split; [congruence|]. split; [congruence|]. split; [congruence|].
  exists (evs1 ++ evs2). split; [by rewrite Ht2, Ht1, app_assoc|].
  by apply Forall_app.
Qed.

(** The definition that a callback works with is the one that its lookup
    finds in the world in which [map] calls it, whatever happens before
    the callback is resumed. *)
Lemma functions_lookup_async fid w :
  async_spec anything lookup_only
    (λ c _, c = fst (getCachedOrLoad functionsCache fid
                       (λ key, getConfig "function" key) w))
    (await (getCachedOrLoad_async functionsCache fid
              (λ key, lift (getConfig "function" key)))) w.
Proof.
  apply (async_spec_await anything lookup_only lookup_only_refl); [done|].
  unfold getCachedOrLoad_async, getCachedOrLoad.
  apply (async_spec_sync anything lookup_only lookup_only_trans).
  { unfold NodeCache_get, NodeCache_check, NodeCache_del. simpl.
    destruct (functionsCache_data w !! fid) as [e|]; simpl;
      [destruct (expired e _); simpl|]; repeat split; eexists; simpl;
      rewrite <- ?app_assoc; (split; [reflexivity|]); repeat constructor. }
  unfold bind at 1.
  destruct (NodeCache_get_returns functionsCache fid w) as [cached Hget].
  destruct (NodeCache_get functionsCache fid w) as [c w1].
  simpl in Hget. subst c. simpl fst. simpl snd. cbv iota.
  assert (Hload :
    async_spec anything lookup_only
      (λ c _, c = fst (load_and_store functionsCache fid
                         (λ key, getConfig "function" key) w1))
      (load_and_store_async functionsCache fid
         (λ key, lift (getConfig "function" key))) w1).
  { unfold load_and_store_async.
    apply (async_spec_abind anything lookup_only lookup_only_trans
             (λ c _, c = Normal (default JsUndefined
                                   (store_functions w1 !! fid)))).
    - apply (async_spec_await anything lookup_only lookup_only_refl);
        [done|].
      apply async_spec_lift; [|done].
      repeat split. eexists. split; [done|]. repeat constructor.
    - intros loaded w2 [= ->].
      apply (async_spec_sync anything lookup_only lookup_only_trans).
      + repeat split. eexists. split; [done|]. repeat constructor.
      + simpl. by apply (async_spec_ret anything lookup_only lookup_only_refl).
    - by intros e w2 [=]. }
  destruct cached as [value|]; [|exact Hload].
  destruct (truthy value); [|exact Hload].
  by apply (async_spec_ret anything lookup_only lookup_only_refl).
Qed.

(** The callback of a reference whose definition is of another workspace
    does the lookup and throws, however it is resumed. *)
Lemma resolveUdf_async_mismatch connection r w def :
  let fid := substring_from 4 (functionId r) in
  fst (getCachedOrLoad functionsCache fid (λ key, getConfig "function" key) w)
  = Normal def →
  nullish def = false →
  strict_ne_string (prop def "workspaceId") (conn_workspaceId connection)
  = true →
  async_spec anything lookup_only
    (λ c _, c = Thrown (workspace_mismatch fid connection))
    (resolveUdf_async connection r) w.
Proof.
  intros fid Hlookup Hdef Hws. unfold resolveUdf_async. fold fid.
  eapply (async_spec_abind anything lookup_only lookup_only_trans);
    [apply functions_lookup_async| |].
  - intros loaded w1. rewrite Hlookup. intros [= ->].
    apply (async_spec_sync anything lookup_only lookup_only_trans);
      unfold requireDefined_js; rewrite Hdef; [apply lookup_only_refl|].
    simpl. rewrite Hws.
    by apply (async_spec_throw anything lookup_only lookup_only_refl).
  - intros e w1. by rewrite Hlookup.
Qed.

(** C5 (amended): when the definition that the lookup finds for a UDF
    reference of the function list is not of the connection's workspace,
    the callback that resolves the reference throws the workspace-mismatch
    error, however the callbacks are resumed, having done nothing but
    the lookup of the definition: it compiles no wrapper and leaves the
    UDF cache and the captured variables as they are.  The handler then
    throws when the references are resolved, so that no chain is built or
    run.  What it throws is the rejection that came first among the
    callbacks, the error of one of the references that failed; it is this
    workspace-mismatch error when no other reference failed. *)
Theorem workspace_mismatch_is_fatal raw message connection functionsFilter
    retries w w1 main before r after def outcomes first w2 :
  raw ≠ "" →
  JSON_parse raw = inr message →
  getCachedOrLoad connectionsCache (msg_connectionId message)
    getEnrichedConnection (log_event (EvJsonParse raw) w)
  = (Normal (Some connection), w1) →
  mainFunction message connection w1 = (Normal main, w1) →
  List.filter is_udf (functions_of connection main functionsFilter)
  = before ++ r :: after →
  let fid := substring_from 4 (functionId r) in
  let w_r := snd (start_all (map (resolveUdf_async connection) before) None w1) in
  fst (getCachedOrLoad functionsCache fid (λ key, getConfig "function" key)
         w_r) = Normal def →
  nullish def = false →
  strict_ne_string (prop def "workspaceId") (conn_workspaceId connection)
  = true →
  settle (eventLoop w1)
    (map (resolveUdf_async connection) (before ++ r :: after)) w1
  = (outcomes, first, w2) →
  async_spec anything lookup_only
    (λ c _, c = Thrown (workspace_mismatch fid connection))
    (resolveUdf_async connection r) w_r
  ∧ outcomes !! length before
    = Some (Thrown (workspace_mismatch fid connection))
  ∧ ∃ e,
      rotorMessageHandler (Some raw) functionsFilter retries w
      = (Thrown e, w2)
      ∧ first = Some e
      ∧ Thrown e ∈ outcomes
      ∧ ((∀ i e', outcomes !! i = Some (Thrown e') → i = length before) →
         e = workspace_mismatch fid connection).
Proof.
  intros Hraw Hparse Hlookup Hmain Hrefs fid w_r Hdef Hnonnil Hws Hsettle.
  pose proof (resolveUdf_async_mismatch connection r w_r def Hdef Hnonnil Hws)
    as Hcallback.
  fold fid in Hcallback. split; [done|].
  assert (Hat : outcomes !! length before
                = Some (Thrown (workspace_mismatch fid connection))).
  { rewrite map_app in Hsettle. simpl in Hsettle.
    destruct (settle_outcome_at
                (λ c, c = Thrown (workspace_mismatch fid connection))
                _ _ _ _ _ _ _ _
                (async_spec_mono anything lookup_only anything anything _ _ _ _
                   ltac:(done) ltac:(done) ltac:(done) Hcallback) Hsettle)
      as (c & Hc & ->).
    by rewrite length_map in Hc. }
  split; [done|].
  pose proof (settle_first (eventLoop w1)
                (map (resolveUdf_async connection) (before ++ r :: after)) w1)
    as Hfirst.
  rewrite Hsettle in Hfirst. destruct Hfirst as [_ Hfirst].
  destruct first as [e|].
  - exists e.
    split.
    { rewrite rotorMessageHandler_nonempty by done.
      rewrite (handle_message_after_lookup _ _ _ _ _ _ _ Hparse Hlookup).
      unfold bind at 1. rewrite Hmain. unfold bind at 1.
      unfold udfFuncChain_of, Promise_all. by rewrite Hrefs, Hsettle. }
    split; [done|]. split; [done|].
    intros Honly. apply list_elem_of_lookup in Hfirst as [i Hi].
    pose proof (Honly i e Hi) as ->. congruence.
  - apply Forall_forall with (x := Thrown (workspace_mismatch fid connection))
      in Hfirst; [by destruct Hfirst|].
    by eapply list_elem_of_lookup_2.
Qed.
End Handler.

(** C5, as stated, fails: the connection declares [udf.a], which the config
    store does not know, and then [udf.b], whose definition is of workspace
    W2 while the connection is of W1.  Both definitions are fetched, and
    the callbacks are resumed in turn, as when the answers of the config
    store arrive in the order of the requests.  The callback of b throws
    the workspace-mismatch error, but the callback of a has thrown before:
    the handler throws "Unknown function: a". *)
Lemma workspace_mismatch_masked :
  let refs := [mkFunctionRef "udf.a" JsUndefined;
               mkFunctionRef "udf.b" JsUndefined] in
  let connection := demo_connection "c1" true "postgres" (Some refs) in
  let w0 :=
    initial_world {[ "c1" := connection ]}
      {[ "b" := demo_function "W2" "return event" ]} in
  let w1 := snd (getCachedOrLoad connectionsCache "c1" getEnrichedConnection
                   (log_event (EvJsonParse "{c1}") w0)) in
  let run := @rotorMessageHandler demo (Some "{c1}") None 0 w0 in
  strict_ne_string (prop (demo_function "W2" "return event") "workspaceId")
    (conn_workspaceId connection) = true
  ∧ EvGetConfig "function" "b" ∈ trace (snd run)
  ∧ fst (fst (settle demo_eventLoop
                (map (@resolveUdf_async demo connection) refs) w1))
    = [Thrown (newError "Unknown function: a");
       Thrown (workspace_mismatch "b" connection)]
  ∧ fst run = Thrown (newError "Unknown function: a")
  ∧ fst run ≠ Thrown (workspace_mismatch "b" connection).
Proof.
  vm_compute. split; [done|]. split; [|by repeat split].
  repeat first [apply list_elem_of_here|apply list_elem_of_further].
Qed.

(** * Examples *)

Lemma Normal_of_fst {A S} (run : Completion A * S) (d : A) :
  match fst run with Normal _ => true | Thrown _ => false end = true →
  run = (Normal (match fst run with Normal a => a | Thrown _ => d end),
         snd run).
Proof. destruct run as [[a|e] s]; simpl; [reflexivity|discriminate]. Qed.

Lemma mainFunction_bulker_witness :
  @mainFunction demo (demo_message "c1") demo_interleaved demo_world
  = (Normal (demo_bulker "c1"), demo_world).
Proof.
  exact (proj1 (@mainFunction_bulker demo (demo_message "c1") demo_interleaved
                  demo_world eq_refl)).
Defined.

Lemma aggregatedFunctions_partition_witness :
  ∃ chain w',
    @udfFuncChain_of demo demo_interleaved
      (functions_of demo_interleaved (demo_bulker "c1") None) demo_world
    = (Normal chain, w')
    ∧ map functionId
        (aggregatedFunctions (functions_of demo_interleaved (demo_bulker "c1") None) chain)
      = ["builtin.transformation.addTimestamp"; "udf.PIPELINE";
         "builtin.destination.webhook"; "builtin.destination.bulker"].
Proof.
  pose (run := @udfFuncChain_of demo demo_interleaved
                 (functions_of demo_interleaved (demo_bulker "c1") None) demo_world).
  pose (chain := match fst run with Normal chain => chain | _ => [] end).
  assert (Hrun : run = (Normal chain, snd run)) by (vm_compute; reflexivity).
  exists chain, (snd run). split; [exact Hrun|].
  rewrite (proj1 (@aggregatedFunctions_partition demo (demo_message "c1")
    demo_interleaved None (demo_bulker "c1") chain demo_world demo_world
    demo_world (snd run) eq_refl Hrun)).
  reflexivity.
Defined.

Lemma unknown_function_type_is_ignored_witness :
  let declared := default [] (functions (conn_options demo_interleaved)) in
  aggregatedFunctions declared [] = aggregatedFunctions (delete 1%nat declared) [].
Proof.
  exact (proj1 (proj2 (@unknown_function_type_is_ignored demo
    [mkFunctionRef "builtin.destination.webhook" JsUndefined]
    (mkFunctionRef "foo.bar" JsUndefined)
    [mkFunctionRef "udf.f1" JsUndefined;
     mkFunctionRef "builtin.transformation.addTimestamp" JsUndefined]
    [] eq_refl eq_refl eq_refl))).
Defined.

(** The handler on the demo_interleaved connection: the reference "foo.bar" is
    passed over, the message is processed and nothing is thrown. *)
Example unknown_function_type_example :
  let run := @rotorMessageHandler demo (Some "{c1}") None 0 demo_world in
  fst run = Normal tt
  ∧ trace (snd run)
    = [EvJsonParse "{c1}"; EvCacheGet ConnectionsCache "c1";
       EvGetEnrichedConnection "c1"; EvCacheSet ConnectionsCache "c1";
       EvCacheGet FunctionsCache "f1"; EvGetConfig "function" "f1";
       EvCacheSet FunctionsCache "f1"; EvCacheGet UdfCache "f1";
       EvUDFWrapper 0 "f1" (JsStr "fn") (JsStr "return event");
       EvCacheSet UdfCache "f1"; EvCacheTtl UdfCache "f1";
       EvRunChain ["builtin.transformation.addTimestamp"; "udf.PIPELINE";
                   "builtin.destination.webhook";
                   "builtin.destination.bulker"];
       EvRunChain ["udf.f1"];
       EvUserFunction 0
         (JsObj [("messageId", JsStr "m1"); ("type", JsStr "track");
                 ("timestamp", JsNum 0)])
         (<["store" := CfHandle "store:c1"]>
            (pick (fullContext
                     {| step_id := "udf.PIPELINE"; step_config := JsObj [];
                        exec := λ event _, ret event;
                        step_context := @systemContext demo |}
                     {| store_hash := "store:c1" |}
                     (@eventContext (demo_message "c1") demo_interleaved 0))
               reduced_context_fields));
       EvLogMetrics "W1" "m1"].
Proof. vm_compute. by split. Qed.

(** The code of f1 changes after a first message; thirty seconds later a
    second message of the connection makes the handler compile wrapper 1
    and run it.  Wrapper 0 is never closed. *)
Example changed_code_example :
  let w := advance 30000
             (publish_function "f1" (demo_function "W1" "fan-out")
                demo_world_after) in
  let run := @rotorMessageHandler demo (Some "{c1}") None 0 w in
  fst run = Normal tt
  ∧ wrapper_events (trace demo_world_after) = [Compiled 0%nat; Invoked 0%nat]
  ∧ wrapper_events (drop (length (trace w)) (trace (snd run)))
    = [Compiled 1%nat; Invoked 1%nat]
  ∧ (entry_v <$> udfCache_data (snd run) !! "f1")
    = Some (mkCached 1 "sha:fan-out").
Proof. vm_compute. by repeat split. Qed.

Lemma acquire_changed_code_witness :
  let def := demo_function "W1" "fan-out" in
  let w := advance 30000 (publish_function "f1" def demo_world_after) in
  ∃ w',
    @acquire demo "f1" def w = (Normal (mkCached 1 "sha:fan-out"), w')
    ∧ trace w'
      = trace w
        ++ [EvCacheGet UdfCache "f1";
            EvUDFWrapper 1 "f1" (JsStr "fn") (JsStr "fan-out");
            EvCacheSet UdfCache "f1"; EvCacheTtl UdfCache "f1"].
Proof.
  intros def w.
  destruct (@acquire_changed_code demo "f1" def w
              (mkEntry 600000 (mkCached 0 "sha:return event")))
    as (w' & Hacquire & _ & _ & Htrace & _).
  - vm_compute. reflexivity.
  - vm_compute. reflexivity.
  - vm_compute. discriminate.
  - vm_compute. discriminate.
  - vm_compute. lia.
  - exists w'. split; [exact Hacquire|exact Htrace].
Defined.

(** The isolate of wrapper 0 is torn down before a second message of the
    connection arrives: the step's [exec] calls wrapper 0, compiles wrapper
    1, calls it, and the message is processed. *)
Example disposed_recovery_example :
  let w := advance 150000 demo_world_after in
  let run := @rotorMessageHandler demo (Some "{c1}") None 0 w in
  fst run = Normal tt
  ∧ wrapper_events (drop (length (trace w)) (trace (snd run)))
    = [Invoked 0%nat; Compiled 1%nat; Invoked 1%nat]
  ∧ udfCache_data (snd run) !! "f1"
    = Some (mkEntry 750000 (mkCached 1 "sha:return event")).
Proof. vm_compute. by repeat split. Qed.

Lemma workspace_mismatch_is_fatal_witness :
  let refs := [mkFunctionRef "udf.f1" JsUndefined;
               mkFunctionRef "udf.f9" JsUndefined] in
  let connection := demo_connection "c1" true "postgres" (Some refs) in
  let w0 :=
    initial_world {[ "c1" := connection ]}
      {[ "f1" := demo_function "W1" "return event";
         "f9" := demo_function "W2" "return event" ]} in
  fst (@rotorMessageHandler demo (Some "{c1}") None 0 w0)
  = Thrown (workspace_mismatch "f9" connection).
Proof.
  intros refs connection w0.
  pose (w1 := snd (getCachedOrLoad connectionsCache "c1" getEnrichedConnection
                     (log_event (EvJsonParse "{c1}") w0))).
  pose (settled := settle demo_eventLoop
                     (map (@resolveUdf_async demo connection) refs) w1).
  destruct (@workspace_mismatch_is_fatal demo "{c1}" (demo_message "c1")
              connection None 0 w0 w1 (demo_bulker "c1")
              [mkFunctionRef "udf.f1" JsUndefined]
              (mkFunctionRef "udf.f9" JsUndefined) []
              (demo_function "W2" "return event")
              (fst (fst settled)) (snd (fst settled)) (snd settled))
    as (_ & _ & e & Hrun & _ & _ & He).
  - discriminate.
  - reflexivity.
  - vm_compute. reflexivity.
  - vm_compute. reflexivity.
  - vm_compute. reflexivity.
  - vm_compute. reflexivity.
  - reflexivity.
  - reflexivity.
  - change (settled = (fst (fst settled), snd (fst settled), snd settled)).
    clearbody settled. by destruct settled as [[outcomes first] w2].
  - rewrite Hrun. simpl. f_equal. apply He. intros i e' Hi.
    assert (Hfulfilled : match fst (fst settled) !! 0%nat with
                         | Some (Normal _) => true
                         | _ => false
                         end = true) by (vm_compute; reflexivity).
    assert (Hlength : length (fst (fst settled)) = 2%nat)
      by (vm_compute; reflexivity).
    apply lookup_lt_Some in Hi as Hlt. rewrite Hlength in Hlt.
    destruct i as [|[|i]]; [|done|lia].
    rewrite Hi in Hfulfilled. discriminate.
Defined.

Lemma mainFunction_destination_witness :
  fst (@rotorMessageHandler demo (Some "{c2}") None 0 demo_world_2)
  = Thrown (newError
      "Connection with id c2 has no functions assigned to it's destination type - nosuch").
Proof.
  pose (w1 := snd (getCachedOrLoad connectionsCache "c2" getEnrichedConnection
                     (log_event (EvJsonParse "{c2}") demo_world_2))).
  assert (Hrun := @mainFunction_destination demo "{c2}" (demo_message "c2")
                    demo_unknown_type None 0 demo_world_2 w1).
  simpl in Hrun. rewrite Hrun.
  - reflexivity.
  - discriminate.
  - reflexivity.
  - vm_compute. reflexivity.
  - reflexivity.
Defined.

Lemma udfPipelineFunc_reduced_context_witness :
  let fs := functions_of demo_interleaved (demo_bulker "c1") None in
  let ctx := @eventContext (demo_message "c1") demo_interleaved 0 in
  let store := {| store_hash := "store:c1" |} in
  ∃ chain w',
    @udfFuncChain_of demo demo_interleaved fs demo_world = (Normal chain, w')
    ∧ map step_id chain = ["udf.f1"]
    ∧ @udfPipelineFunc demo chain demo_interleaved redisLogger store
        (JsObj []) (@systemContext demo ∪ ctx) w'
      = @udfPipelineFunc demo chain demo_interleaved redisLogger store
          (JsObj []) ctx w'.
Proof.
  intros fs ctx store.
  pose (run := @udfFuncChain_of demo demo_interleaved fs demo_world).
  pose (chain := match fst run with Normal chain => chain | _ => [] end).
  assert (Hrun : run = (Normal chain, snd run))
    by (apply (Normal_of_fst run []); vm_compute; reflexivity).
  exists chain, (snd run). split; [exact Hrun|].
  split; [vm_compute; reflexivity|].
  refine (proj1 (@udfPipelineFunc_reduced_context demo chain demo_interleaved
    redisLogger store (JsObj []) (@systemContext demo ∪ ctx) ctx (snd run)
    _)).
  intros k Hk.
  repeat (apply elem_of_cons in Hk as [->|Hk]; [vm_compute; reflexivity|]).
  by apply elem_of_nil in Hk.
Defined.

Lemma udf_exec_disposed_recovery_witness :
  let fs := functions_of demo_interleaved (demo_bulker "c1") None in
  ∃ chain w' step,
    @udfFuncChain_of demo demo_interleaved fs demo_world = (Normal chain, w')
    ∧ chain !! 0%nat = Some step
    ∧ ∃ cell initial,
        ∀ event ctx w e,
          let cached := default initial (cells w !! cell) in
          fst (@wrapper_userFunction demo (wrapper cached) event ctx w)
          = Thrown e →
          exn_message e = Some "Isolate is disposed" →
          wrapper_events
            (drop (length (trace w)) (trace (snd (exec step event ctx w))))
          = [Invoked (wrapper cached); Compiled (nextWrapper w);
             Invoked (nextWrapper w)].
Proof.
  intros fs.
  pose (run := @udfFuncChain_of demo demo_interleaved fs demo_world).
  pose (chain := match fst run with Normal chain => chain | _ => [] end).
  assert (Hrun : run = (Normal chain, snd run))
    by (apply (Normal_of_fst run []); vm_compute; reflexivity).
  assert (Hsome : match chain with [] => false | _ => true end = true)
    by (vm_compute; reflexivity).
  clearbody chain. destruct chain as [|step rest]; [discriminate|].
  exists (step :: rest), (snd run), step.
  split; [exact Hrun|]. split; [reflexivity|].
  destruct (@udf_exec_disposed_recovery demo demo_interleaved fs demo_world
              (step :: rest) (snd run) step Hrun)
    as (f & cell & initial & userFunctionObj & _ & _ & _ & Hexec).
  - apply list_elem_of_here.
  - exists cell, initial. intros event ctx w e cached Hfirst Hmessage.
    destruct (Hexec event ctx w) as (_ & _ & Hrebuild).
    destruct (Hrebuild e Hfirst Hmessage) as (w2 & _ & Hw2 & Htrace & _).
    rewrite Htrace, Hw2, <- app_assoc, drop_app_length. reflexivity.
Defined.

(** * More properties of the handler *)

Section MoreHandler.
Context `{Externals}.

(** ** Connections and functions that the config store does not have *)

Lemma NodeCache_get_frame {V A} (cache : NodeCache V) (f : World → A) key w :
  (∀ d w0, f (set_data cache d w0) = f w0) →
  (∀ k x w0, f (del_listener cache k x w0) = f w0) →
  (∀ ev w0, f (log_event ev w0) = f w0) →
  f (snd (NodeCache_get cache key w)) = f w.
Proof.
  intros Hset Hdel Hlog. unfold NodeCache_get, NodeCache_check, NodeCache_del.
  destruct (data cache _ !! key) as [e|] eqn:Hkey; [|by simpl].
  destruct (expired e _); simpl; [|done].
  by rewrite Hdel, Hlog, Hset, Hlog.
Qed.

(** X1: An unknown connection is fatal for the message and is not remembered:
    the handler throws "Unknown connection: <id>", and as soon as the config
    store has the connection a later lookup finds it, whatever the time that
    has passed. *)
Theorem unknown_connection_not_memoized raw message functionsFilter retries
    w connection dt :
  raw ≠ "" →
  JSON_parse raw = inr message →
  let id := msg_connectionId message in
  serves connectionsCache id (log_event (EvJsonParse raw) w) = false →
  store_connections w !! id = None →
  let run := rotorMessageHandler (Some raw) functionsFilter retries w in
  fst run = Thrown (newError ("Unknown connection: " +:+ id))
  ∧ fst (getCachedOrLoad connectionsCache id getEnrichedConnection
           (advance dt (publish_connection id connection (snd run))))
    = Normal (Some connection).
Proof.
  intros Hraw Hparse id Hmiss Hstore run.
  set (w1 := snd (NodeCache_get connectionsCache id
                    (log_event (EvJsonParse raw) w))).
  assert (Hstore1 : store_connections w1 !! id = None).
  { unfold w1.
    by rewrite (NodeCache_get_frame connectionsCache store_connections). }
  assert (Hload : getEnrichedConnection id w1
                  = (Normal None, log_event (EvGetEnrichedConnection id) w1)).
  { unfold getEnrichedConnection, bind, modify, gets. simpl.
    by rewrite Hstore1. }
  destruct (load_and_store_entry connectionsCache _ _ _ _ _ Hload)
    as (Hstored & Hentry & _).
  set (w2 := snd (NodeCache_set connectionsCache id None
                    (log_event (EvGetEnrichedConnection id) w1))) in *.
  assert (Hrun : run = (Thrown (newError ("Unknown connection: " +:+ id)),
                        w2)).
  { subst run. rewrite rotorMessageHandler_nonempty by done.
    unfold handle_message, bind at 1, parse_message. rewrite Hparse.
    unfold bind at 1. fold id.
    rewrite (getCachedOrLoad_not_served connectionsCache _ _ _ Hmiss).
    fold w1. by rewrite Hstored. }
  rewrite Hrun. simpl fst. simpl snd. split; [done|].
  set (w3 := advance dt (publish_connection id connection w2)).
  assert (Hmiss3 : serves connectionsCache id w3 = false).
  { eapply (not_served_after_falsy connectionsCache); [exact Hentry|done]. }
  rewrite (getCachedOrLoad_not_served connectionsCache _ _ _ Hmiss3).
  unfold load_and_store, bind at 1, getEnrichedConnection, bind, modify, gets.
  simpl.
  rewrite (NodeCache_get_frame connectionsCache store_connections) by done.
  unfold w3. simpl. by rewrite lookup_insert_eq.
Qed.

(** X2: A UDF reference whose definition the config store does not have is
    fatal for the message: its callback throws "Unknown function: <id>"
    after the fetch, and nothing is compiled or put in the UDF cache. *)
Theorem unknown_function_throws connection f w :
  let fid := substring_from 4 (functionId f) in
  serves functionsCache fid w = false →
  store_functions w !! fid = None →
  let run := resolveUdf connection f w in
  fst run = Thrown (newError ("Unknown function: " +:+ fid))
  ∧ udfCache_data (snd run) = udfCache_data w
  ∧ nextWrapper (snd run) = nextWrapper w
  ∧ ∃ evs, trace (snd run) = trace w ++ evs ∧ Forall is_functions_lookup evs.
Proof.
  intros fid Hmiss Hstore run.
  set (w1 := snd (NodeCache_get functionsCache fid w)).
  assert (Hstore1 : store_functions w1 !! fid = None).
  { unfold w1.
    by rewrite (NodeCache_get_frame functionsCache store_functions). }
  assert (Hlookup : getCachedOrLoad functionsCache fid
                      (λ key, getConfig "function" key) w
                    = (Normal JsUndefined,
                       snd (NodeCache_set functionsCache fid JsUndefined
                              (log_event (EvGetConfig "function" fid) w1)))).
  { rewrite (getCachedOrLoad_not_served functionsCache _ _ _ Hmiss). fold w1.
    unfold load_and_store, bind at 1, getConfig, bind, modify, gets. simpl.
    by rewrite Hstore1. }
  pose proof (functions_lookup_frame _ _ _ _ Hlookup)
    as (Hcache & Hnext & _ & Htrace).
  assert (Hrun : run = (Thrown (newError ("Unknown function: " +:+ fid)),
                        snd (NodeCache_set functionsCache fid JsUndefined
                               (log_event (EvGetConfig "function" fid) w1)))).
  { subst run. unfold resolveUdf, bind at 1. fold fid. by rewrite Hlookup. }
  rewrite Hrun. by repeat split.
Qed.

(** ** The chains that are built *)

Lemma settle_all_app {A} (ps qs : list (M A)) w :
  settle_all (ps ++ qs) w
  = (fst (settle_all ps w) ++ fst (settle_all qs (snd (settle_all ps w))),
     snd (settle_all qs (snd (settle_all ps w)))).
Proof.
  revert w. induction ps as [|p ps IH]; intros w; simpl.
  - by destruct (settle_all qs w).
  - destruct (p w) as [c w1]. rewrite IH.
    destruct (settle_all ps w1) as [cs w2]. simpl.
    by destruct (settle_all qs w2).
Qed.

Lemma all_fulfilled_rejected {A} (cs ds : list (Completion A)) e :
  ∃ e', all_fulfilled (cs ++ Thrown e :: ds) = Thrown e'
        ∧ (∀ l, all_fulfilled cs = Normal l → e' = e).
Proof.
  induction cs as [|[a|e0] cs IH]; simpl.
  - by exists e.
  - destruct IH as (e' & -> & He'). exists e'. split; [done|].
    intros l. destruct (all_fulfilled cs); [|done]. intros _. by eapply He'.
  - by exists e0.
Qed.

(** The callbacks that build the function chain have no [await]: they have
    settled when [map] returns, and the rejection that comes first is the
    one of the first callback in the list that throws. *)
Lemma funcChain_of_settled functionsFilter pipeline aggregated w :
  let ps := map (toStep pipeline)
              (List.filter (passes functionsFilter) aggregated) in
  funcChain_of functionsFilter pipeline aggregated w
  = (all_fulfilled (fst (settle_all ps w)), snd (settle_all ps w)).
Proof.
  unfold funcChain_of. rewrite <- (map_map (toStep pipeline) lift).
  apply Promise_all_lift.
Qed.

Lemma settle_all_Forall2 {X A} (g : X → M A) (P : X → A → Prop) xs w l :
  (∀ x w0 a w1, g x w0 = (Normal a, w1) → P x a) →
  all_fulfilled (fst (settle_all (map g xs) w)) = Normal l →
  Forall2 P xs l.
Proof.
  intros Hg Hall.
  revert w l Hall. induction xs as [|x xs IH]; intros w l; simpl.
  - intros [= <-]. constructor.
  - destruct (g x w) as [[a|e] w1] eqn:Hx;
      destruct (settle_all (map g xs) w1) as [cs w2] eqn:Hrest; simpl; [|done].
    specialize (IH w1). rewrite Hrest in IH. simpl in IH.
    destruct (all_fulfilled cs) as [l'|]; [|done]. intros [= <-].
    constructor; [by eapply Hg|by apply IH].
Qed.

Lemma settle_all_pure {X A} (g : X → M A) xs w :
  (∀ x w0, snd (g x w0) = w0) →
  snd (settle_all (map g xs) w) = w.
Proof.
  intros Hg. induction xs as [|x xs IH]; simpl; [done|].
  pose proof (Hg x w) as Hx. destruct (g x w) as [c w1]. simpl in Hx. subst w1.
  by destruct (settle_all (map g xs) w).
Qed.

Lemma toStep_pure pipeline f w : snd (toStep pipeline f w) = w.
Proof.
  unfold toStep. destruct (startsWith _ "builtin.").
  - unfold bind. by destruct (getBuiltinFunction (functionId f)).
  - by destruct (String.eqb _ _).
Qed.

Lemma toStep_id pipeline f w step w' :
  toStep pipeline f w = (Normal step, w') → step_id step = functionId f.
Proof.
  unfold toStep. destruct (startsWith _ "builtin.").
  - unfold bind. destruct (getBuiltinFunction (functionId f)); [|done].
    by intros [= <- _].
  - destruct (String.eqb _ _); [|done]. by intros [= <- _].
Qed.

Lemma Forall2_map_eq {X A B} (f : X → B) (g : A → B) xs l :
  Forall2 (λ x a, g a = f x) xs l → map g l = map f xs.
Proof. induction 1 as [|x a xs l Hxa _ IH]; simpl; [done|]. by rewrite Hxa, IH. Qed.

Lemma funcChain_of_pure functionsFilter pipeline aggregated w :
  snd (funcChain_of functionsFilter pipeline aggregated w) = w.
Proof.
  rewrite funcChain_of_settled. simpl.
  apply settle_all_pure. intros f w0. apply toStep_pure.
Qed.

(** X3: The function chain that is handed to the executor has one step per
    aggregated reference that passes the functions filter, in the same
    order and under the same id, and building it changes nothing in the
    world, whether it succeeds or fails. *)
Theorem funcChain_of_ids functionsFilter pipeline aggregated w :
  snd (funcChain_of functionsFilter pipeline aggregated w) = w
  ∧ ∀ chain,
      fst (funcChain_of functionsFilter pipeline aggregated w) = Normal chain →
      map step_id chain
      = map functionId (List.filter (passes functionsFilter) aggregated).
Proof.
  split; [apply funcChain_of_pure|].
  rewrite funcChain_of_settled. simpl. intros chain Hchain.
  apply (Forall2_map_eq functionId step_id).
  eapply (settle_all_Forall2 (toStep pipeline)
            (λ f step, step_id step = functionId f)); [|exact Hchain].
  intros f w0 step w1. apply toStep_id.
Qed.

(** X4: When the functions filter refuses the id "udf.PIPELINE", as a filter that
    selects functions by their declared ids does, the chain has no pipeline
    step: every step is a builtin, and the UDFs that were resolved are
    never run by the chain. *)
Theorem pipeline_filtered_out p pipeline fs udfFuncChain w chain w' :
  p "udf.PIPELINE" = false →
  funcChain_of (Some p) pipeline (aggregatedFunctions fs udfFuncChain) w
  = (Normal chain, w') →
  Forall (λ step, startsWith (step_id step) "builtin." = true) chain.
Proof.
  intros Hp Hchain. rewrite funcChain_of_settled in Hchain.
  injection Hchain as Hchain _.
  apply (settle_all_Forall2 (toStep pipeline)
           (λ f step, step_id step = functionId f)) in Hchain;
    [|intros f w0 step w1; apply toStep_id].
  assert (Hknown : Forall (λ f, startsWith (functionId f) "builtin." = true)
                     (List.filter (passes (Some p))
                        (aggregatedFunctions fs udfFuncChain))).
  { apply Forall_forall. intros f [Hin Hpass]%list_elem_of_In%filter_In.
    destruct (aggregatedFunctions_known _ _ _ Hin) as [Hb|Hpipe]; [done|].
    unfold passes in Hpass. rewrite Hpipe, Hp in Hpass. done. }
  induction Hchain as [|f step l chain' Hid _ IH]; [constructor|].
  inversion Hknown as [|?? Hf Hrest]; subst.
  constructor; [by rewrite Hid|by apply IH].
Qed.

(** X5: A builtin that the registry does not have is fatal when the chain is
    built: the first aggregated reference whose id starts with "builtin."
    and that [getBuiltinFunction] does not know makes the handler throw
    "Unknown function <id>", and building the chain leaves the world as it
    was. *)
Theorem unknown_builtin_throws functionsFilter pipeline aggregated
    before f after w :
  List.filter (passes functionsFilter) aggregated = before ++ f :: after →
  Forall (λ g, ∃ step, fst (toStep pipeline g w) = Normal step) before →
  startsWith (functionId f) "builtin." = true →
  getBuiltinFunction (functionId f) = None →
  funcChain_of functionsFilter pipeline aggregated w
  = (Thrown (newError ("Unknown function " +:+ functionId f)), w).
Proof.
  intros Hsplit Hbefore Hbuiltin Hnone.
  pose proof (funcChain_of_pure functionsFilter pipeline aggregated w)
    as Hpure.
  destruct (funcChain_of functionsFilter pipeline aggregated w)
    as [c w'] eqn:Hrun.
  simpl in Hpure. subst w'. f_equal.
  rewrite funcChain_of_settled in Hrun. cbv zeta in Hrun.
  rewrite Hsplit, map_app, settle_all_app in Hrun. simpl in Hrun.
  rewrite settle_all_pure in Hrun by (intros; apply toStep_pure).
  assert (Hf : toStep pipeline f w
               = (Thrown (newError ("Unknown function " +:+ functionId f)), w)).
  { unfold toStep. rewrite Hbuiltin. unfold bind. by rewrite Hnone. }
  rewrite Hf in Hrun.
  destruct (settle_all (map (toStep pipeline) after) w) as [ds w2].
  simpl in Hrun. injection Hrun as <-.
  destruct (all_fulfilled_rejected
              (fst (settle_all (map (toStep pipeline) before) w)) ds
              (newError ("Unknown function " +:+ functionId f)))
    as (e' & -> & He'). f_equal.
  assert (Hok : ∃ l, all_fulfilled
                       (fst (settle_all (map (toStep pipeline) before) w))
                     = Normal l).
  { clear -Hbefore. induction Hbefore as [|g gs [step Hg] _ [l IH]]; simpl.
    - by eexists.
    - pose proof (toStep_pure pipeline g w) as Hw.
      destruct (toStep pipeline g w) as [c w1]. simpl in *. subst.
      destruct (settle_all (map (toStep pipeline) gs) w) as [cs w2].
      simpl in *. rewrite IH. by eexists. }
  destruct Hok as [l Hl]. by eapply He'.
Qed.

(** X6: The UDF chain has one step per [udf.] reference of the function list,
    in declared order, each under the reference's id and with the
    reference's options as [config], and each with the empty context. *)
Theorem udfFuncChain_of_steps connection fs w chain w' :
  udfFuncChain_of connection fs w = (Normal chain, w') →
  Forall2 (λ f step,
             step_id step = functionId f
             ∧ step_config step = functionOptions f
             ∧ step_context step = ∅)
    (List.filter is_udf fs) chain.
Proof.
  intros Hchain. eapply Forall2_impl; [by eapply udfFuncChain_of_built|].
  by intros f step (Hid & Hconfig & Hcontext & _).
Qed.

Lemma filter_udf_refused (p : string → bool) (l : list FunctionRef) :
  (∀ id, startsWith id "udf." = true → p id = false) →
  List.filter is_udf (List.filter (passes (Some p)) l) = [].
Proof.
  intros Hp. induction l as [|f l IH]; simpl; [done|].
  destruct (p (functionId f)) eqn:Hpf; [|done]. simpl.
  destruct (is_udf f) eqn:Hudf; [|done].
  unfold is_udf in Hudf. by rewrite (Hp _ Hudf) in Hpf.
Qed.

(** X7: A functions filter that refuses every id that starts with "udf." makes
    the handler skip the UDFs altogether: no definition is fetched, nothing
    is compiled, the UDF chain is empty and the world is as it was. *)
Theorem filter_skips_udfs connection main (p : string → bool) w :
  (∀ id, startsWith id "udf." = true → p id = false) →
  udfFuncChain_of connection (functions_of connection main (Some p)) w
  = (Normal [], w).
Proof.
  intros Hp. unfold udfFuncChain_of, functions_of.
  rewrite filter_udf_refused by done. apply Promise_all_nil.
Qed.

(** ** A function without code *)

(** X24: A definition of the connection's workspace that has no code makes the
    callback of its reference throw the error of object-hash, "Object
    argument required.", however the callbacks are resumed, when it has
    done nothing but the lookup of the definition: the UDF cache is not
    read and nothing is compiled. *)
Theorem missing_code_throws connection r w def :
  let fid := substring_from 4 (functionId r) in
  fst (getCachedOrLoad functionsCache fid (λ key, getConfig "function" key) w)
  = Normal def →
  nullish def = false →
  strict_ne_string (prop def "workspaceId") (conn_workspaceId connection)
  = false →
  prop def "code" = JsUndefined →
  let run := resolveUdf connection r w in
  async_spec anything lookup_only
    (λ c _, c = Thrown (newError "Object argument required."))
    (resolveUdf_async connection r) w
  ∧ fst run = Thrown (newError "Object argument required.")
  ∧ udfCache_data (snd run) = udfCache_data w
  ∧ nextWrapper (snd run) = nextWrapper w
  ∧ ∃ evs, trace (snd run) = trace w ++ evs ∧ Forall is_functions_lookup evs.
Proof.
  intros fid Hlookup Hdef Hws Hcode run.
  assert (Hspec :
    async_spec anything lookup_only
      (λ c _, c = Thrown (newError "Object argument required."))
      (resolveUdf_async connection r) w).
  { unfold resolveUdf_async. fold fid.
    eapply (async_spec_abind anything lookup_only lookup_only_trans);
      [apply functions_lookup_async| |].
    - intros loaded w1. rewrite Hlookup. intros [= ->].
      apply (async_spec_sync anything lookup_only lookup_only_trans);
        unfold requireDefined_js; rewrite Hdef; [apply lookup_only_refl|].
      simpl. rewrite Hws, Hcode.
      apply (async_spec_sync anything lookup_only lookup_only_trans);
        [apply lookup_only_refl|done].
    - intros e w1. by rewrite Hlookup. }
  split; [exact Hspec|].
  unfold run. rewrite <- resolveUdf_uninterrupted. unfold uninterrupted.
  unfold async_spec in Hspec.
  destruct (resolveUdf_async connection r w) as [t w1].
  destruct Hspec as [Hw1 Ht].
  destruct (finish_spec anything lookup_only lookup_only_refl
              lookup_only_trans (λ _ _ _ _ _, I) _ t w1 w1 Ht I)
    as (Hfinish & wf & Hc & _).
  split; [done|].
  destruct (lookup_only_trans _ _ _ Hw1 Hfinish) as (? & ? & ? & ?).
  by repeat split.
Qed.

(** ** The compiled UDF of a function whose code has not changed *)

(** X8: While the cached entry of a function is live and has the hash of the
    current code, the handler takes the cached wrapper, compiles nothing,
    and pushes the expiry of the entry to ten minutes from now. *)
Theorem acquire_cached functionId userFunctionObj w e :
  udfCache_data w !! functionId = Some e →
  expired e w = false →
  prop userFunctionObj "code" ≠ JsUndefined →
  hash_ (entry_v e) = hash (prop userFunctionObj "code") →
  functionId ≠ "" →
  ∃ w',
    acquire functionId userFunctionObj w = (Normal (entry_v e), w')
    ∧ trace w'
      = trace w
        ++ [EvCacheGet UdfCache functionId; EvCacheTtl UdfCache functionId]
    ∧ udfCache_data w' !! functionId
      = Some (mkEntry (now w + udfTTL * 1000) (entry_v e))
    ∧ nextWrapper w' = nextWrapper w.
Proof.
  intros Hkey Hlive Hcode Hhash Hne.
  rewrite acquire_with_code by done. cbv zeta. unfold bind at 1.
  rewrite (getCachedOrLoad_served udfCache _ _ _ _ Hkey Hlive eq_refl).
  rewrite Hhash, String.eqb_refl. simpl negb. cbv iota.
  unfold ret at 1, bind at 1, bind at 1, NodeCache_ttl.
  destruct functionId as [|a fid]; [done|]. simpl.
  rewrite Hkey. unfold NodeCache_check.
  replace (expired e _) with false by done.
  simpl. unfold ret. eexists. split; [reflexivity|]. simpl.
  split; [by rewrite <- app_assoc|]. split; [|done].
  by rewrite lookup_insert_eq.
Qed.

(** X9: A function with a code that the UDF cache does not have is compiled
    once, and the wrapper is cached under the hash of its code for ten
    minutes. *)
Theorem acquire_cold functionId userFunctionObj w :
  udfCache_data w !! functionId = None →
  prop userFunctionObj "code" ≠ JsUndefined →
  let code := prop userFunctionObj "code" in
  let compiled := mkCached (nextWrapper w) (hash code) in
  ∃ w',
    acquire functionId userFunctionObj w = (Normal compiled, w')
    ∧ trace w'
      = trace w
        ++ [EvCacheGet UdfCache functionId;
            EvUDFWrapper (nextWrapper w) functionId
              (prop userFunctionObj "name") code;
            EvCacheSet UdfCache functionId;
            EvCacheTtl UdfCache functionId]
    ∧ udfCache_data w' !! functionId
      = Some (mkEntry (now w + udfTTL * 1000) compiled)
    ∧ nextWrapper w' = S (nextWrapper w).
Proof.
  intros Hkey Hcode code compiled.
  rewrite acquire_with_code by done. cbv zeta.
  unfold bind at 1, getCachedOrLoad, bind at 1, NodeCache_get.
  simpl. rewrite Hkey.
  unfold load_and_store, bind, UDFWrapper, NodeCache_set, ret, NodeCache_ttl.
  simpl. fold code. rewrite String.eqb_refl. simpl.
  destruct (string_nonempty functionId); simpl.
  - rewrite lookup_insert_eq. unfold NodeCache_check, expired. simpl.
    replace (now w + udfTTL * 1000 <? now w) with false
      by (symmetry; apply Z.ltb_ge; unfold udfTTL; lia).
    rewrite andb_false_r. simpl. eexists. split; [reflexivity|]. simpl.
    split; [by rewrite <- !app_assoc|]. split; [|done].
    by rewrite lookup_insert_eq.
  - eexists. split; [reflexivity|]. simpl.
    split; [by rewrite <- !app_assoc|]. split; [|done].
    by rewrite lookup_insert_eq.
Qed.

(** X10: When the entry of a function with a code has expired, reading it
    removes it, the release hook of the cache closes its wrapper, and only
    then is a new wrapper compiled from the current code and returned. *)
Theorem acquire_expired functionId userFunctionObj w e :
  udfCache_data w !! functionId = Some e →
  expired e w = true →
  prop userFunctionObj "code" ≠ JsUndefined →
  ∃ w',
    acquire functionId userFunctionObj w
    = (Normal (mkCached (nextWrapper w) (hash (prop userFunctionObj "code"))),
       w')
    ∧ wrapper_events (drop (length (trace w)) (trace w'))
      = [Closed (wrapper (entry_v e)); Compiled (nextWrapper w)].
Proof.
  intros Hkey Hexpired Hcode.
  destruct (acquire_expired_entry functionId userFunctionObj w e Hkey Hexpired
              Hcode)
    as (w' & Hacquire & Htrace).
  exists w'. split; [exact Hacquire|].
  by rewrite Htrace, drop_app_length.
Qed.

(** ** The captured variable across calls of [exec] *)

(** X11: After a call of [exec] has rebuilt a disposed wrapper, the step keeps the
    new wrapper: the next call of the same [exec] goes straight to it, and
    when it returns nothing more is compiled. *)
Theorem udf_exec_keeps_rebuilt cell initial functionId userFunctionObj code
    codeHash event ctx w e event' ctx' :
  let exec_ :=
    udf_exec cell initial functionId userFunctionObj code codeHash in
  fst (wrapper_userFunction (wrapper (default initial (cells w !! cell)))
         event ctx w) = Thrown e →
  is_disposed e = true →
  let w3 := snd (exec_ event ctx w) in
  let again := wrapper_userFunction (nextWrapper w) event' ctx' w3 in
  cells w3 !! cell = Some (mkCached (nextWrapper w) codeHash)
  ∧ ∀ result, fst again = Normal result → exec_ event' ctx' w3 = again.
Proof.
  intros exec_ Hfirst Hdisposed w3 again.
  pose proof (udf_exec_run cell initial functionId userFunctionObj code
                codeHash event ctx w) as Hrun.
  simpl in Hrun. rewrite Hfirst, Hdisposed in Hrun.
  destruct Hrun as (w2 & Hrun & _ & _ & _ & Hcell & _).
  assert (Hcell3 : cells w3 !! cell = Some (mkCached (nextWrapper w) codeHash)).
  { unfold w3, exec_. rewrite Hrun, wrapper_userFunction_world. exact Hcell. }
  split; [exact Hcell3|]. intros result Hagain.
  pose proof (udf_exec_run cell initial functionId userFunctionObj code
                codeHash event' ctx' w3) as Hnext.
  simpl in Hnext. rewrite Hcell3 in Hnext. simpl in Hnext.
  fold again in Hnext. by rewrite Hagain in Hnext.
Qed.

(** ** The event context *)

Lemma eventContext_lookup_other message connection retries k :
  k ∉ reduced_context_fields →
  eventContext message connection retries !! k = None.
Proof.
  unfold reduced_context_fields, eventContext. intros Hk.
  repeat (rewrite lookup_insert_ne; [|intros <-; apply Hk; set_solver]).
  apply lookup_empty.
Qed.

(** X12: The reduced context of the UDF pipeline is the event context that the
    handler assembled: picking the six fields out of the event context
    extended with any other properties, such as [$system], gives the event
    context back. *)
Theorem reduced_event_context message connection retries (extra : Context) :
  (∀ k, k ∈ reduced_context_fields → extra !! k = None) →
  pick (extra ∪ eventContext message connection retries)
    reduced_context_fields
  = eventContext message connection retries.
Proof.
  intros Hextra. apply map_eq. intros k. rewrite lookup_pick.
  destruct (decide (k ∈ reduced_context_fields)) as [Hin|Hout].
  - rewrite lookup_union_r; [done|]. by apply Hextra.
  - by rewrite eventContext_lookup_other.
Qed.

(** ** Metrics and the final check *)

(** X13: Once the chain has run, its execution log goes to the metrics before
    [checkError] looks at the result: the metrics are emitted also when
    the handler then throws for a retry; when the executor itself throws, no
    metrics are emitted. *)
Theorem metrics_before_checkError raw message connection functionsFilter
    retries w w1 main udfFuncChain w2 funcChain w3 :
  raw ≠ "" →
  JSON_parse raw = inr message →
  getCachedOrLoad connectionsCache (msg_connectionId message)
    getEnrichedConnection (log_event (EvJsonParse raw) w)
  = (Normal (Some connection), w1) →
  mainFunction message connection w1 = (Normal main, w1) →
  udfFuncChain_of connection
    (functions_of connection main functionsFilter) w1
  = (Normal udfFuncChain, w2) →
  let store := {| store_hash := "store:" +:+ conn_id connection |} in
  funcChain_of functionsFilter
    (udfPipelineFunc udfFuncChain connection redisLogger store)
    (aggregatedFunctions (functions_of connection main functionsFilter)
       udfFuncChain) w2
  = (Normal funcChain, w3) →
  let run := rotorMessageHandler (Some raw) functionsFilter retries w in
  match run_chain funcChain (msg_httpPayload message) connection redisLogger
          store (eventContext message connection retries) w3 with
  | (Normal chainRes, w4) =>
      run = (match checkError chainRes with
             | Some e => Thrown e
             | None => Normal tt
             end,
             log_event (EvLogMetrics (conn_workspaceId connection)
                          (msg_messageId message)) w4)
  | (Thrown e, w4) => run = (Thrown e, w4)
  end.
Proof.
  intros Hraw Hparse Hlookup Hmain Hudf store Hchain run.
  assert (Hrun : run
    = (let! chainRes :=
         run_chain funcChain (msg_httpPayload message) connection redisLogger
           store (eventContext message connection retries) in
       run! logMetrics (conn_workspaceId connection) (msg_messageId message)
              (execLog chainRes) in
       check_error chainRes) w3).
  { subst run. rewrite rotorMessageHandler_nonempty by done.
    rewrite (handle_message_after_lookup _ _ _ _ _ _ _ Hparse Hlookup).
    unfold bind at 1. rewrite Hmain. unfold bind at 1. rewrite Hudf.
    unfold bind at 1. fold store. by rewrite Hchain. }
  clearbody run.
  destruct (run_chain funcChain _ _ _ _ _ w3) as [[chainRes|e] w4] eqn:Hran;
    rewrite Hrun; unfold bind at 1; rewrite Hran; [|done].
  unfold bind, logMetrics, modify, check_error.
  by destruct (checkError chainRes).
Qed.
End MoreHandler.

(** ** The local replay *)

Section ReplayProperties.
Context `{Externals} (JSON_stringify : JsVal → string).

Lemma replay_returns events w :
  fst (replay JSON_stringify events w) = Normal tt.
Proof.
  revert w. induction events as [|event rest IH]; intros w; [done|].
  simpl. unfold bind, try_catch.
  destruct (rotorMessageHandler _ None 0 w) as [[[]|e] w1]; apply IH.
Qed.

(** X14: The replay of a list of events never throws, whatever the handler does
    with the events, and an event that fails does not stop the events after
    it: replaying a list is replaying its first part and then the rest. *)
Theorem replay_app events1 events2 w :
  fst (replay JSON_stringify (events1 ++ events2) w) = Normal tt
  ∧ replay JSON_stringify (events1 ++ events2) w
    = replay JSON_stringify events2
        (snd (replay JSON_stringify events1 w)).
Proof.
  split; [apply replay_returns|].
  revert w. induction events1 as [|event rest IH]; intros w; [done|].
  simpl. unfold bind, try_catch.
  destruct (rotorMessageHandler _ None 0 w) as [[[]|e] w1]; apply IH.
Qed.
End ReplayProperties.

(** ** Wrappers are allocated before they are cached *)

Section Allocation.
Context `{Externals}.

Lemma triple_bind {A B} P (m : M A) Q (k : A → M B) Q' E :
  triple P m Q E → (∀ a, triple (Q a) (k a) Q' E) → triple P (bind m k) Q' E.
Proof.
  intros Hm Hk w HP. unfold bind. specialize (Hm w HP).
  destruct (m w) as [[a|e] w1]; [|done]. by apply Hk.
Qed.

Lemma triple_ret {A} (P : World → Prop) (a : A) (Q : A → World → Prop) E :
  (∀ w, P w → Q a w) → triple P (ret a) Q E.
Proof. intros HQ w HP. by apply HQ. Qed.

Lemma triple_weaken {A} (P P' : World → Prop) (m : M A)
    (Q Q' : A → World → Prop) (E E' : World → Prop) :
  triple P m Q E → (∀ w, P' w → P w) → (∀ a w, Q a w → Q' a w) →
  (∀ w, E w → E' w) → triple P' m Q' E'.
Proof.
  intros Hm HP HQ HE w HP'. specialize (Hm w (HP w HP')).
  destruct (m w) as [[a|e] w1]; auto.
Qed.

Lemma allocated_insert n (w w' : World) key e :
  allocated_at n w →
  (wrapper (entry_v e) < n)%nat →
  udfCache_data w' = <[key := e]> (udfCache_data w) →
  cells w' = cells w → nextWrapper w' = nextWrapper w →
  allocated_at n w'.
Proof.
  intros [[Hcache Hcells] Hn] He Hdata Hc Hnext. split; [|congruence].
  split.
  - intros k e'. rewrite Hdata, Hnext, Hn.
    intros [[_ <-]|[_ Hk]]%lookup_insert_Some; [done|].
    rewrite <- Hn. by eapply Hcache.
  - intros cell cached. rewrite Hc, Hnext. apply Hcells.
Qed.

Lemma allocated_delete n (w w' : World) key :
  allocated_at n w →
  udfCache_data w' = delete key (udfCache_data w) →
  cells w' = cells w → nextWrapper w' = nextWrapper w →
  allocated_at n w'.
Proof.
  intros [[Hcache Hcells] Hn] Hdata Hc Hnext. split; [|congruence].
  split.
  - intros k e'. rewrite Hdata, Hnext.
    intros [_ Hk]%lookup_delete_Some. by eapply Hcache.
  - intros cell cached. rewrite Hc, Hnext. apply Hcells.
Qed.

Lemma allocated_same n (w w' : World) :
  allocated_at n w →
  udfCache_data w' = udfCache_data w →
  cells w' = cells w → nextWrapper w' = nextWrapper w →
  allocated_at n w'.
Proof.
  intros [[Hcache Hcells] Hn] Hdata Hc Hnext. split; [|congruence].
  split.
  - intros k e'. rewrite Hdata, Hnext. apply Hcache.
  - intros cell cached. rewrite Hc, Hnext. apply Hcells.
Qed.

Lemma udfCache_get_allocated n key :
  triple (allocated_at n) (NodeCache_get udfCache key)
    (λ found w, allocated_at n w
                ∧ ∀ cached, found = Some cached → (wrapper cached < n)%nat)
    (λ _, False).
Proof.
  intros w Hw. unfold NodeCache_get, NodeCache_check, NodeCache_del. simpl.
  destruct (udfCache_data w !! key) as [e|] eqn:Hkey; simpl.
  - destruct (expired e _); simpl.
    + split; [|done]. by eapply (allocated_delete n w _ key).
    + split; [by eapply (allocated_same n w)|].
      intros cached [= <-]. destruct Hw as [[Hcache _] <-]. by eapply Hcache.
  - split; [by eapply (allocated_same n w)|done].
Qed.

Lemma udfCache_set_allocated n key cached :
  (wrapper cached < n)%nat →
  triple (allocated_at n) (NodeCache_set udfCache key cached)
    (λ _, allocated_at n) (λ _, False).
Proof.
  intros Hcached w Hw. unfold NodeCache_set. simpl.
  eapply (allocated_insert n w _ key); [exact Hw| |reflexivity..]. done.
Qed.

Lemma udfCache_ttl_allocated n key ttl :
  triple (allocated_at n) (NodeCache_ttl udfCache key ttl)
    (λ _, allocated_at n) (λ _, False).
Proof.
  intros w Hw. unfold NodeCache_ttl, NodeCache_check, NodeCache_del. simpl.
  destruct (string_nonempty key); simpl; [|by eapply (allocated_same n w)].
  destruct (udfCache_data w !! key) as [e|] eqn:Hkey; simpl;
    [|by eapply (allocated_same n w)].
  assert (He : (wrapper (entry_v e) < n)%nat).
  { destruct Hw as [[Hcache _] <-]. by eapply Hcache. }
  destruct (expired e _); simpl.
  - by eapply (allocated_delete n w _ key).
  - destruct (0 <=? _); simpl.
    + eapply (allocated_insert n w _ key); [exact Hw| |reflexivity..]. done.
    + rewrite Hkey. by eapply (allocated_delete n w _ key).
Qed.

Lemma UDFWrapper_allocated n id name code :
  triple (allocated_at n) (UDFWrapper id name code)
    (λ handle w, handle = n ∧ allocated_at (S n) w) (λ _, False).
Proof.
  intros w [[Hcache Hcells] Hn]. unfold UDFWrapper. simpl.
  split; [done|]. split; [|by rewrite Hn]. split; simpl.
  - intros k e Hk. specialize (Hcache k e Hk). lia.
  - intros cell cached Hc. specialize (Hcells cell cached Hc). lia.
Qed.

Lemma allocated_at_from n w : allocated_at n w → allocated_from n w.
Proof. intros [Hw <-]. by split. Qed.

Lemma allocated_from_S n w : allocated_from (S n) w → allocated_from n w.
Proof. intros [Hw Hn]. split; [done|lia]. Qed.

Lemma keeps_allocated_refl w : keeps_allocated w w.
Proof. by split. Qed.

Lemma keeps_allocated_trans w1 w2 w3 :
  keeps_allocated w1 w2 → keeps_allocated w2 w3 → keeps_allocated w1 w3.
Proof. intros [H1 Hn1] [H2 Hn2]. split; [auto|lia]. Qed.

Lemma allocated_since_step w0 w w' :
  allocated_since w0 w → keeps_allocated w w' → allocated_since w0 w'.
Proof. intros [Hw Hn] [Hw' Hn']. split; [auto|lia]. Qed.

Lemma allocated_since_after w0 w w' :
  allocated_since w0 w → keeps_allocated w w' → allocated_since w' w'.
Proof. intros [Hw Hn] [Hw' Hn']. split; [auto|lia]. Qed.

Lemma lookup_only_keeps w w' : lookup_only w w' → keeps_allocated w w'.
Proof.
  intros (Hcache & Hnext & Hcells & _). split; [|lia].
  intros Hw. by eapply (allocated_same (nextWrapper w) w).
Qed.

Lemma held_stable c w w' : held c w → allocated_since w w' → held c w'.
Proof.
  intros [_ Hc] [Hw' Hn]. split; [done|].
  intros cached Heq. specialize (Hc cached Heq). lia.
Qed.

Lemma UDFWrapper_keeps id name code w :
  wrappers_allocated w →
  ∃ w', UDFWrapper id name code w = (Normal (nextWrapper w), w')
        ∧ wrappers_allocated w'
        ∧ nextWrapper w' = S (nextWrapper w).
Proof.
  intros Hw.
  pose proof (UDFWrapper_allocated (nextWrapper w) id name code w
                (conj Hw eq_refl)) as Hnew.
  unfold UDFWrapper in *. simpl in *. destruct Hnew as [_ [? ?]].
  by eexists.
Qed.

Lemma udfCache_set_keeps key cached w :
  wrappers_allocated w →
  (wrapper cached < nextWrapper w)%nat →
  ∃ w', NodeCache_set udfCache key cached w = (Normal tt, w')
        ∧ wrappers_allocated w'
        ∧ nextWrapper w' = nextWrapper w.
Proof.
  intros Hw Hcached.
  pose proof (udfCache_set_allocated (nextWrapper w) key cached Hcached w
                (conj Hw eq_refl)) as Hset.
  unfold NodeCache_set in *. simpl in *. destruct Hset. by eexists.
Qed.

Lemma udfCache_ttl_keeps key ttl w :
  wrappers_allocated w →
  ∃ b w', NodeCache_ttl udfCache key ttl w = (Normal b, w')
          ∧ wrappers_allocated w'
          ∧ nextWrapper w' = nextWrapper w.
Proof.
  intros Hw.
  pose proof (udfCache_ttl_allocated (nextWrapper w) key ttl w
                (conj Hw eq_refl)) as Httl.
  destruct (NodeCache_ttl_returns udfCache key ttl w) as [b Hb].
  destruct (NodeCache_ttl udfCache key ttl w) as [c w1]. simpl in *.
  subst c. destruct Httl. by exists b, w1.
Qed.

Lemma udfCache_get_keeps key w :
  wrappers_allocated w →
  ∃ found w',
    NodeCache_get udfCache key w = (Normal found, w')
    ∧ (∀ cached, found = Some cached → (wrapper cached < nextWrapper w)%nat)
    ∧ wrappers_allocated w'
    ∧ nextWrapper w' = nextWrapper w.
Proof.
  intros Hw.
  pose proof (udfCache_get_allocated (nextWrapper w) key w
                (conj Hw eq_refl)) as Hget.
  destruct (NodeCache_get udfCache key w) as [[found|e] w1]; [|done].
  destruct Hget as [[Hw1 Hn] Hfound]. by exists found, w1.
Qed.

Ltac keeps :=
  first [ apply keeps_allocated_refl
        | split; [by intros _|simpl; lia] ].

Lemma compile_async_held key name code codeHash w :
  wrappers_allocated w →
  async_spec allocated_since keeps_allocated held
    (lift (let! compiled := UDFWrapper key name code in
           ret (mkCached compiled codeHash))) w.
Proof.
  intros Hw. destruct (UDFWrapper_keeps key name code w Hw)
    as (w1 & Hrun & Hw1 & Hn1).
  apply async_spec_lift; unfold bind; rewrite Hrun; simpl; [keeps|].
  split; [done|]. intros cached [= <-]. simpl. lia.
Qed.

Lemma udfCache_lookup_async functionId name code codeHash w :
  wrappers_allocated w →
  async_spec allocated_since keeps_allocated held
    (await (getCachedOrLoad_async udfCache functionId (λ key,
       lift (let! compiled := UDFWrapper key name code in
             ret (mkCached compiled codeHash))))) w.
Proof.
  intros Hw.
  apply (async_spec_await allocated_since keeps_allocated
           keeps_allocated_refl); [apply held_stable|].
  unfold getCachedOrLoad_async.
  destruct (udfCache_get_keeps functionId w Hw)
    as (found & w1 & Hget & Hfound & Hw1 & Hn1).
  apply (async_spec_sync allocated_since keeps_allocated
           keeps_allocated_trans); rewrite Hget; simpl fst; simpl snd;
    [keeps|].
  assert (Hload :
    async_spec allocated_since keeps_allocated held
      (load_and_store_async udfCache functionId (λ key,
         lift (let! compiled := UDFWrapper key name code in
               ret (mkCached compiled codeHash)))) w1).
  { unfold load_and_store_async.
    apply (async_spec_abind allocated_since keeps_allocated
             keeps_allocated_trans held).
    - apply (async_spec_await allocated_since keeps_allocated
               keeps_allocated_refl); [apply held_stable|].
      by apply compile_async_held.
    - intros cached w2 [Hw2 Hcached]. specialize (Hcached cached eq_refl).
      destruct (udfCache_set_keeps functionId cached w2 Hw2 Hcached)
        as (w3 & Hset & Hw3 & Hn3).
      apply (async_spec_sync allocated_since keeps_allocated
               keeps_allocated_trans); rewrite Hset; simpl fst; simpl snd;
        [keeps|].
      apply (async_spec_ret allocated_since keeps_allocated
               keeps_allocated_refl).
      split; [done|]. intros ? [= <-]. lia.
    - intros e w2 [Hw2 _]. by split. }
  destruct found as [cached|]; [|exact Hload].
  change (truthy cached) with true. cbv iota.
  apply (async_spec_ret allocated_since keeps_allocated
           keeps_allocated_refl).
  split; [done|]. intros ? [= <-]. rewrite Hn1. by apply Hfound.
Qed.

(** Every segment of the callback of a reference keeps the wrappers
    allocated, as long as the other callbacks do. *)
Lemma resolveUdf_async_allocated connection f w :
  wrappers_allocated w →
  async_spec allocated_since keeps_allocated (λ _ w', wrappers_allocated w')
    (resolveUdf_async connection f) w.
Proof.
  intros Hw. unfold resolveUdf_async.
  eapply (async_spec_abind allocated_since keeps_allocated
            keeps_allocated_trans (λ _ w', wrappers_allocated w' ∧ True)).
  - apply (async_spec_invariant allocated_since keeps_allocated
             wrappers_allocated (λ _ _, True)); [by intros ?? []| |done|].
    { intros w1 w2 Hw1 [Hkeeps _]. auto. }
    eapply async_spec_mono; [| | |apply functions_lookup_async]; try done.
    apply lookup_only_keeps.
  - intros loaded w1 [Hw1 _].
    apply (async_spec_sync allocated_since keeps_allocated
             keeps_allocated_trans);
      unfold requireDefined_js; destruct (nullish loaded); simpl;
      try keeps; [done|].
    destruct (strict_ne_string _ _).
    { by apply (async_spec_throw allocated_since keeps_allocated
                  keeps_allocated_refl). }
    assert (Hcode : prop loaded "code" = JsUndefined
                    ∨ prop loaded "code" ≠ JsUndefined)
      by (destruct (prop loaded "code"); auto).
    apply (async_spec_sync allocated_since keeps_allocated
             keeps_allocated_trans);
      (destruct Hcode as [Hcode|Hcode];
       [rewrite Hcode|rewrite (object_hash_defined _ _ Hcode)]);
      simpl; try keeps; [done|].
    set (fid := substring_from 4 (functionId f)) in *.
    set (codeHash := hash (prop loaded "code")) in *.
    eapply (async_spec_abind allocated_since keeps_allocated
              keeps_allocated_trans held);
      [by apply udfCache_lookup_async| |by intros e w2 [Hw2 _]].
    intros cached w2 [Hw2 Hcached]. specialize (Hcached cached eq_refl).
    assert (Hfinal : ∀ cached' w3,
              wrappers_allocated w3 →
              async_spec allocated_since keeps_allocated
                (λ _ w', wrappers_allocated w')
                (sync! _ := NodeCache_ttl udfCache fid udfTTL in
                 sync! cell := new_cell in
                 lift (ret {| step_id := functionId f;
                              step_config := functionOptions f;
                              exec := udf_exec cell cached' fid loaded
                                        (prop loaded "code") codeHash;
                              step_context := ∅ |})) w3).
    { intros cached' w3 Hw3.
      destruct (udfCache_ttl_keeps fid udfTTL w3 Hw3)
        as (b & w4 & Httl & Hw4 & Hn4).
      apply (async_spec_sync allocated_since keeps_allocated
               keeps_allocated_trans); rewrite Httl; simpl fst; simpl snd;
        [keeps|].
      assert (Hw5 : wrappers_allocated (snd (new_cell w4))).
      { destruct Hw4 as [Hcache Hcells]. by split. }
      apply (async_spec_sync allocated_since keeps_allocated
               keeps_allocated_trans); simpl fst; [keeps|].
      by apply (async_spec_ret allocated_since keeps_allocated
                  keeps_allocated_refl). }
    destruct (UDFWrapper_keeps fid (prop loaded "name") (prop loaded "code")
                w2 Hw2) as (w3 & Hcompile & Hw3 & Hn3).
    destruct (udfCache_set_keeps fid (mkCached (nextWrapper w2) codeHash)
                w3 Hw3 ltac:(simpl; lia)) as (w4 & Hset & Hw4 & Hn4).
    apply (async_spec_sync allocated_since keeps_allocated
             keeps_allocated_trans);
      destruct (negb (hash_ cached =? codeHash)%string);
      unfold bind; rewrite ?Hcompile, ?Hset; simpl fst; simpl snd;
      try keeps.
    + by apply Hfinal.
    + by apply Hfinal.
  - by intros e w1 [Hw1 _].
Qed.

(** X15: Resolving the UDF references keeps the wrappers allocated: if every
    wrapper held by the UDF cache or by a captured variable was handed out
    by the UDF compiler, this is so afterwards, and the compiler's count
    only grows; so a wrapper that is compiled later is none of those that
    are cached. *)
Theorem udfFuncChain_of_allocated connection fs w :
  wrappers_allocated w →
  let w' := snd (udfFuncChain_of connection fs w) in
  wrappers_allocated w'
  ∧ (nextWrapper w ≤ nextWrapper w')%nat
  ∧ ∀ key e, udfCache_data w' !! key = Some e →
             wrapper (entry_v e) ≠ nextWrapper w'.
Proof.
  intros Hw w'.
  assert (Hkeeps : keeps_allocated w w').
  { unfold w', udfFuncChain_of, Promise_all.
    pose proof (settle_spec allocated_since keeps_allocated
                  keeps_allocated_refl keeps_allocated_trans
                  allocated_since_step allocated_since_after
                  (map (λ _ : FunctionRef,
                          λ (_ : Completion FuncStep) w', wrappers_allocated w')
                     (List.filter is_udf fs))
                  (eventLoop w)
                  (map (resolveUdf_async connection) (List.filter is_udf fs))
                  w) as Hspec.
    destruct (settle _ _ w) as [[cs first] w1]. simpl.
    apply Hspec; [by split|].
    apply Forall2_fmap, Forall_Forall2_diag, Forall_forall.
    intros f _ w1' [Hw1' _]. by apply resolveUdf_async_allocated. }
  destruct Hkeeps as [Hw' Hn]. specialize (Hw' Hw).
  split; [done|]. split; [done|].
  intros key e Hkey. destruct Hw' as [Hcache _].
  specialize (Hcache key e Hkey). lia.
Qed.
End Allocation.

(** * The store of a connection *)

Lemma store_hash_inj a b : "store:" +:+ a = "store:" +:+ b → a = b.
Proof. simpl. intros Heq. by injection Heq. Qed.

Lemma hget_hset hash field value r :
  hget hash field (hset hash field value r) = Some value.
Proof. unfold hget, hset. rewrite lookup_insert_eq. simpl. apply lookup_insert_eq. Qed.

Lemma hget_hset_other hash field value hash' field' r :
  hash ≠ hash' ∨ field ≠ field' →
  hget hash' field' (hset hash field value r) = hget hash' field' r.
Proof.
  intros Hne. unfold hget, hset.
  destruct (decide (hash = hash')) as [<-|Hhash].
  - destruct Hne as [?|Hfield]; [done|].
    rewrite lookup_insert_eq. simpl. rewrite lookup_insert_ne by done.
    by destruct (r !! hash).
  - by rewrite lookup_insert_ne.
Qed.

Lemma hget_hdel hash field r : hget hash field (hdel hash field r) = None.
Proof.
  unfold hget, hdel. destruct (r !! hash) as [fields|] eqn:Hhash.
  - rewrite lookup_insert_eq. simpl. apply lookup_delete_eq.
  - by rewrite Hhash.
Qed.

Lemma hget_hdel_other hash field hash' field' r :
  hash ≠ hash' ∨ field ≠ field' →
  hget hash' field' (hdel hash field r) = hget hash' field' r.
Proof.
  intros Hne. unfold hget, hdel.
  destruct (r !! hash) as [fields|] eqn:Hhash; [|done].
  destruct (decide (hash = hash')) as [<-|Hne'].
  - destruct Hne as [?|Hfield]; [done|].
    rewrite lookup_insert_eq, Hhash. simpl. by rewrite lookup_delete_ne.
  - by rewrite lookup_insert_ne.
Qed.

Section StoreProperties.
Context (JSON_parse_value : string → Exn + JsVal)
        (JSON_stringify : JsVal → string).

(** X16: What a function stores under a key it reads back under that key, as
    long as the value survives the JSON round trip and its JSON text is not
    empty. *)
Theorem store_get_set connection key obj r :
  JSON_parse_value (JSON_stringify obj) = inr obj →
  JSON_stringify obj ≠ "" →
  store_get JSON_parse_value connection key
    (store_set JSON_stringify connection key obj r)
  = Normal obj.
Proof.
  intros Hround Hne. unfold store_get, store_set. rewrite hget_hset.
  destruct (JSON_stringify obj) as [|a s] eqn:Htext; [done|].
  simpl. by rewrite Hround.
Qed.

(** X17: The stores of two connections do not meet, and neither do two keys of
    one store: setting or deleting a key of one connection leaves what any
    other connection, or any other key, reads. *)
Theorem store_isolation connection key obj connection' key' r :
  conn_id connection ≠ conn_id connection' ∨ key ≠ key' →
  store_get JSON_parse_value connection' key'
    (store_set JSON_stringify connection key obj r)
  = store_get JSON_parse_value connection' key' r
  ∧ store_get JSON_parse_value connection' key' (store_del connection key r)
    = store_get JSON_parse_value connection' key' r.
Proof.
  intros Hne.
  assert (Hne' : "store:" +:+ conn_id connection
                 ≠ "store:" +:+ conn_id connection' ∨ key ≠ key').
  { destruct Hne as [Hid|Hkey]; [left|by right].
    intros Heq. by apply Hid, store_hash_inj. }
  unfold store_get, store_set, store_del.
  by rewrite hget_hset_other, hget_hdel_other.
Qed.

(** X18: A deleted key reads as [undefined], whatever was stored, and so does a
    key whose stored text is empty. *)
Theorem store_get_del connection key r :
  store_get JSON_parse_value connection key (store_del connection key r)
  = Normal JsUndefined
  ∧ store_get JSON_parse_value connection key
      (hset ("store:" +:+ conn_id connection) key "" r)
    = Normal JsUndefined.
Proof.
  unfold store_get, store_del. by rewrite hget_hdel, hget_hset.
Qed.
End StoreProperties.

(** * The cookie parser of jitsu-js *)

Section ParseProperties.
Context (decodeURIComponent : JsVal → Exn + string)
        (JSON_parse : JsVal → option JsVal).

(** X19: [parse] throws in two cases only, both before its [try]: the input
    is a boolean, a number or an object, which has no [indexOf] to call, and
    the error is the TypeError of that call; or the input is a string that
    starts with "%7B%22", or an array whose first item is that string, and
    [decodeURIComponent] throws on it, and the error is that one.  What
    [JSON.parse] throws is caught. *)
Theorem parse_throws_only_decoding parseFloat input e :
  parse decodeURIComponent JSON_parse parseFloat input = Thrown e
  ↔ (match input with
     | JsBool _ | JsNum _ | JsObj _ => True
     | _ => False
     end
     ∧ e = TypeError "input.indexOf is not a function")
    ∨ (((∃ s, input = JsStr s ∧ startsWith s "%7B%22" = true)
        ∨ (∃ items, input = JsArr (JsStr "%7B%22" :: items)))
       ∧ decodeURIComponent input = inl e).
Proof.
  unfold parse. split.
  - destruct input as [| |b|n|s|[|[| | | |first| |] items]|fields]; simpl;
      try done; try (intros [= <-]; by left).
    + destruct (startsWith s "%7B%22") eqn:Hprefix; [|done].
      destruct (decodeURIComponent _) as [e'|decoded] eqn:Hdecode; [|done].
      intros [= <-]. right. split; [left; by exists s|done].
    + destruct (String.eqb first "%7B%22") eqn:Hfirst; [|done].
      apply String.eqb_eq in Hfirst as ->.
      destruct (decodeURIComponent _) as [e'|decoded] eqn:Hdecode; [|done].
      intros [= <-]. right. split; [right; by exists items|done].
  - intros [[Hinput ->]|[[(s & -> & Hprefix)|(items & ->)] Hdecode]].
    + by destruct input.
    + simpl. by rewrite Hprefix, Hdecode.
    + simpl. by rewrite Hdecode.
Qed.

Lemma parse_tail_nonempty value : parse_tail value ≠ JsStr "".
Proof. by destruct value as [| | | |[|]| |]. Qed.

(** X20: [parse] never returns the empty string, whatever the input, and a
    string that is not JSON and does not start with "%7B%22" comes back as
    it is, unless it is empty: the empty string, like a missing input, gives
    [undefined]. *)
Theorem parse_not_json parseFloat input :
  (∀ value,
     parse decodeURIComponent JSON_parse parseFloat input = Normal value →
     value ≠ JsStr "")
  ∧ (∀ s, input = JsStr s → startsWith s "%7B%22" = false →
          JSON_parse (JsStr s) = None →
          parse decodeURIComponent JSON_parse parseFloat input
          = Normal (if string_nonempty s then JsStr s else JsUndefined))
  ∧ (input = JsUndefined → JSON_parse JsUndefined = None →
     parse decodeURIComponent JSON_parse parseFloat input
     = Normal JsUndefined).
Proof.
  assert (Hvalue : ∀ value,
            parse_value JSON_parse parseFloat value ≠ JsStr "").
  { intros value. unfold parse_value.
    destruct (JSON_parse _) as [parsed|]; [|apply parse_tail_nonempty].
    destruct (is_string parsed "true"); [done|].
    destruct (is_string parsed "false"); [done|].
    destruct (typeof_object parsed) eqn:Hobject;
      [by destruct parsed|apply parse_tail_nonempty]. }
  split; [|split].
  - intros value. unfold parse.
    destruct (indexOf_is_0 input) as [[|]|]; [| |done].
    + destruct (decodeURIComponent input); [done|]. by intros [= <-].
    + by intros [= <-].
  - intros s -> Hprefix Hjson. unfold parse, parse_value. simpl.
    rewrite Hprefix, Hjson. by destruct s.
  - intros -> Hjson. unfold parse, parse_value. simpl. by rewrite Hjson.
Qed.
End ParseProperties.

(** * The overage report *)

(** X21: The comparator of the overage rows is one that a sort can rely on: it
    is antisymmetric, it is transitive, and it is zero exactly on rows of
    the same month with the same overage. *)
Theorem compareRows_consistent :
  (∀ a b, compareRows b a = - compareRows a b)
  ∧ (∀ a b c, compareRows a b ≤ 0 → compareRows b c ≤ 0 →
              compareRows a c ≤ 0)
  ∧ (∀ a b, compareRows a b = 0
            ↔ month a = month b ∧ overageEvents a = overageEvents b).
Proof.
  unfold compareRows. split; [|split].
  - intros a b.
    destruct (- month b + month a =? 0) eqn:H1,
             (- month a + month b =? 0) eqn:H2; lia.
  - intros a b c.
    destruct (- month a + month b =? 0) eqn:H1,
             (- month b + month c =? 0) eqn:H2,
             (- month a + month c =? 0) eqn:H3; lia.
  - intros a b. destruct (- month a + month b =? 0) eqn:H1; lia.
Qed.

(** X22: The order of the report: a row comes before another exactly when its
    month is later or, in the same month, its overage is larger. *)
Theorem compareRows_descending a b :
  compareRows a b < 0
  ↔ month b < month a
    ∨ (month a = month b ∧ overageEvents b < overageEvents a).
Proof.
  unfold compareRows. destruct (- month a + month b =? 0) eqn:H1; lia.
Qed.

Lemma workspacesMap_snoc workspaces w :
  workspacesMap (workspaces ++ [w])
  = <[ws_id w := w]> (workspacesMap workspaces).
Proof. unfold workspacesMap. by rewrite foldl_app. Qed.

(** X23: The map of the workspaces gives, for an id, the last workspace of the
    list that has this id, and nothing for an id that no workspace has. *)
Theorem workspacesMap_lookup workspaces id :
  workspacesMap workspaces !! id
  = last (List.filter (λ w, String.eqb (ws_id w) id) workspaces).
Proof.
  induction workspaces as [|w workspaces IH] using rev_ind; [done|].
  rewrite workspacesMap_snoc, List.filter_app. simpl.
  destruct (String.eqb (ws_id w) id) eqn:Hid.
  - apply String.eqb_eq in Hid as <-.
    by rewrite lookup_insert_eq, last_snoc.
  - apply String.eqb_neq in Hid.
    by rewrite lookup_insert_ne, app_nil_r.
Qed.

(** * More examples *)

Lemma unknown_connection_not_memoized_witness :
  let run := @rotorMessageHandler demo (Some "{c1}") None 0
               (initial_world ∅ ∅) in
  fst run = Thrown (newError "Unknown connection: c1")
  ∧ fst (getCachedOrLoad connectionsCache "c1" getEnrichedConnection
           (advance 1000 (publish_connection "c1" demo_interleaved (snd run))))
    = Normal (Some demo_interleaved).
Proof.
  refine (@unknown_connection_not_memoized demo "{c1}" (demo_message "c1")
            None 0 (initial_world ∅ ∅) demo_interleaved 1000 _ _ _ _).
  - discriminate.
  - reflexivity.
  - vm_compute. reflexivity.
  - vm_compute. reflexivity.
Defined.

Lemma unknown_function_throws_witness :
  fst (@resolveUdf demo demo_foreign (mkFunctionRef "udf.f9" JsUndefined)
         (initial_world ∅ ∅))
  = Thrown (newError "Unknown function: f9").
Proof.
  refine (proj1 (@unknown_function_throws demo demo_foreign
                   (mkFunctionRef "udf.f9" JsUndefined) (initial_world ∅ ∅)
                   _ _)).
  - vm_compute. reflexivity.
  - vm_compute. reflexivity.
Defined.

Lemma pipeline_filtered_out_witness :
  let p := λ id, negb (String.eqb id "udf.PIPELINE") in
  let fs := functions_of demo_interleaved (demo_bulker "c1") (Some p) in
  let udfs := [mkStep "udf.f1" JsUndefined (λ event _, ret event) ∅] in
  ∃ chain w',
    @funcChain_of demo (Some p) (λ event _, ret event)
      (aggregatedFunctions fs udfs) demo_world
    = (Normal chain, w')
    ∧ Forall (λ step, startsWith (step_id step) "builtin." = true) chain.
Proof.
  intros p fs udfs.
  pose (run := @funcChain_of demo (Some p) (λ event _, ret event)
                 (aggregatedFunctions fs udfs) demo_world).
  pose (chain := match fst run with Normal chain => chain | _ => [] end).
  assert (Hrun : run = (Normal chain, snd run)) by (vm_compute; reflexivity).
  exists chain, (snd run). split; [exact Hrun|].
  apply (@pipeline_filtered_out demo p (λ event _, ret event) fs udfs
           demo_world chain (snd run)); [reflexivity|exact Hrun].
Defined.

Lemma unknown_builtin_throws_witness :
  let nosuch := mkFunctionRef "builtin.transformation.nosuch" JsUndefined in
  @funcChain_of demo None (λ event _, ret event)
    [nosuch; demo_bulker "c1"] demo_world
  = (Thrown (newError "Unknown function builtin.transformation.nosuch"),
     demo_world).
Proof.
  intros nosuch.
  apply (@unknown_builtin_throws demo None (λ event _, ret event)
           [nosuch; demo_bulker "c1"] [] nosuch [demo_bulker "c1"]
           demo_world).
  - reflexivity.
  - constructor.
  - reflexivity.
  - reflexivity.
Defined.

Lemma udfFuncChain_of_steps_witness :
  let fs := functions_of demo_interleaved (demo_bulker "c1") None in
  ∃ chain w',
    @udfFuncChain_of demo demo_interleaved fs demo_world = (Normal chain, w')
    ∧ Forall2 (λ f step,
                 step_id step = functionId f
                 ∧ step_config step = functionOptions f
                 ∧ step_context step = ∅)
        [mkFunctionRef "udf.f1" JsUndefined] chain.
Proof.
  intros fs.
  pose (run := @udfFuncChain_of demo demo_interleaved fs demo_world).
  pose (chain := match fst run with Normal chain => chain | _ => [] end).
  assert (Hrun : run = (Normal chain, snd run)) by (vm_compute; reflexivity).
  exists chain, (snd run). split; [exact Hrun|].
  exact (@udfFuncChain_of_steps demo demo_interleaved fs demo_world chain
           (snd run) Hrun).
Defined.

Lemma filter_skips_udfs_witness :
  let p := λ id, negb (startsWith id "udf.") in
  @udfFuncChain_of demo demo_interleaved
    (functions_of demo_interleaved (demo_bulker "c1") (Some p)) demo_world
  = (Normal [], demo_world).
Proof.
  intros p. apply (@filter_skips_udfs demo).
  intros id Hid. unfold p. rewrite Hid. reflexivity.
Defined.

Lemma acquire_cached_witness :
  let w := advance 30000 demo_world_after in
  ∃ w',
    @acquire demo "f1" (demo_function "W1" "return event") w
    = (Normal (mkCached 0 "sha:return event"), w')
    ∧ trace w'
      = trace w ++ [EvCacheGet UdfCache "f1"; EvCacheTtl UdfCache "f1"]
    ∧ nextWrapper w' = nextWrapper w.
Proof.
  intros w.
  destruct (@acquire_cached demo "f1" (demo_function "W1" "return event") w
              (mkEntry 600000 (mkCached 0 "sha:return event")))
    as (w' & Hacquire & Htrace & _ & Hnext).
  - vm_compute. reflexivity.
  - vm_compute. reflexivity.
  - vm_compute. discriminate.
  - vm_compute. reflexivity.
  - discriminate.
  - exists w'. split; [exact Hacquire|]. split; [exact Htrace|exact Hnext].
Defined.

Lemma acquire_cold_witness :
  ∃ w',
    @acquire demo "f1" (demo_function "W1" "return event") demo_world
    = (Normal (mkCached 0 "sha:return event"), w')
    ∧ udfCache_data w' !! "f1"
      = Some (mkEntry 600000 (mkCached 0 "sha:return event"))
    ∧ nextWrapper w' = 1%nat.
Proof.
  destruct (@acquire_cold demo "f1" (demo_function "W1" "return event")
              demo_world)
    as (w' & Hacquire & _ & Hentry & Hnext).
  - vm_compute. reflexivity.
  - vm_compute. discriminate.
  - exists w'. split; [exact Hacquire|]. split; [exact Hentry|exact Hnext].
Defined.

Lemma acquire_expired_witness :
  let w := advance 700000 demo_world_after in
  ∃ w',
    @acquire demo "f1" (demo_function "W1" "return event") w
    = (Normal (mkCached (nextWrapper w) "sha:return event"), w')
    ∧ wrapper_events (drop (length (trace w)) (trace w'))
      = [Closed 0%nat; Compiled (nextWrapper w)].
Proof.
  intros w.
  destruct (@acquire_expired demo "f1"
              (demo_function "W1" "return event") w
              (mkEntry 600000 (mkCached 0 "sha:return event")))
    as (w' & Hacquire & Hevents).
  - vm_compute. reflexivity.
  - vm_compute. reflexivity.
  - vm_compute. discriminate.
  - exists w'. split; [exact Hacquire|exact Hevents].
Defined.

Lemma udf_exec_keeps_rebuilt_witness :
  let w := advance 150000 demo_world_after in
  let exec_ := @udf_exec demo 0 (mkCached 0 "sha:return event") "f1"
                 (demo_function "W1" "return event") (JsStr "return event")
                 "sha:return event" in
  cells (snd (exec_ (JsObj []) ∅ w)) !! 0%nat
  = Some (mkCached (nextWrapper w) "sha:return event").
Proof.
  intros w exec_.
  refine (proj1 (@udf_exec_keeps_rebuilt demo 0 (mkCached 0 "sha:return event")
                   "f1" (demo_function "W1" "return event")
                   (JsStr "return event") "sha:return event" (JsObj []) ∅ w
                   {| exn_message := Some "Isolate is disposed";
                      exn_data := JsUndefined |}
                   (JsObj []) ∅ _ _)).
  - vm_compute. reflexivity.
  - reflexivity.
Defined.

Lemma reduced_event_context_witness :
  let ctx := @eventContext (demo_message "c1") demo_interleaved 0 in
  pick (@systemContext demo ∪ ctx) reduced_context_fields = ctx.
Proof.
  intros ctx.
  apply (reduced_event_context (demo_message "c1") demo_interleaved 0
           (@systemContext demo)).
  intros k Hk. unfold reduced_context_fields in Hk.
  repeat (apply elem_of_cons in Hk as [->|Hk]; [vm_compute; reflexivity|]).
  by apply elem_of_nil in Hk.
Defined.

Lemma metrics_before_checkError_witness :
  ∃ w4,
    @rotorMessageHandler demo (Some "{c1}") None 0 demo_world
    = (Normal tt, log_event (EvLogMetrics "W1" "m1") w4).
Proof.
  pose (w1 := snd (getCachedOrLoad connectionsCache "c1" getEnrichedConnection
                     (log_event (EvJsonParse "{c1}") demo_world))).
  pose (fs := functions_of demo_interleaved (demo_bulker "c1") None).
  pose (udfRun := @udfFuncChain_of demo demo_interleaved fs w1).
  pose (udfFuncChain := match fst udfRun with Normal c => c | _ => [] end).
  pose (chainRun := @funcChain_of demo None
                      (@udfPipelineFunc demo udfFuncChain demo_interleaved
                         redisLogger {| store_hash := "store:c1" |})
                      (aggregatedFunctions fs udfFuncChain) (snd udfRun)).
  pose (funcChain := match fst chainRun with Normal c => c | _ => [] end).
  pose proof (@metrics_before_checkError demo "{c1}" (demo_message "c1")
                demo_interleaved None 0 demo_world w1 (demo_bulker "c1")
                udfFuncChain (snd udfRun) funcChain (snd chainRun)) as Hthm.
  cbv zeta in Hthm.
  match type of Hthm with
  | _ → _ → _ → _ → _ → _ → match ?r with _ => _ end =>
      remember r as res eqn:Hres
  end.
  destruct res as [[chainRes|e] w4].
  - exists w4. rewrite Hthm.
    + vm_compute in Hres. injection Hres as -> ->. f_equal.
    + discriminate.
    + reflexivity.
    + vm_compute. reflexivity.
    + vm_compute. reflexivity.
    + apply (Normal_of_fst udfRun []). vm_compute. reflexivity.
    + apply (Normal_of_fst chainRun []). vm_compute. reflexivity.
  - vm_compute in Hres. discriminate.
Defined.

Lemma udfFuncChain_of_allocated_witness :
  let w' := snd (@udfFuncChain_of demo demo_interleaved
                   (functions_of demo_interleaved (demo_bulker "c1") None)
                   demo_world) in
  wrappers_allocated w' ∧ (nextWrapper demo_world ≤ nextWrapper w')%nat.
Proof.
  intros w'.
  destruct (@udfFuncChain_of_allocated demo demo_interleaved
              (functions_of demo_interleaved (demo_bulker "c1") None)
              demo_world)
    as (Hallocated & Hle & _).
  - split; intros k x Hin; simpl in Hin; rewrite lookup_empty in Hin;
      discriminate.
  - split; [exact Hallocated|exact Hle].
Defined.

Lemma store_get_set_witness :
  let parse_one := λ s : string,
    if String.eqb s "1" then (inr (JsNum 1) : Exn + JsVal)
    else inl (newError "Unexpected token") in
  let stringify_one := λ _ : JsVal, "1" in
  store_get parse_one demo_interleaved "visits"
    (store_set stringify_one demo_interleaved "visits" (JsNum 1) ∅)
  = Normal (JsNum 1).
Proof.
  intros parse_one stringify_one.
  apply store_get_set; [reflexivity|discriminate].
Defined.

Lemma store_isolation_witness :
  let parse_one := λ s : string,
    if String.eqb s "1" then (inr (JsNum 1) : Exn + JsVal)
    else inl (newError "Unexpected token") in
  let stringify_one := λ _ : JsVal, "1" in
  let r := store_set stringify_one demo_foreign "visits" (JsNum 1) ∅ in
  store_get parse_one demo_foreign "visits"
    (store_set stringify_one demo_interleaved "visits" (JsNum 1) r)
  = Normal (JsNum 1).
Proof.
  intros parse_one stringify_one r.
  assert (Hne : conn_id demo_interleaved ≠ conn_id demo_foreign)
    by discriminate.
  rewrite (proj1 (store_isolation parse_one stringify_one demo_interleaved
                    "visits" (JsNum 1) demo_foreign "visits" r
                    (or_introl Hne))).
  reflexivity.
Defined.

Lemma parse_throws_only_decoding_witness :
  let decode := λ input : JsVal,
    match input with
    | JsStr "%7B%22%" => (inl (newError "URI malformed") : Exn + string)
    | JsStr s => inr s
    | _ => inr "undefined"
    end in
  parse decode (λ _, None) (λ _, None) (JsStr "%7B%22%")
  = Thrown (newError "URI malformed")
  ∧ parse decode (λ _, None) (λ _, None) (JsNum 7)
    = Thrown (TypeError "input.indexOf is not a function").
Proof.
  intros decode. split.
  - apply (parse_throws_only_decoding decode (λ _, None) (λ _, None)).
    right. split; [left; by eexists|reflexivity].
  - apply (parse_throws_only_decoding decode (λ _, None) (λ _, None)).
    left. by split.
Defined.

Lemma missing_code_throws_witness :
  let def := JsObj [("workspaceId", JsStr "W1"); ("name", JsStr "fn")] in
  let w := initial_world ∅ {[ "f1" := def ]} in
  let run := @resolveUdf demo demo_interleaved
               (mkFunctionRef "udf.f1" JsUndefined) w in
  fst run = Thrown (newError "Object argument required.")
  ∧ udfCache_data (snd run) = ∅.
Proof.
  intros def w run.
  destruct (@missing_code_throws demo demo_interleaved
              (mkFunctionRef "udf.f1" JsUndefined) w def)
    as (_ & Hthrown & Hcache & _).
  - vm_compute. reflexivity.
  - reflexivity.
  - vm_compute. reflexivity.
  - reflexivity.
  - split; [exact Hthrown|]. fold run in Hcache. by rewrite Hcache.
Defined.
